(** * Universal AI enrichment: the query orchestration core

    A shallow embedding of the orchestration core of the enrichment tool:
    prompt rendering and batched querying ([agent_main.py]), the response
    parsers ([agent_main.py], [openai_compatible_client.py]) and the MCP
    client ([mcp_client.py]).

    Python strings are sequences of Unicode code points; Python values that
    flow through the core (records, schema entries, decoded JSON, transport
    replies) are values of one type [json].  An exception is a value of
    [exn]; a computation that may raise returns [result]. *)

From Stdlib Require Import String Ascii List ZArith NArith Lia Bool.
From Stdlib Require Decimal DecimalFacts DecimalPos DecimalN DecimalZ.
Import ListNotations.

Local Open Scope N_scope.
Local Open Scope list_scope.

(* ================================================================= *)
(** ** Python strings *)

Module Py.

Definition char := N.
Definition str := list char.

Fixpoint bytes_of (s : string) : list N :=
  match s with
  | EmptyString => []
  | String a s' => N_of_ascii a :: bytes_of s'
  end.

(** Source literals are written in UTF-8; [utf8_decode] recovers their code
    points. *)
Fixpoint utf8_decode (bs : list N) : str :=
  match bs with
  | [] => []
  | b1 :: r1 =>
    if b1 <? 192 then b1 :: utf8_decode r1 else
    match r1 with
    | [] => [b1]
    | b2 :: r2 =>
      if b1 <? 224 then ((b1 - 192) * 64 + (b2 - 128)) :: utf8_decode r2 else
      match r2 with
      | [] => [b1; b2]
      | b3 :: r3 =>
        if b1 <? 240
        then ((b1 - 224) * 4096 + (b2 - 128) * 64 + (b3 - 128)) :: utf8_decode r3
        else
        match r3 with
        | [] => [b1; b2; b3]
        | b4 :: r4 =>
          ((b1 - 240) * 262144 + (b2 - 128) * 4096 + (b3 - 128) * 64 + (b4 - 128))
            :: utf8_decode r4
        end
      end
    end
  end.

(** [u "..."] is the Python string literal ["..."]. *)
Definition u (s : string) : str := utf8_decode (bytes_of s).

(** A literal written with ['] where the text has a double quote. *)
Definition jq (s : string) : str :=
  map (fun c => if c =? 39 then 34 else c) (u s).

Definition NL : str := [10].

Definition str_eqb (a b : str) : bool :=
  if list_eq_dec N.eq_dec a b then true else false.

Fixpoint startswith (p s : str) : bool :=
  match p, s with
  | [], _ => true
  | _ :: _, [] => false
  | a :: p', b :: s' => (a =? b) && startswith p' s'
  end.

(** [needle in s] for strings. *)
Fixpoint contains (needle s : str) : bool :=
  startswith needle s ||
  match s with
  | [] => false
  | _ :: s' => contains needle s'
  end.

(** [str.isspace] per character: the set CPython's [_PyUnicode_IsWhitespace]
    accepts; [str.strip] and the [\s] class of [re] on [str] patterns use
    it. *)
Definition is_space (c : char) : bool :=
  ((9 <=? c) && (c <=? 13)) || ((28 <=? c) && (c <=? 32)) ||
  (c =? 133) || (c =? 160) || (c =? 5760) ||
  ((8192 <=? c) && (c <=? 8202)) || (c =? 8232) || (c =? 8233) ||
  (c =? 8239) || (c =? 8287) || (c =? 12288).

Fixpoint lstrip (s : str) : str :=
  match s with
  | c :: s' => if is_space c then lstrip s' else s
  | [] => []
  end.

Definition rstrip (s : str) : str := rev (lstrip (rev s)).
Definition strip (s : str) : str := rstrip (lstrip s).

(** [sep.join(parts)] *)
Fixpoint join (sep : str) (parts : list str) : str :=
  match parts with
  | [] => []
  | [p] => p
  | p :: ps => p ++ sep ++ join sep ps
  end.

Definition ascii_digit (c : char) : bool := (48 <=? c) && (c <=? 57).

Definition digit_char (d : N) : char := 48 + d.

Fixpoint uint_chars (d : Decimal.uint) : str :=
  match d with
  | Decimal.Nil => []
  | Decimal.D0 d' => 48 :: uint_chars d'
  | Decimal.D1 d' => 49 :: uint_chars d'
  | Decimal.D2 d' => 50 :: uint_chars d'
  | Decimal.D3 d' => 51 :: uint_chars d'
  | Decimal.D4 d' => 52 :: uint_chars d'
  | Decimal.D5 d' => 53 :: uint_chars d'
  | Decimal.D6 d' => 54 :: uint_chars d'
  | Decimal.D7 d' => 55 :: uint_chars d'
  | Decimal.D8 d' => 56 :: uint_chars d'
  | Decimal.D9 d' => 57 :: uint_chars d'
  end.

(** [str(z)] for an [int]. *)
Definition str_of_int (z : Z) : str :=
  match Z.to_int z with
  | Decimal.Pos d => uint_chars d
  | Decimal.Neg d => 45 :: uint_chars d
  end.

Definition str_of_nat (n : nat) : str := str_of_int (Z.of_nat n).

(** Exceptions, by class.  [KeyError] carries the missing key; [Failure]
    stands for an exception raised by an external collaborator (transport,
    operating system), with the text [str(e)] gives for it. *)
Inductive exn :=
| KeyError (key : str)
| IndexError
| ValueError
| TypeError
| AttributeError
| JSONDecodeError
| RecursionError
| Failure (msg : str).

Inductive result (A : Type) :=
| Ok (a : A)
| Raise (e : exn).
Arguments Ok {A} a.
Arguments Raise {A} e.

Definition bind {A B} (r : result A) (f : A -> result B) : result B :=
  match r with
  | Ok a => f a
  | Raise e => Raise e
  end.

(** [try: body except Exception: handler] *)
Definition try_except {A} (body : result A) (handler : exn -> result A) : result A :=
  match body with
  | Ok a => Ok a
  | Raise e => handler e
  end.

End Py.
Import Py.

Declare Scope py_scope.
Delimit Scope py_scope with py.
Notation "x <- c ;; k" := (bind c (fun x => k))
  (at level 61, c at next level, right associativity) : py_scope.
Notation "' p <- c ;; k" := (bind c (fun x => let p := x in k))
  (at level 61, p pattern, c at next level, right associativity) : py_scope.


(* ================================================================= *)
(** ** Regular expressions

    The patterns of the source are written as terms of [regex] and run by a
    backtracking matcher with the priorities of Python's [re]: alternatives
    left to right, greedy repetition longest first, lazy repetition shortest
    first, and the leftmost start position wins in [search]. *)

Module Re.

Inductive regex :=
| Eps                                   (* empty pattern *)
| Chr (c : char)                        (* a literal character *)
| Cls (p : char -> bool)                (* a character class *)
| Seq (a b : regex)                     (* ab *)
| Alt (a b : regex)                     (* a|b *)
| Star (greedy : bool) (a : regex)      (* a* and a*? *)
| Grp (n : nat) (a : regex)             (* capturing group number n *)
| Eos.                                  (* $ without MULTILINE *)

Definition caps := list (nat * str).

Definition orelse {A} (x : option A) (y : option A) : option A :=
  match x with
  | Some a => Some a
  | None => y
  end.

(** [run r s cs k]: match [r] at the front of [s], then continue with [k] on
    the rest; [None] asks the caller to backtrack.  A repetition stops as
    soon as one round consumes nothing. *)
Fixpoint run {A} (r : regex) (s : str) (cs : caps)
         (k : str -> caps -> option A) : option A :=
  match r with
  | Eps => k s cs
  | Chr c =>
    match s with
    | x :: s' => if x =? c then k s' cs else None
    | [] => None
    end
  | Cls p =>
    match s with
    | x :: s' => if p x then k s' cs else None
    | [] => None
    end
  | Seq a b => run a s cs (fun s' cs' => run b s' cs' k)
  | Alt a b => orelse (run a s cs k) (run b s cs k)
  | Star greedy a =>
    (fix rounds (n : nat) (s : str) (cs : caps) {struct n} : option A :=
       match n with
       | O => k s cs
       | S n' =>
         if greedy
         then orelse (run a s cs (fun s' cs' =>
                        if (length s' <? length s)%nat
                        then rounds n' s' cs' else None))
                     (k s cs)
         else orelse (k s cs)
                     (run a s cs (fun s' cs' =>
                        if (length s' <? length s)%nat
                        then rounds n' s' cs' else None))
       end) (length s) s cs
  | Grp n a =>
    run a s cs (fun s' cs' =>
      k s' ((n, firstn (length s - length s')%nat s) :: cs'))
  | Eos =>
    match s with
    | [] => k s cs
    | [c] => if c =? 10 then k s cs else None
    | _ => None
    end
  end.

(** Derived forms. *)
Fixpoint lit (s : str) : regex :=
  match s with
  | [] => Eps
  | [c] => Chr c
  | c :: s' => Seq (Chr c) (lit s')
  end.

Fixpoint seqs (rs : list regex) : regex :=
  match rs with
  | [] => Eps
  | [r] => r
  | r :: rs' => Seq r (seqs rs')
  end.

Definition plus (greedy : bool) (a : regex) : regex := Seq a (Star greedy a).
Definition opt (a : regex) : regex := Alt a Eps.

(** a{n} *)
Fixpoint times (n : nat) (a : regex) : regex :=
  match n with
  | O => Eps
  | S n' => Seq a (times n' a)
  end.

(** a{0,n}, greedy *)
Fixpoint upto (n : nat) (a : regex) : regex :=
  match n with
  | O => Eps
  | S n' => opt (Seq a (upto n' a))
  end.

(** a{lo,hi} and a{lo,} *)
Definition between (lo hi : nat) (a : regex) : regex :=
  Seq (times lo a) (upto (hi - lo) a).
Definition atleast (lo : nat) (a : regex) : regex :=
  Seq (times lo a) (Star true a).

Definition one_of (cs : str) : char -> bool :=
  fun c => existsb (N.eqb c) cs.
Definition none_of (cs : str) : char -> bool :=
  fun c => negb (existsb (N.eqb c) cs).
Definition any_char : char -> bool := fun _ => true.   (* . under DOTALL *)

(** A match object: where the match starts, the text of group 0, what
    follows it, and the groups. *)
Record match_obj := {
  m_start : nat;
  m_group0 : str;
  m_rest : str;
  m_caps : caps
}.

Fixpoint lookup_cap (n : nat) (cs : caps) : option str :=
  match cs with
  | [] => None
  | (i, s) :: cs' => if Nat.eqb i n then Some s else lookup_cap n cs'
  end.

(** [m.group(n)] for a group that took part in the match. *)
Definition group (n : nat) (m : match_obj) : str :=
  match lookup_cap n (m_caps m) with
  | Some s => s
  | None => []
  end.

Definition match_at (r : regex) (pos : nat) (s : str) : option match_obj :=
  run r s [] (fun s' cs =>
    Some {| m_start := pos;
            m_group0 := firstn (length s - length s')%nat s;
            m_rest := s';
            m_caps := cs |}).

(** [re.search(r, s)] *)
Fixpoint search_from (r : regex) (pos : nat) (s : str) : option match_obj :=
  match match_at r pos s with
  | Some m => Some m
  | None =>
    match s with
    | [] => None
    | _ :: s' => search_from r (S pos) s'
    end
  end.

Definition search (r : regex) (s : str) : option match_obj := search_from r O s.

(** [re.finditer(r, s)] for a pattern that cannot match the empty string:
    the matches from left to right, each search resuming where the last
    match ended.  [skip] counts the characters of the current match still
    to be passed. *)
Fixpoint finditer_from (r : regex) (skip : nat) (pos : nat) (s : str)
  : list match_obj :=
  match s with
  | [] => []
  | _ :: s' =>
    match skip with
    | S k => finditer_from r k (S pos) s'
    | O =>
      match match_at r pos s with
      | Some m =>
        m :: finditer_from r (length (m_group0 m) - 1)%nat (S pos) s'
      | None => finditer_from r O (S pos) s'
      end
    end
  end.

Definition finditer (r : regex) (s : str) : list match_obj :=
  finditer_from r O O s.

(** [re.split(r, s)] for a pattern without groups that cannot match the
    empty string: the pieces between successive matches. *)
Fixpoint split_from (r : regex) (skip : nat) (piece : str) (s : str)
  : list str :=
  match s with
  | [] => [rev piece]
  | c :: s' =>
    match skip with
    | S k => split_from r k piece s'
    | O =>
      match match_at r O s with
      | Some m =>
        match length (m_group0 m) with
        | O => split_from r O (c :: piece) s'
        | S k => rev piece :: split_from r k [] s'
        end
      | None => split_from r O (c :: piece) s'
      end
    end
  end.

Definition split (r : regex) (s : str) : list str := split_from r O [] s.

End Re.

(* ================================================================= *)
(** ** Values and the [json] module

    [json] is the universe of Python values the core handles: [None],
    [bool], [int], [float], [str], [list] and [dict] with string keys.  A
    [dict] is the list of its items in insertion order.  A [float] is kept
    as the JSON literal that denotes it; no arithmetic is done on floats. *)

Module Json.

Set Warnings "-register-all".

Inductive json :=
| JNull
| JBool (b : bool)
| JInt (z : Z)
| JFloat (literal : str)
| JStr (s : str)
| JArr (items : list json)
| JObj (fields : list (str * json)).

Definition dict := list (str * json).

(** [d.get(k)] *)
Fixpoint dict_get (k : str) (d : dict) : option json :=
  match d with
  | [] => None
  | (k', v) :: d' => if str_eqb k' k then Some v else dict_get k d'
  end.

(** [d[k] = v]: an existing key keeps its place. *)
Fixpoint dict_set (k : str) (v : json) (d : dict) : dict :=
  match d with
  | [] => [(k, v)]
  | (k', v') :: d' =>
    if str_eqb k' k then (k', v) :: d' else (k', v') :: dict_set k v d'
  end.

Definition dict_of_pairs (ps : list (str * json)) : dict :=
  fold_left (fun d kv => dict_set (fst kv) (snd kv) d) ps [].

Definition dict_has (k : str) (d : dict) : bool :=
  match dict_get k d with
  | Some _ => true
  | None => false
  end.

(** Whether a float literal denotes zero: its mantissa has no digit other
    than [0]. *)
Fixpoint mantissa_is_zero (literal : str) : bool :=
  match literal with
  | [] => true
  | c :: rest =>
    if (c =? 101) || (c =? 69) then true
    else if (c =? 48) || (c =? 46) || (c =? 45) then mantissa_is_zero rest
    else false
  end.

(** Truth value of a Python object. *)
Definition truthy (v : json) : bool :=
  match v with
  | JNull => false
  | JBool b => b
  | JInt z => negb (Z.eqb z 0)
  | JFloat literal => negb (mantissa_is_zero literal)
  | JStr s => negb (Nat.eqb (length s) 0)
  | JArr l => negb (Nat.eqb (length l) 0)
  | JObj d => negb (Nat.eqb (length d) 0)
  end.

(* ----------------------------------------------------------------- *)
(** *** [json.dumps] *)

Definition hex_digit (d : N) : char := if d <? 10 then 48 + d else 87 + d.

(** ['%04x' % n] *)
Definition hex4 (n : N) : str :=
  [hex_digit (n / 4096 mod 16); hex_digit (n / 256 mod 16);
   hex_digit (n / 16 mod 16); hex_digit (n mod 16)].

Definition u_escape (n : N) : str := 92 :: 117 :: hex4 n.

(** One character of a string literal.  Both encoders escape the quote,
    the backslash and the control characters; [ensure_ascii] also escapes
    everything outside [' '..'~'], above the BMP as a surrogate pair. *)
Definition escape_char (ensure_ascii : bool) (c : char) : str :=
  if c =? 34 then [92; 34]
  else if c =? 92 then [92; 92]
  else if c =? 10 then [92; 110]
  else if c =? 13 then [92; 114]
  else if c =? 9 then [92; 116]
  else if c =? 12 then [92; 102]
  else if c =? 8 then [92; 98]
  else if c <? 32 then u_escape c
  else if ensure_ascii then
    if c <? 127 then [c]
    else if c <? 65536 then u_escape c
    else u_escape (55296 + ((c - 65536) / 1024) mod 1024)
         ++ u_escape (56320 + (c - 65536) mod 1024)
  else [c].

Definition encode_str (ensure_ascii : bool) (s : str) : str :=
  34 :: flat_map (escape_char ensure_ascii) s ++ [34].

Definition newline_indent (indent : option nat) (level : nat) : str :=
  match indent with
  | None => []
  | Some w => 10 :: repeat 32 (w * level)%nat
  end.

Definition item_separator (indent : option nat) : str :=
  match indent with
  | None => [44; 32]
  | Some _ => [44]
  end.

Definition key_separator : str := [58; 32].

Fixpoint encode (ensure_ascii : bool) (indent : option nat) (level : nat)
         (v : json) : str :=
  match v with
  | JNull => u "null"
  | JBool true => u "true"
  | JBool false => u "false"
  | JInt z => str_of_int z
  | JFloat literal => literal
  | JStr s => encode_str ensure_ascii s
  | JArr [] => u "[]"
  | JArr items =>
    91 :: newline_indent indent (S level)
    ++ (fix each (l : list json) : str :=
          match l with
          | [] => []
          | [x] => encode ensure_ascii indent (S level) x
          | x :: l' =>
            encode ensure_ascii indent (S level) x
            ++ item_separator indent ++ newline_indent indent (S level)
            ++ each l'
          end) items
    ++ newline_indent indent level ++ [93]
  | JObj [] => u "{}"
  | JObj fields =>
    123 :: newline_indent indent (S level)
    ++ (fix each (l : list (str * json)) : str :=
          match l with
          | [] => []
          | [(k, x)] =>
            encode_str ensure_ascii k ++ key_separator
            ++ encode ensure_ascii indent (S level) x
          | (k, x) :: l' =>
            encode_str ensure_ascii k ++ key_separator
            ++ encode ensure_ascii indent (S level) x
            ++ item_separator indent ++ newline_indent indent (S level)
            ++ each l'
          end) fields
    ++ newline_indent indent level ++ [125]
  end.

(** [json.dumps(v)] *)
Definition dumps (v : json) : str := encode true None O v.

(** [json.dumps(v, ensure_ascii=False)] *)
Definition dumps_unicode (v : json) : str := encode false None O v.

(** [json.dumps(v, ensure_ascii=False, indent=2)] *)
Definition dumps_pretty (v : json) : str := encode false (Some 2%nat) O v.

(* ----------------------------------------------------------------- *)
(** *** [json.loads] *)

Definition is_ws (c : char) : bool :=
  (c =? 32) || (c =? 9) || (c =? 10) || (c =? 13).

Fixpoint skip_ws (s : str) : str :=
  match s with
  | c :: s' => if is_ws c then skip_ws s' else s
  | [] => []
  end.

Definition hex_val (c : char) : option N :=
  if (48 <=? c) && (c <=? 57) then Some (c - 48)
  else if (97 <=? c) && (c <=? 102) then Some (c - 87)
  else if (65 <=? c) && (c <=? 70) then Some (c - 55)
  else None.

Definition hex4_val (a b c d : char) : option N :=
  match hex_val a, hex_val b, hex_val c, hex_val d with
  | Some x, Some y, Some z, Some w => Some (((x * 16 + y) * 16 + z) * 16 + w)
  | _, _, _, _ => None
  end.

Definition is_high_surrogate (n : N) : bool := (55296 <=? n) && (n <=? 56319).
Definition is_low_surrogate (n : N) : bool := (56320 <=? n) && (n <=? 57343).

Definition simple_escape (e : char) : option char :=
  if e =? 34 then Some 34
  else if e =? 92 then Some 92
  else if e =? 47 then Some 47
  else if e =? 98 then Some 8
  else if e =? 102 then Some 12
  else if e =? 110 then Some 10
  else if e =? 114 then Some 13
  else if e =? 116 then Some 9
  else None.

(** The body of a string literal, after its opening quote (strict mode):
    the decoded text and what follows the closing quote. *)
Fixpoint scan_string (s : str) : option (str * str) :=
  match s with
  | [] => None
  | c :: s1 =>
    if c =? 34 then Some ([], s1)
    else if c <? 32 then None
    else if c =? 92 then
      match s1 with
      | [] => None
      | e :: s2 =>
        if e =? 117 then
          match s2 with
          | h1 :: h2 :: h3 :: h4 :: s6 =>
            match hex4_val h1 h2 h3 h4 with
            | None => None
            | Some uni =>
              let lone :=
                match scan_string s6 with
                | Some (t, r) => Some (uni :: t, r)
                | None => None
                end in
              if is_high_surrogate uni then
                match s6 with
                | b :: x :: s8 =>
                  if (b =? 92) && (x =? 117) then
                    match s8 with
                    | g1 :: g2 :: g3 :: g4 :: s12 =>
                      match hex4_val g1 g2 g3 g4 with
                      | None => None
                      | Some uni2 =>
                        if is_low_surrogate uni2 then
                          match scan_string s12 with
                          | Some (t, r) =>
                            Some ((65536 + ((uni - 55296) * 1024 + (uni2 - 56320)))
                                    :: t, r)
                          | None => None
                          end
                        else lone
                      end
                    | _ => None
                    end
                  else lone
                | _ => lone
                end
              else lone
            end
          | _ => None
          end
        else
          match simple_escape e with
          | None => None
          | Some d =>
            match scan_string s2 with
            | Some (t, r) => Some (d :: t, r)
            | None => None
            end
          end
      end
    else
      match scan_string s1 with
      | Some (t, r) => Some (c :: t, r)
      | None => None
      end
  end.

(** The longest run of ASCII digits at the front of [s]. *)
Fixpoint span_digits (s : str) : str * str :=
  match s with
  | c :: s' =>
    if ascii_digit c
    then let (ds, r) := span_digits s' in (c :: ds, r)
    else ([], s)
  | [] => ([], [])
  end.

Fixpoint uint_of_chars (ds : str) : Decimal.uint :=
  match ds with
  | [] => Decimal.Nil
  | c :: ds' =>
    let d := uint_of_chars ds' in
    if c =? 48 then Decimal.D0 d
    else if c =? 49 then Decimal.D1 d
    else if c =? 50 then Decimal.D2 d
    else if c =? 51 then Decimal.D3 d
    else if c =? 52 then Decimal.D4 d
    else if c =? 53 then Decimal.D5 d
    else if c =? 54 then Decimal.D6 d
    else if c =? 55 then Decimal.D7 d
    else if c =? 56 then Decimal.D8 d
    else Decimal.D9 d
  end.

(** [int(text)] for an optional sign and ASCII digits. *)
Definition int_of_chars (negative : bool) (ds : str) : Z :=
  Z.of_int (if negative then Decimal.Neg (uint_of_chars ds)
            else Decimal.Pos (uint_of_chars ds)).

(** The integer digits of a number: a lone [0] or a run not starting with
    [0]. *)
Definition scan_int_part (s : str) : option (str * str) :=
  match s with
  | c :: s' =>
    if c =? 48 then Some ([48], s')
    else if ascii_digit c then Some (span_digits s)
    else None
  | [] => None
  end.

(** [.digits], when a digit follows the point. *)
Definition scan_frac (s : str) : str * str :=
  match s with
  | p :: d :: s' =>
    if (p =? 46) && ascii_digit d
    then let (ds, r) := span_digits (d :: s') in (p :: ds, r)
    else ([], s)
  | _ => ([], s)
  end.

(** [e], an optional sign and digits, when at least one digit follows. *)
Definition scan_exp (s : str) : str * str :=
  match s with
  | e :: s1 =>
    if (e =? 101) || (e =? 69) then
      match s1 with
      | sg :: s2 =>
        if (sg =? 45) || (sg =? 43) then
          match span_digits s2 with
          | ([], _) => ([], s)
          | (ds, r) => (e :: sg :: ds, r)
          end
        else
          match span_digits s1 with
          | ([], _) => ([], s)
          | (ds, r) => (e :: ds, r)
          end
      | [] => ([], s)
      end
    else ([], s)
  | [] => ([], s)
  end.

(** The optional minus sign of a number. *)
Definition scan_sign (s : str) : bool * str :=
  match s with
  | c :: s' => if c =? 45 then (true, s') else (false, s)
  | [] => (false, s)
  end.

Definition scan_number (s : str) : option (json * str) :=
  let (negative, s0) := scan_sign s in
  match scan_int_part s0 with
  | None => None
  | Some (ds, s1) =>
    let (frac, s2) := scan_frac s1 in
    let (ex, s3) := scan_exp s2 in
    match frac, ex with
    | [], [] => Some (JInt (int_of_chars negative ds), s3)
    | _, _ =>
      Some (JFloat ((if negative then [45] else []) ++ ds ++ frac ++ ex), s3)
    end
  end.

(** Drops a keyword from the front of [s]. *)
Definition after (kw : str) (s : str) : option str :=
  if startswith kw s then Some (skipn (length kw) s) else None.

(** [scan_once]: one JSON term at the front of [s].  Every nested term
    spends one unit of [depth]; the interpreter raises [RecursionError]
    when its stack is exhausted. *)
Fixpoint scan_once (depth : nat) (s : str) : result (json * str) :=
  match depth with
  | O => Raise RecursionError
  | S depth' =>
    match s with
    | [] => Raise JSONDecodeError
    | c :: s1 =>
      if c =? 34 then
        match scan_string s1 with
        | Some (t, r) => Ok (JStr t, r)
        | None => Raise JSONDecodeError
        end
      else if c =? 123 then
        match skip_ws s1 with
        | [] => Raise JSONDecodeError
        | c2 :: s3 =>
          if c2 =? 125 then Ok (JObj [], s3)
          else
            match scan_members depth' (c2 :: s3) with
            | Ok (ps, r) => Ok (JObj (dict_of_pairs ps), r)
            | Raise e => Raise e
            end
        end
      else if c =? 91 then
        match skip_ws s1 with
        | [] => Raise JSONDecodeError
        | c2 :: s3 =>
          if c2 =? 93 then Ok (JArr [], s3)
          else
            match scan_items depth' (c2 :: s3) with
            | Ok (vs, r) => Ok (JArr vs, r)
            | Raise e => Raise e
            end
        end
      else
        match after (u "null") s, after (u "true") s, after (u "false") s with
        | Some r, _, _ => Ok (JNull, r)
        | _, Some r, _ => Ok (JBool true, r)
        | _, _, Some r => Ok (JBool false, r)
        | None, None, None =>
          match after (u "NaN") s, after (u "Infinity") s, after (u "-Infinity") s with
          | Some r, _, _ => Ok (JFloat (u "NaN"), r)
          | _, Some r, _ => Ok (JFloat (u "Infinity"), r)
          | _, _, Some r => Ok (JFloat (u "-Infinity"), r)
          | None, None, None =>
            match scan_number s with
            | Some vr => Ok vr
            | None => Raise JSONDecodeError
            end
          end
        end
    end
  end

(** The terms of a non-empty array, up to and including its [']']. *)
with scan_items (depth : nat) (s : str) : result (list json * str) :=
  match depth with
  | O => Raise RecursionError
  | S depth' =>
    match scan_once depth' s with
    | Raise e => Raise e
    | Ok (v, r) =>
      match skip_ws r with
      | [] => Raise JSONDecodeError
      | c :: r1 =>
        if c =? 93 then Ok ([v], r1)
        else if c =? 44 then
          match scan_items depth' (skip_ws r1) with
          | Ok (vs, r2) => Ok (v :: vs, r2)
          | Raise e => Raise e
          end
        else Raise JSONDecodeError
      end
    end
  end

(** The members of a non-empty object, up to and including its ['}']. *)
with scan_members (depth : nat) (s : str) : result (list (str * json) * str) :=
  match depth with
  | O => Raise RecursionError
  | S depth' =>
    match s with
    | [] => Raise JSONDecodeError
    | q :: s1 =>
      if q =? 34 then
        match scan_string s1 with
        | None => Raise JSONDecodeError
        | Some (k, r) =>
          match skip_ws r with
          | [] => Raise JSONDecodeError
          | c :: r1 =>
            if c =? 58 then
              match scan_once depth' (skip_ws r1) with
              | Raise e => Raise e
              | Ok (v, r2) =>
                match skip_ws r2 with
                | [] => Raise JSONDecodeError
                | c2 :: r3 =>
                  if c2 =? 125 then Ok ([(k, v)], r3)
                  else if c2 =? 44 then
                    match scan_members depth' (skip_ws r3) with
                    | Ok (ps, r4) => Ok ((k, v) :: ps, r4)
                    | Raise e => Raise e
                    end
                  else Raise JSONDecodeError
                end
              end
            else Raise JSONDecodeError
          end
        end
      else Raise JSONDecodeError
    end
  end.

(** [JSONDecoder.decode]: one term, surrounded by optional whitespace and
    nothing else.  The depth handed to the scanner exceeds the number of
    characters, so a text can never exhaust it: the interpreter's own
    settings, its recursion limit and the number of digits [int] accepts,
    are not part of this description. *)
Definition decode (s : str) : result json :=
  match scan_once (S (length s)) (skip_ws s) with
  | Raise e => Raise e
  | Ok (v, r) =>
    match skip_ws r with
    | [] => Ok v
    | _ :: _ => Raise JSONDecodeError
    end
  end.

(** [json.loads(x)]: [x] must be a [str]. *)
Definition loads (x : json) : result json :=
  match x with
  | JStr s => decode s
  | _ => Raise TypeError
  end.

End Json.
Import Json.

(* ================================================================= *)
(** ** The interpreter's tables, [str()] and [str.format] *)

Module Runtime.

(** What the core takes from the interpreter without defining it: tables of
    the Unicode database, the text of exception messages, and the parts of
    [str.format] beyond plain named fields. *)
Record runtime := {
  (** [repr(s)] for a [str] (quotes, escapes of unprintable characters) *)
  repr_str : str -> str;
  (** [repr(x)] for the [float] denoted by a JSON literal *)
  repr_float : str -> str;
  (** [s.lower()] *)
  lower : str -> str;
  (** [str(e)] for an exception *)
  exn_text : exn -> str;
  (** the decimal digits of the Unicode database: [\d] of [re] *)
  isdecimal : char -> bool;
  (** [template.format( **kwargs )] for a template that starts with a
      replacement field using an index, an attribute, an item, a conversion
      or a format specification *)
  format_tail : list (str * json) -> str -> result str
}.

Section WithRuntime.

Variable rt : runtime.

(** [repr(v)] *)
Fixpoint py_repr (v : json) : str :=
  match v with
  | JNull => u "None"
  | JBool true => u "True"
  | JBool false => u "False"
  | JInt z => str_of_int z
  | JFloat literal => repr_float rt literal
  | JStr s => repr_str rt s
  | JArr items => 91 :: join (u ", ") (map py_repr items) ++ [93]
  | JObj fields =>
    123 :: join (u ", ")
             ((fix each (l : list (str * json)) : list str :=
                 match l with
                 | [] => []
                 | (k, x) :: l' =>
                   (repr_str rt k ++ u ": " ++ py_repr x) :: each l'
                 end) fields)
    ++ [125]
  end.

(** [str(v)], which is also [format(v, '')] and what an f-string inserts. *)
Definition py_str (v : json) : str :=
  match v with
  | JStr s => s
  | _ => py_repr v
  end.

Fixpoint kw_get (name : str) (kwargs : list (str * json)) : option json :=
  match kwargs with
  | [] => None
  | (k, v) :: kwargs' => if str_eqb k name then Some v else kw_get name kwargs'
  end.

(** The characters that end the plain part of a field name. *)
Definition field_special (c : char) : bool :=
  (c =? 46) || (c =? 91) || (c =? 33) || (c =? 58).

(** The object a plain field name denotes: the empty name is the next
    positional argument, of which there are none; any other name is a
    keyword. *)
Definition get_field (kwargs : list (str * json)) (name : str) : result str :=
  match name with
  | [] => Raise IndexError
  | _ =>
    match kw_get name kwargs with
    | Some v => Ok (py_str v)
    | None => Raise (KeyError name)
    end
  end.

(** [template.format( **kwargs )], left to right.  [field] is [None] in
    literal text and [Some n] inside a replacement field whose name so far
    is [rev n]. *)
Fixpoint format_from (kwargs : list (str * json)) (field : option str)
         (s : str) : result str :=
  match field with
  | None =>
    match s with
    | [] => Ok []
    | c :: s1 =>
      if c =? 123 then
        match s1 with
        | [] => Raise ValueError
        | c2 :: s2 =>
          if c2 =? 123
          then (t <- format_from kwargs None s2 ;; Ok (123 :: t))%py
          else format_from kwargs (Some []) s1
        end
      else if c =? 125 then
        match s1 with
        | [] => Raise ValueError
        | c2 :: s2 =>
          if c2 =? 125
          then (t <- format_from kwargs None s2 ;; Ok (125 :: t))%py
          else Raise ValueError
        end
      else (t <- format_from kwargs None s1 ;; Ok (c :: t))%py
    end
  | Some name =>
    match s with
    | [] => Raise ValueError
    | c :: s1 =>
      if c =? 125 then
        (v <- get_field kwargs (rev name) ;;
         t <- format_from kwargs None s1 ;;
         Ok (v ++ t))%py
      else if c =? 123 then Raise ValueError
      else if field_special c || forallb (isdecimal rt) (rev (c :: name))
      then format_tail rt kwargs (123 :: rev name ++ s)
      else format_from kwargs (Some (c :: name)) s1
    end
  end.

Definition format (template : str) (kwargs : list (str * json)) : result str :=
  format_from kwargs None template.

End WithRuntime.

(** A small runtime for running the model on ASCII examples. *)
Definition ascii_lower (c : char) : char :=
  if (65 <=? c) && (c <=? 90) then c + 32 else c.

Definition exn_name (e : exn) : str :=
  match e with
  | KeyError k => 39 :: k ++ [39]
  | IndexError => u "IndexError"
  | ValueError => u "ValueError"
  | TypeError => u "TypeError"
  | AttributeError => u "AttributeError"
  | JSONDecodeError => u "JSONDecodeError"
  | RecursionError => u "RecursionError"
  | Failure msg => msg
  end.

Definition ascii_runtime : runtime := {|
  repr_str := fun s => 39 :: s ++ [39];
  repr_float := fun literal => literal;
  lower := map ascii_lower;
  exn_text := exn_name;
  isdecimal := ascii_digit;
  format_tail := fun _ _ => Raise ValueError
|}.

End Runtime.
Import Runtime.

(* ================================================================= *)
(** ** [agent_main.py]: [UniversalAIAgent] *)

Module Agent.

(** The active schema, as [generate_prompt] reads it.  A column is the
    [dict] of the configuration file. *)
Record schema := {
  output_columns : list dict;
  prompt_template : str;
  batch_prompt_template : str
}.

(** What [generate_prompt] is handed as [input_data]: one record, or the
    records of a chunk. *)
Inductive prompt_input :=
| Single (record : dict)
| Batch (records : list dict).

Definition input_value (i : prompt_input) : json :=
  match i with
  | Single d => JObj d
  | Batch l => JArr (map JObj l)
  end.

(** [d[k]] *)
Definition dict_item (d : dict) (k : str) : result json :=
  match dict_get k d with
  | Some v => Ok v
  | None => Raise (KeyError k)
  end.

Fixpoint mapM {A B} (f : A -> result B) (l : list A) : result (list B) :=
  match l with
  | [] => Ok []
  | a :: l' => (b <- f a ;; bs <- mapM f l' ;; Ok (b :: bs))%py
  end.

(** The error sentinels of the parsers and of [query_batch]. *)
Definition error_result (msg : str) : json := JObj [(u "error", JStr msg)].

Definition unparsable (response : json) : json :=
  JObj [(u "error", JStr (u "无法解析AI返回内容")); (u "raw_response", response)].

Definition no_result : json := error_result (u "无返回结果").
Definition no_client : json := error_result (u "AI客户端未初始化").

(** The pattern [\{ P (?: \{ P \} P )* \}] where [P] is [[^{}]*]:
    an object whose members may hold objects without braces inside. *)
Definition brace_object_re : Re.regex :=
  let plain := Re.Star true (Re.Cls (Re.none_of (u "{}"))) in
  Re.seqs [Re.Chr 123; plain;
           Re.Star true (Re.seqs [Re.Chr 123; plain; Re.Chr 125; plain]);
           Re.Chr 125].

(** A fenced block: three backquotes, an optional [json], [\s*], group 1
    from [open] lazily to [close] under DOTALL, [\s*], three backquotes. *)
Definition fenced_re (open close : char) : Re.regex :=
  Re.seqs [Re.lit (u "```"); Re.opt (Re.lit (u "json"));
           Re.Star true (Re.Cls is_space);
           Re.Grp 1 (Re.seqs [Re.Chr open;
                              Re.Star false (Re.Cls Re.any_char);
                              Re.Chr close]);
           Re.Star true (Re.Cls is_space); Re.lit (u "```")].

(** The fenced block with group 1 from [{] to [}]. *)
Definition fenced_object_re : Re.regex := fenced_re 123 125.

(** From the first [[] to the last []] under DOTALL. *)
Definition bracket_array_re : Re.regex :=
  Re.seqs [Re.Chr 91; Re.Star true (Re.Cls Re.any_char); Re.Chr 93].

(** The fenced block with group 1 from [[] to []]. *)
Definition fenced_array_re : Re.regex := fenced_re 91 93.

(** [re.search(pattern, x, re.DOTALL)]: [x] must be a [str]. *)
Definition re_search (r : Re.regex) (x : json) : result (option Re.match_obj) :=
  match x with
  | JStr s => Ok (Re.search r s)
  | _ => Raise TypeError
  end.

(** [try: return json.loads(text) except: pass], as an optional value *)
Definition loads_or_pass (text : str) : option json :=
  match loads (JStr text) with
  | Ok v => Some v
  | Raise _ => None
  end.

(** [parse_json_response] *)
Definition parse_json_response (response : json) : result json :=
  try_except (loads response) (fun _ =>
    (json_match <- re_search brace_object_re response ;;
     match match json_match with
           | Some m => loads_or_pass (Re.m_group0 m)
           | None => None
           end with
     | Some v => Ok v
     | None =>
       code_block_match <- re_search fenced_object_re response ;;
       match match code_block_match with
             | Some m => loads_or_pass (Re.group 1 m)
             | None => None
             end with
       | Some v => Ok v
       | None => Ok (unparsable response)
       end
     end)%py).

(** [parse_json_array_response] *)
Definition parse_json_array_response (response : json) : result json :=
  try_except
    (result <- loads response ;;
     match result with
     | JArr _ => Ok result
     | _ => Ok (JArr [result])
     end)%py
    (fun _ =>
    (json_match <- re_search bracket_array_re response ;;
     match match json_match with
           | Some m => loads_or_pass (Re.m_group0 m)
           | None => None
           end with
     | Some v => Ok v
     | None =>
       code_block_match <- re_search fenced_array_re response ;;
       match match code_block_match with
             | Some m => loads_or_pass (Re.group 1 m)
             | None => None
             end with
       | Some v => Ok v
       | None => Ok (JArr [unparsable response])
       end
     end)%py).

(** Operations of dynamically typed values used on the parsed batch. *)

(** [len(x)] *)
Definition py_len (x : json) : result nat :=
  match x with
  | JStr s => Ok (length s)
  | JArr l => Ok (length l)
  | JObj d => Ok (length d)
  | _ => Raise TypeError
  end.

(** [x.extend(more)]: only a [list] has it. *)
Definition py_extend (x : json) (more : list json) : result json :=
  match x with
  | JArr l => Ok (JArr (l ++ more))
  | _ => Raise AttributeError
  end.

(** [x[:n]] *)
Definition py_slice_to (x : json) (n : nat) : result json :=
  match x with
  | JStr s => Ok (JStr (firstn n s))
  | JArr l => Ok (JArr (firstn n l))
  | JObj _ => Raise TypeError
  | _ => Raise TypeError
  end.

(** The items [results.extend(x)] appends. *)
Definition py_iter (x : json) : result (list json) :=
  match x with
  | JStr s => Ok (map (fun c => JStr [c]) s)
  | JArr l => Ok l
  | JObj d => Ok (map (fun kv => JStr (fst kv)) d)
  | _ => Raise TypeError
  end.

(** [l[i:j]] for [0 <= i <= j] *)
Definition slice {A} (l : list A) (i j : nat) : list A :=
  firstn (j - i) (skipn i l).

(** [range(0, n, step)] for [step > 0] *)
Definition range_step (n step : nat) : list nat :=
  map (fun k => k * step)%nat (seq 0 ((n + step - 1) / step)).

Section WithRuntime.

Variable rt : runtime.

(** The chat transport, [ai_client.chat(prompt, stream=False,
    parse_response=False)]: a reply or an exception, and the state the
    outside world is left in. *)
Variable World : Type.

Definition chat_fn := World -> str -> result json * World.

Record agent := {
  active_schema : schema;        (* config_manager.get_active_schema() *)
  ai_client : option chat_fn     (* None when initialisation failed *)
}.

(** The lines ["- name (type): description"] of the output columns. *)
Definition output_fields_description (sc : schema) : result str :=
  (descs <- mapM (fun col =>
       name <- dict_item col (u "name") ;;
       type <- dict_item col (u "type") ;;
       description <- dict_item col (u "description") ;;
       Ok (u "- " ++ py_str rt name ++ u " (" ++ py_str rt type ++ u "): "
           ++ py_str rt description))
     (output_columns sc) ;;
   Ok (join NL descs))%py.

(** [item.get('公司', item.get('company', ''))] *)
Definition company_of (item : dict) : json :=
  match dict_get (u "公司") item with
  | Some v => v
  | None =>
    match dict_get (u "company") item with
    | Some v => v
    | None => JStr []
    end
  end.

Fixpoint numbered_from (i : nat) (items : list dict) : list str :=
  match items with
  | [] => []
  | item :: items' =>
    (str_of_nat (i + 1) ++ u ". " ++ py_str rt (company_of item))
      :: numbered_from (S i) items'
  end.

(** The [companies_list] of batch mode. *)
Definition companies_list (input_data : prompt_input) (batch_data_str : str) : str :=
  match input_data with
  | Batch (first :: rest) =>
    if dict_has (u "公司") first
       || contains (u "company") (lower rt (py_str rt (JObj first)))
    then join NL (numbered_from 0 (first :: rest))
    else batch_data_str
  | _ => batch_data_str
  end.

(** The prompt batch mode falls back to. *)
Definition default_prompt (batch_data_str fields_desc : str) : str :=
  u "请处理以下数据：" ++ NL ++ batch_data_str ++ NL ++ NL
  ++ u "输出字段:" ++ NL ++ fields_desc.

(** [generate_prompt(input_data, is_batch)] *)
Definition generate_prompt (sc : schema) (input_data : prompt_input)
           (is_batch : bool) : result str :=
  (fields_desc <- output_fields_description sc ;;
   if is_batch then
     let template := batch_prompt_template sc in
     let batch_data_str := dumps_pretty (input_value input_data) in
     let companies_list_str := companies_list input_data batch_data_str in
     try_except
       (format rt template
          [(u "batch_data", JStr batch_data_str);
           (u "companies_list", JStr companies_list_str);
           (u "output_fields_description", JStr fields_desc)])
       (fun e =>
          match e with
          | KeyError _ => Ok (default_prompt batch_data_str fields_desc)
          | _ => Raise e
          end)
   else
     let template := prompt_template sc in
     match input_data with
     | Batch _ => Raise AttributeError          (* a list has no items() *)
     | Single record =>
       let input_str :=
         join NL (map (fun kv => fst kv ++ u ": " ++ py_str rt (snd kv)) record) in
       if dict_has (u "input_data") record
          || dict_has (u "output_fields_description") record
       then Raise TypeError                     (* keyword given twice *)
       else
         format rt template
           ((u "input_data", JStr input_str)
              :: (u "output_fields_description", JStr fields_desc)
              :: record)
     end)%py.

(** The context block put before a prompt. *)
Definition with_context (context prompt : str) : str :=
  match context with
  | [] => prompt
  | _ => u "📝 上下文信息" ++ NL ++ context ++ NL ++ NL ++ prompt
  end.

(** The text [query_batch] takes from a transport reply. *)
Definition batch_response (result_dict : json) : json :=
  match result_dict with
  | JStr _ => result_dict
  | JObj d =>
    if truthy result_dict then
      let content := match dict_get (u "content") d with
                     | Some v => v
                     | None => JStr []
                     end in
      if truthy content then content else JStr (dumps_unicode result_dict)
    else JStr []
  | _ => if truthy result_dict then JStr (py_str rt result_dict) else JStr []
  end.

(** Brings the parsed results of a chunk to the length of the chunk. *)
Definition reconcile (batch_results : json) (expected : nat) : result json :=
  (n <- py_len batch_results ;;
   if negb (Nat.eqb n expected) then
     if (n <? expected)%nat
     then py_extend batch_results (repeat no_result (expected - n))
     else py_slice_to batch_results expected
   else Ok batch_results)%py.

(** The body of the [try] in the loop of [query_batch]: the items appended
    to [results] for one chunk. *)
Definition process_chunk (sc : schema) (chat : chat_fn) (w : World)
           (batch : list dict) (context : str) : result (list json) * World :=
  match generate_prompt sc (Batch batch) true with
  | Raise e => (Raise e, w)
  | Ok prompt =>
    let prompt := with_context context prompt in
    match chat w prompt with
    | (Raise e, w') => (Raise e, w')
    | (Ok result_dict, w') =>
      let response := batch_response result_dict in
      ((batch_results <- parse_json_array_response response ;;
        batch_results <- reconcile batch_results (length batch) ;;
        py_iter batch_results)%py, w')
    end
  end.

(** One round of the loop: the [try] body, or the items of the [except]
    branch. *)
Definition chunk_step (sc : schema) (chat : chat_fn) (w : World)
           (batch : list dict) (context : str) : list json * World :=
  match process_chunk sc chat w batch context with
  | (Ok items, w') => (items, w')
  | (Raise e, w') => (repeat (error_result (exn_text rt e)) (length batch), w')
  end.

(** [query_batch(input_data_list, context, batch_size)] *)
Definition query_batch (a : agent) (w : World) (input_data_list : list dict)
           (context : str) (batch_size : Z) : result (list json) * World :=
  match ai_client a with
  | None => (Ok (repeat no_client (length input_data_list)), w)
  | Some chat =>
    if (batch_size =? 0)%Z then (Raise ValueError, w)
    else if (batch_size <? 0)%Z then (Ok [], w)
    else
      let step := Z.to_nat batch_size in
      let '(results, w') :=
        fold_left
          (fun (acc : list json * World) (i : nat) =>
             let '(results, w) := acc in
             let batch := slice input_data_list i (i + step) in
             let '(items, w') := chunk_step (active_schema a) chat w batch context in
             (results ++ items, w'))
          (range_step (length input_data_list) step)
          ([], w) in
      (Ok results, w')
  end.

End WithRuntime.

Arguments active_schema {World} a.
Arguments ai_client {World} a.

End Agent.
Import Agent.

(* ================================================================= *)
(** ** [mcp_client.py] *)

Module Mcp.

(** An entry of [mcp_servers].  [sv_name] is [server_config.get("name")], a
    string or [None]; the other fields are the values the entry gives, with
    the defaults of the source where the key is absent. *)
Record server_config := {
  sv_name : option str;
  sv_enabled : json;       (* .get("enabled", False) *)
  sv_command : json;       (* .get("command", "") *)
  sv_args : json;          (* .get("args", []) *)
  sv_env : json            (* .get("env", {}) *)
}.

(** The settings handed to the clients. *)
Record mcp_config := {
  enable_mcp : json;                   (* .get("enable_mcp", False) *)
  mcp_servers : list server_config     (* .get("mcp_servers", []) *)
}.

(** [needle in x] for a string needle *)
Definition py_in (needle : str) (x : json) : result bool :=
  match x with
  | JStr s => Ok (contains needle s)
  | JArr l =>
    Ok (existsb (fun e => match e with
                          | JStr s => str_eqb s needle
                          | _ => false
                          end) l)
  | JObj d => Ok (dict_has needle d)
  | _ => Raise TypeError
  end.

(** [x[key]] for a string key *)
Definition py_getitem (x : json) (key : str) : result json :=
  match x with
  | JObj d => dict_item d key
  | _ => Raise TypeError
  end.

(** [x.get(key, default)] *)
Definition py_get (x : json) (key : str) (default : json) : result json :=
  match x with
  | JObj d =>
    match dict_get key d with
    | Some v => Ok v
    | None => Ok default
    end
  | _ => Raise AttributeError
  end.

(** [sep.join(items)]: every item must be a [str]. *)
Definition py_join (sep : str) (items : list json) : result str :=
  (parts <- mapM (fun v => match v with
                           | JStr s => Ok s
                           | _ => Raise TypeError
                           end) items ;;
   Ok (join sep parts))%py.

(** [response and "result" in response], then [response["result"]]: the
    result field of a response, if the test passes. *)
Definition result_field (response : json) : result (option json) :=
  if truthy response then
    (present <- py_in (u "result") response ;;
     if present
     then (r <- py_getitem response (u "result") ;; Ok (Some r))
     else Ok None)%py
  else Ok None.

Definition initialize_request : json :=
  JObj [(u "jsonrpc", JStr (u "2.0"));
        (u "id", JInt 1);
        (u "method", JStr (u "initialize"));
        (u "params",
         JObj [(u "protocolVersion", JStr (u "2024-11-05"));
               (u "capabilities", JObj [(u "tools", JObj [])]);
               (u "clientInfo",
                JObj [(u "name", JStr (u "universal-ai-agent"));
                      (u "version", JStr (u "1.0.0"))])])].

Definition list_tools_request : json :=
  JObj [(u "jsonrpc", JStr (u "2.0"));
        (u "id", JInt 2);
        (u "method", JStr (u "tools/list"));
        (u "params", JObj [])].

Definition call_tool_request (id : Z) (tool_name : str) (arguments : json) : json :=
  JObj [(u "jsonrpc", JStr (u "2.0"));
        (u "id", JInt id);
        (u "method", JStr (u "tools/call"));
        (u "params", JObj [(u "name", JStr tool_name);
                           (u "arguments", arguments)])].

(** The label of the entity name and the text that follows it on the line:
    the label, a full-width or plain colon, [\s*], group 1 [[^\n]+]. *)
Definition company_name_re : Re.regex :=
  Re.seqs [Re.lit (u "公司名称"); Re.Cls (Re.one_of (u "：:"));
           Re.Star true (Re.Cls is_space);
           Re.Grp 1 (Re.plus true (Re.Cls (Re.none_of NL)))].

(** The block [SimpleMCPClient.enhance_prompt] appends. *)
Definition search_hint : str :=
  NL ++ NL ++ u "【提示】如果需要最新信息，请：" ++ NL
  ++ u "1. 使用AI的联网搜索功能" ++ NL
  ++ u "2. 优先查询官方网站" ++ NL
  ++ u "3. 验证信息的时效性" ++ NL.

(** The block [MCPClient.enhance_prompt] appends for a search result. *)
Definition search_block (search_result : str) : str :=
  NL ++ NL ++ u "【实时搜索结果】" ++ NL ++ firstn 1000 search_result
  ++ NL ++ NL ++ u "请结合以上搜索结果回答。".

Section WithOS.

(** The operating system as the client sees it: child processes with their
    pipes, and the clock.  Every operation may raise and leaves the world
    in a new state.  The clock counts milliseconds.  The record holds what
    the calls give when they return; [Pipes] adds the read that waits for a
    child that is alive and writes nothing. *)
Variable World : Type.
Variable Proc : Type.

Record os := {
  (** [subprocess.Popen([command] + args, ..., env={**os.environ, **env})] *)
  popen : json -> json -> json -> World -> result Proc * World;
  (** [process.stdin.write(text)] *)
  stdin_write : Proc -> str -> World -> result unit * World;
  (** [process.stdin.flush()] *)
  stdin_flush : Proc -> World -> result unit * World;
  (** [process.stdout.readable()] *)
  stdout_readable : Proc -> World -> result bool * World;
  (** [process.stdout.readline()], once it returns: the next line, or the
      empty string at end of file *)
  stdout_readline : Proc -> World -> result str * World;
  (** [time.time()], in milliseconds *)
  clock : World -> Z;
  (** [time.sleep(0.1)] *)
  sleep : World -> World
}.

Variable sys : os.

Record MCPServer := {
  name : option str;
  config : server_config;
  process : option Proc;
  running : bool;
  tools : json
}.

(** [MCPServer(name, config)] *)
Definition new_server (n : option str) (cfg : server_config) : MCPServer :=
  {| name := n; config := cfg; process := None; running := false;
     tools := JArr [] |}.

(** The loop of [_send_request]: while the deadline has not passed, read a
    line and decode it, or at end of file sleep a tenth of a second.
    Each round sleeps 100 ms, so at most [rounds = 10 * timeout] rounds fit
    before the deadline. *)
Fixpoint poll (p : Proc) (rounds : nat) (start_time timeout_ms : Z) (w : World)
  : result json * World :=
  match rounds with
  | O => (Ok JNull, w)
  | S rounds' =>
    if (clock sys w - start_time <? timeout_ms)%Z then
      match stdout_readable sys p w with
      | (Raise e, w1) => (Raise e, w1)
      | (Ok false, w1) => poll p rounds' start_time timeout_ms (sleep sys w1)
      | (Ok true, w1) =>
        match stdout_readline sys p w1 with
        | (Raise e, w2) => (Raise e, w2)
        | (Ok [], w2) => poll p rounds' start_time timeout_ms (sleep sys w2)
        | (Ok line, w2) => (loads (JStr (strip line)), w2)
        end
      end
    else (Ok JNull, w)
  end.

(** The same loop as the source writes it, one rule for each way through
    its body; [polls p start_time timeout_ms w out] says the loop entered in
    world [w] ends with [out]. *)
Inductive polls (p : Proc) (start_time timeout_ms : Z)
  : World -> result json * World -> Prop :=
| polls_deadline w :
    (clock sys w - start_time <? timeout_ms)%Z = false ->
    polls p start_time timeout_ms w (Ok JNull, w)
| polls_readable_raises w e w1 :
    (clock sys w - start_time <? timeout_ms)%Z = true ->
    stdout_readable sys p w = (Raise e, w1) ->
    polls p start_time timeout_ms w (Raise e, w1)
| polls_not_readable w w1 out :
    (clock sys w - start_time <? timeout_ms)%Z = true ->
    stdout_readable sys p w = (Ok false, w1) ->
    polls p start_time timeout_ms (sleep sys w1) out ->
    polls p start_time timeout_ms w out
| polls_readline_raises w w1 e w2 :
    (clock sys w - start_time <? timeout_ms)%Z = true ->
    stdout_readable sys p w = (Ok true, w1) ->
    stdout_readline sys p w1 = (Raise e, w2) ->
    polls p start_time timeout_ms w (Raise e, w2)
| polls_no_line w w1 w2 out :
    (clock sys w - start_time <? timeout_ms)%Z = true ->
    stdout_readable sys p w = (Ok true, w1) ->
    stdout_readline sys p w1 = (Ok [], w2) ->
    polls p start_time timeout_ms (sleep sys w2) out ->
    polls p start_time timeout_ms w out
| polls_line w w1 c line w2 :
    (clock sys w - start_time <? timeout_ms)%Z = true ->
    stdout_readable sys p w = (Ok true, w1) ->
    stdout_readline sys p w1 = (Ok (c :: line), w2) ->
    polls p start_time timeout_ms w (loads (JStr (strip (c :: line))), w2).

(** What the bound on the rounds of [poll] rests on: reading does not turn
    the clock back, and [time.sleep(0.1)] lets a tenth of a second pass. *)
Record clock_laws : Prop := {
  readable_keeps_time :
    forall p w, (clock sys w <= clock sys (snd (stdout_readable sys p w)))%Z;
  readline_keeps_time :
    forall p w, (clock sys w <= clock sys (snd (stdout_readline sys p w)))%Z;
  sleep_takes_time :
    forall w, (clock sys w + 100 <= clock sys (sleep sys w))%Z
}.

(** A child whose output is at end of file: it has closed its standard
    output, or has exited, and every [readline()] returns the empty string
    at once.  A child that is alive, keeps its output open and writes
    nothing is not of this kind: there [readline()] waits. *)
Definition at_eof (p : Proc) : Prop :=
  forall w, fst (stdout_readline sys p w) = Ok [].

(** [_send_request(request, timeout)]; [None] is [JNull]. *)
Definition _send_request (srv : MCPServer) (request : json) (timeout : Z)
           (w : World) : json * World :=
  match process srv, running srv with
  | Some p, true =>
    let request_str := dumps request ++ NL in
    let '(r, w') :=
      match stdin_write sys p request_str w with
      | (Raise e, w1) => (Raise e, w1)
      | (Ok _, w1) =>
        match stdin_flush sys p w1 with
        | (Raise e, w2) => (Raise e, w2)
        | (Ok _, w2) =>
          poll p (Z.to_nat (10 * timeout)) (clock sys w2) (1000 * timeout)%Z w2
        end
      end in
    match r with
    | Ok response => (response, w')
    | Raise _ => (JNull, w')               (* except Exception: return None *)
    end
  | _, _ => (JNull, w)
  end.

(** [call_tool(tool_name, arguments)]; [None] is [JNull]. *)
Definition call_tool (srv : MCPServer) (tool_name : str) (arguments : json)
           (w : World) : json * World :=
  if negb (running srv) then (JNull, w)
  else
    let request := call_tool_request (clock sys w) tool_name arguments in
    let '(response, w') := _send_request srv request 30 w in
    match result_field response with
    | Ok (Some r) => (r, w')
    | Ok None => (JNull, w')
    | Raise _ => (JNull, w')               (* except Exception: return None *)
    end.

(** The [result] member of a response that is a mapping with that key, and
    [None] for everything else. *)
Definition result_of (response : json) : json :=
  match response with
  | JObj d =>
    match dict_get (u "result") d with
    | Some r => r
    | None => JNull
    end
  | _ => JNull
  end.

(** [_list_tools()] *)
Definition _list_tools (srv : MCPServer) (w : World) : MCPServer * World :=
  let '(response, w') := _send_request srv list_tools_request 10 w in
  match (r <- result_field response ;;
         match r with
         | Some res => (t <- py_get res (u "tools") (JArr []) ;; Ok (Some t))
         | None => Ok None
         end)%py with
  | Ok (Some t) =>
    ({| name := name srv; config := config srv; process := process srv;
        running := running srv; tools := t |}, w')
  | _ => (srv, w')
  end.

(** [_initialize()] *)
Definition _initialize (srv : MCPServer) (w : World) : MCPServer * World :=
  let '(response, w') := _send_request srv initialize_request 10 w in
  match (r <- result_field response ;;
         match r with
         | Some res => (_ <- py_get res (u "capabilities") (JObj []) ;; Ok true)
         | None => Ok false
         end)%py with
  | Ok true => _list_tools srv w'
  | _ => (srv, w')
  end.

(** [start()]: whether the server was started, and the server after it. *)
Definition start (srv : MCPServer) (w : World) : bool * MCPServer * World :=
  if negb (truthy (sv_enabled (config srv))) then (false, srv, w)
  else if negb (truthy (sv_command (config srv))) then (false, srv, w)
  else
    match popen sys (sv_command (config srv)) (sv_args (config srv))
                (sv_env (config srv)) w with
    | (Raise _, w1) => (false, srv, w1)
    | (Ok p, w1) =>
      let srv1 := {| name := name srv; config := config srv;
                     process := Some p; running := true; tools := tools srv |} in
      let '(srv2, w2) := _initialize srv1 w1 in
      (true, srv2, w2)
    end.

Record MCPClient := {
  mc_config : mcp_config;
  servers : list (option str * MCPServer);
  enabled : json
}.

Definition key_eqb (a b : option str) : bool :=
  match a, b with
  | None, None => true
  | Some x, Some y => str_eqb x y
  | _, _ => false
  end.

(** [servers[key] = srv] *)
Fixpoint servers_set (key : option str) (srv : MCPServer)
         (l : list (option str * MCPServer)) : list (option str * MCPServer) :=
  match l with
  | [] => [(key, srv)]
  | (k, s) :: l' =>
    if key_eqb k key then (k, srv) :: l' else (k, s) :: servers_set key srv l'
  end.

(** [servers.get(key)] *)
Fixpoint servers_get (key : option str)
         (l : list (option str * MCPServer)) : option MCPServer :=
  match l with
  | [] => None
  | (k, s) :: l' => if key_eqb k key then Some s else servers_get key l'
  end.

(** [_initialize_servers()], over the entries still to visit. *)
Fixpoint _initialize_servers (entries : list server_config)
         (acc : list (option str * MCPServer)) (w : World)
  : list (option str * MCPServer) * World :=
  match entries with
  | [] => (acc, w)
  | cfg :: entries' =>
    if truthy (sv_enabled cfg) then
      let '(started, srv, w') := start (new_server (sv_name cfg) cfg) w in
      if started
      then _initialize_servers entries' (servers_set (sv_name cfg) srv acc) w'
      else _initialize_servers entries' acc w'
    else _initialize_servers entries' acc w
  end.

(** [MCPClient(config)] *)
Definition new_MCPClient (cfg : mcp_config) (w : World) : MCPClient * World :=
  if truthy (enable_mcp cfg) then
    let '(svs, w') := _initialize_servers (mcp_servers cfg) [] w in
    ({| mc_config := cfg; servers := svs; enabled := enable_mcp cfg |}, w')
  else ({| mc_config := cfg; servers := []; enabled := enable_mcp cfg |}, w).

(** [MCPClient.is_enabled()]: [self.enabled and len(self.servers) > 0] *)
Definition MCPClient_is_enabled (c : MCPClient) : json :=
  if truthy (enabled c)
  then JBool (0 <? length (servers c))%nat
  else enabled c.

(** The text of a search result: the joined [text] items of a list, or a
    string as it is. *)
Definition search_content (found : json) : result (option str) :=
  if truthy found then
    (present <- py_in (u "content") found ;;
     if present then
       content <- py_getitem found (u "content") ;;
       match content with
       | JArr items =>
         texts <- mapM (fun item => py_get item (u "text") (JStr [])) items ;;
         joined <- py_join (NL ++ NL) texts ;;
         Ok (Some joined)
       | JStr s => Ok (Some s)
       | _ => Ok None
       end
     else Ok None)%py
  else Ok None.

(** [MCPClient.search_web(query)] *)
Definition MCPClient_search_web (c : MCPClient) (query : str) (w : World)
  : option str * World :=
  if negb (truthy (MCPClient_is_enabled c)) then (None, w)
  else
    match servers_get (Some (u "web_search")) (servers c) with
    | None => (None, w)
    | Some web_search =>
      let '(found, w') :=
        call_tool web_search (u "brave_web_search")
                  (JObj [(u "query", JStr query); (u "count", JInt 5)]) w in
      match search_content found with
      | Ok text => (text, w')
      | Raise _ => (None, w')              (* except Exception: return None *)
      end
    end.

(** [MCPClient.enhance_prompt(prompt)] *)
Definition MCPClient_enhance_prompt (c : MCPClient) (prompt : str) (w : World)
  : str * World :=
  if negb (truthy (MCPClient_is_enabled c)) then (prompt, w)
  else if contains (u "公司") prompt || contains (u "企业") prompt then
    match Re.search company_name_re prompt with
    | Some company_match =>
      let company_name := strip (Re.group 1 company_match) in
      let '(search_result, w') :=
        MCPClient_search_web c (company_name ++ u " 公司信息 官网") w in
      match search_result with
      | Some (ch :: rest) => (prompt ++ search_block (ch :: rest), w')
      | _ => (prompt, w')
      end
    | None => (prompt, w)
    end
  else (prompt, w).

Record SimpleMCPClient := {
  smc_config : mcp_config;
  smc_enabled : json
}.

(** [SimpleMCPClient(config)] *)
Definition new_SimpleMCPClient (cfg : mcp_config) : SimpleMCPClient :=
  {| smc_config := cfg; smc_enabled := enable_mcp cfg |}.

(** [SimpleMCPClient.is_enabled()] *)
Definition SimpleMCPClient_is_enabled (c : SimpleMCPClient) : json :=
  smc_enabled c.

(** [SimpleMCPClient.enhance_prompt(prompt)] *)
Definition SimpleMCPClient_enhance_prompt (c : SimpleMCPClient) (prompt : str)
  : str :=
  if negb (truthy (SimpleMCPClient_is_enabled c)) then prompt
  else prompt ++ search_hint.

(** What [create_mcp_client] returns: either client, used through the
    methods both have. *)
Inductive mcp_client :=
| Full (c : MCPClient)
| Simple (c : SimpleMCPClient).

Definition is_enabled (c : mcp_client) : json :=
  match c with
  | Full c => MCPClient_is_enabled c
  | Simple c => SimpleMCPClient_is_enabled c
  end.

Definition enhance_prompt (c : mcp_client) (prompt : str) (w : World)
  : str * World :=
  match c with
  | Full c => MCPClient_enhance_prompt c prompt w
  | Simple c => (SimpleMCPClient_enhance_prompt c prompt, w)
  end.

(** [create_mcp_client(config)] *)
Definition create_mcp_client (cfg : mcp_config) (w : World) : mcp_client * World :=
  let '(client, w') := new_MCPClient cfg w in
  if truthy (MCPClient_is_enabled client) then (Full client, w')
  else (Simple (new_SimpleMCPClient cfg), w').

End WithOS.

Arguments poll {World Proc}.
Arguments polls {World Proc}.
Arguments clock_laws {World Proc}.
Arguments at_eof {World Proc}.
Arguments _send_request {World Proc}.
Arguments call_tool {World Proc}.
Arguments _list_tools {World Proc}.
Arguments _initialize {World Proc}.
Arguments start {World Proc}.
Arguments _initialize_servers {World Proc}.
Arguments new_MCPClient {World Proc}.
Arguments MCPClient_search_web {World Proc}.
Arguments MCPClient_enhance_prompt {World Proc}.
Arguments enhance_prompt {World Proc}.
Arguments create_mcp_client {World Proc}.
Arguments popen {World Proc}.
Arguments stdin_write {World Proc}.
Arguments stdin_flush {World Proc}.
Arguments stdout_readable {World Proc}.
Arguments stdout_readline {World Proc}.
Arguments clock {World Proc}.
Arguments sleep {World Proc}.
Arguments polls_deadline {World Proc}.
Arguments polls_readable_raises {World Proc}.
Arguments polls_not_readable {World Proc}.
Arguments polls_readline_raises {World Proc}.
Arguments polls_no_line {World Proc}.
Arguments polls_line {World Proc}.
Arguments new_server {Proc}.
Arguments servers_set {Proc}.
Arguments servers_get {Proc}.
Arguments MCPClient_is_enabled {Proc}.
Arguments is_enabled {Proc}.
Arguments name {Proc}.
Arguments config {Proc}.
Arguments process {Proc}.
Arguments running {Proc}.
Arguments tools {Proc}.
Arguments mc_config {Proc}.
Arguments servers {Proc}.
Arguments enabled {Proc}.
Arguments Full {Proc}.
Arguments Simple {Proc}.

End Mcp.

(* ================================================================= *)
(** ** [openai_compatible_client.py]: the response parser *)

Module OpenAI.

(** The [dict] a response is parsed into; every key is always present.  A
    [float] value is kept as the text [float()] was given. *)
Record company := {
  full_name : str;
  unified_social_credit_code : str;
  legal_representative : str;
  registered_address : str;
  company_type : str;
  industry : str;
  is_top500 : bool;
  is_listed : bool;
  reg_capital : str;
  employee_count : str;
  establishment_date : str;
  revenue : list (Z * str);
  net_profit : list (Z * str);
  ai_source : str
}.

Definition NA : str := u "N/A".

Definition empty_company : company := {|
  full_name := NA;
  unified_social_credit_code := NA;
  legal_representative := NA;
  registered_address := NA;
  company_type := NA;
  industry := NA;
  is_top500 := false;
  is_listed := false;
  reg_capital := NA;
  employee_count := NA;
  establishment_date := NA;
  revenue := [];
  net_profit := [];
  ai_source := u "openai_compatible"
|}.

(** The string keys of the pattern table. *)
Inductive text_key :=
| FullName | CreditCode | LegalRepresentative | RegisteredAddress
| CompanyType | Industry | RegCapital | EmployeeCount | EstablishmentDate.

(** [data[key] = value] *)
Definition set_text (key : text_key) (value : str) (d : company) : company :=
  let upd f1 f2 f3 f4 f5 f6 f9 f10 f11 :=
    {| full_name := f1; unified_social_credit_code := f2;
       legal_representative := f3; registered_address := f4;
       company_type := f5; industry := f6;
       is_top500 := is_top500 d; is_listed := is_listed d;
       reg_capital := f9; employee_count := f10; establishment_date := f11;
       revenue := revenue d; net_profit := net_profit d;
       ai_source := ai_source d |} in
  match key with
  | FullName =>
    upd value (unified_social_credit_code d) (legal_representative d)
        (registered_address d) (company_type d) (industry d) (reg_capital d)
        (employee_count d) (establishment_date d)
  | CreditCode =>
    upd (full_name d) value (legal_representative d) (registered_address d)
        (company_type d) (industry d) (reg_capital d) (employee_count d)
        (establishment_date d)
  | LegalRepresentative =>
    upd (full_name d) (unified_social_credit_code d) value
        (registered_address d) (company_type d) (industry d) (reg_capital d)
        (employee_count d) (establishment_date d)
  | RegisteredAddress =>
    upd (full_name d) (unified_social_credit_code d) (legal_representative d)
        value (company_type d) (industry d) (reg_capital d) (employee_count d)
        (establishment_date d)
  | CompanyType =>
    upd (full_name d) (unified_social_credit_code d) (legal_representative d)
        (registered_address d) value (industry d) (reg_capital d)
        (employee_count d) (establishment_date d)
  | Industry =>
    upd (full_name d) (unified_social_credit_code d) (legal_representative d)
        (registered_address d) (company_type d) value (reg_capital d)
        (employee_count d) (establishment_date d)
  | RegCapital =>
    upd (full_name d) (unified_social_credit_code d) (legal_representative d)
        (registered_address d) (company_type d) (industry d) value
        (employee_count d) (establishment_date d)
  | EmployeeCount =>
    upd (full_name d) (unified_social_credit_code d) (legal_representative d)
        (registered_address d) (company_type d) (industry d) (reg_capital d)
        value (establishment_date d)
  | EstablishmentDate =>
    upd (full_name d) (unified_social_credit_code d) (legal_representative d)
        (registered_address d) (company_type d) (industry d) (reg_capital d)
        (employee_count d) value
  end.

Definition get_text (key : text_key) (d : company) : str :=
  match key with
  | FullName => full_name d
  | CreditCode => unified_social_credit_code d
  | LegalRepresentative => legal_representative d
  | RegisteredAddress => registered_address d
  | CompanyType => company_type d
  | Industry => industry d
  | RegCapital => reg_capital d
  | EmployeeCount => employee_count d
  | EstablishmentDate => establishment_date d
  end.

Definition set_flags (top500 listed : bool) (d : company) : company :=
  {| full_name := full_name d;
     unified_social_credit_code := unified_social_credit_code d;
     legal_representative := legal_representative d;
     registered_address := registered_address d;
     company_type := company_type d; industry := industry d;
     is_top500 := top500; is_listed := listed;
     reg_capital := reg_capital d; employee_count := employee_count d;
     establishment_date := establishment_date d;
     revenue := revenue d; net_profit := net_profit d;
     ai_source := ai_source d |}.

Definition set_years (rev prof : list (Z * str)) (d : company) : company :=
  {| full_name := full_name d;
     unified_social_credit_code := unified_social_credit_code d;
     legal_representative := legal_representative d;
     registered_address := registered_address d;
     company_type := company_type d; industry := industry d;
     is_top500 := is_top500 d; is_listed := is_listed d;
     reg_capital := reg_capital d; employee_count := employee_count d;
     establishment_date := establishment_date d;
     revenue := rev; net_profit := prof;
     ai_source := ai_source d |}.

(** [years[year] = value] *)
Fixpoint year_set (year : Z) (value : str) (years : list (Z * str))
  : list (Z * str) :=
  match years with
  | [] => [(year, value)]
  | (y, v) :: years' =>
    if (y =? year)%Z then (y, value) :: years'
    else (y, v) :: year_set year value years'
  end.

(** The building blocks of the patterns. *)
Definition colon : Re.regex := Re.Cls (Re.one_of (u ":："))  (* [:：] *).
Definition spaces : Re.regex := Re.Star true (Re.Cls is_space)  (* \s* *).
Definition not_newline : char -> bool := Re.none_of NL          (* [^\n] *).
Definition end_of_line : Re.regex := Re.Alt (Re.Chr 10) Re.Eos  (* (?:\n|$) *).
Definition upper_or_digit (c : char) : bool :=                  (* [A-Z0-9] *)
  ((65 <=? c) && (c <=? 90)) || ascii_digit c.
Definition yi_yuan : Re.regex :=                     (* [（(]亿元[)）] *)
  Re.seqs [Re.Cls (Re.one_of (u "（(")); Re.lit (u "亿元");
           Re.Cls (Re.one_of (u ")）"))].

(** [LABEL[:：]\s*([^\n]+?)(?:\n|$)] *)
Definition line_field (label : str) : Re.regex :=
  Re.seqs [Re.lit label; colon; spaces;
           Re.Grp 1 (Re.plus false (Re.Cls not_newline)); end_of_line].

(** The table [patterns], in the order of the source. *)
Definition patterns : list (text_key * Re.regex) :=
  [ (FullName, line_field (u "公司全名"));
    (CreditCode,
     Re.seqs [Re.lit (u "统一社会信用代码"); colon; spaces;
              Re.Grp 1 (Re.Alt (Re.between 15 18 (Re.Cls upper_or_digit))
                               (Re.plus false (Re.Cls not_newline)));
              end_of_line]);
    (LegalRepresentative, line_field (u "法定代表人"));
    (RegisteredAddress, line_field (u "注册地址"));
    (CompanyType, line_field (u "公司类型"));
    (Industry, line_field (u "所属行业"));
    (RegCapital,
     Re.seqs [Re.lit (u "注册资金"); yi_yuan; colon; spaces;
              Re.Grp 1 (Re.plus true (Re.Cls (fun c => ascii_digit c || (c =? 46))))]);
    (EmployeeCount,
     Re.seqs [Re.lit (u "员工人数"); colon; spaces;
              Re.Grp 1 (Re.plus true (Re.Cls (fun c => ascii_digit c || (c =? 44))))]);
    (EstablishmentDate,
     Re.seqs [Re.lit (u "成立时间"); colon; spaces;
              Re.Grp 1 (Re.seqs
                [Re.times 4 (Re.Cls ascii_digit);
                 Re.Cls (Re.one_of (u "-年/"));
                 Re.between 1 2 (Re.Cls ascii_digit);
                 Re.Cls (Re.one_of (u "-月/"));
                 Re.between 1 2 (Re.Cls ascii_digit)])]) ].

(** [value not in ["N/A", "无", "未知", "暂无"]] *)
Definition is_placeholder (value : str) : bool :=
  existsb (str_eqb value) [u "N/A"; u "无"; u "未知"; u "暂无"].

(** The loop over [patterns]. *)
Definition extract_texts (text : str) (d : company) : company :=
  fold_left
    (fun d kp =>
       match Re.search (snd kp) text with
       | Some m =>
         let value := strip (Re.group 1 m) in
         match value with
         | [] => d
         | _ => if is_placeholder value then d else set_text (fst kp) value d
         end
       | None => d
       end)
    patterns d.

(** [LABEL[:：]\s*(是|否)] *)
Definition yes_no (label : str) : Re.regex :=
  Re.seqs [Re.lit label; colon; spaces;
           Re.Grp 1 (Re.Alt (Re.lit (u "是")) (Re.lit (u "否")))].

Definition top500_re : Re.regex := yes_no (u "是否为中国企业500强").
Definition listed_re : Re.regex := yes_no (u "是否上市").

(** [(?:中国500强|企业500强|500强企业)[:：]\s*是] *)
Definition top500_alt_re : Re.regex :=
  Re.seqs [Re.Alt (Re.lit (u "中国500强"))
                  (Re.Alt (Re.lit (u "企业500强")) (Re.lit (u "500强企业")));
           colon; spaces; Re.lit (u "是")].

(** [(?:已上市|股票代码|证券代码)[:：]\s*[A-Z0-9]+] *)
Definition listed_alt_re : Re.regex :=
  Re.seqs [Re.Alt (Re.lit (u "已上市"))
                  (Re.Alt (Re.lit (u "股票代码")) (Re.lit (u "证券代码")));
           colon; spaces; Re.plus true (Re.Cls upper_or_digit)].

(** [([0-9]{4})年METRIC[（(]亿元[)）][:：]\s*(-?[0-9.]+)] *)
Definition yearly_re (metric : str) : Re.regex :=
  Re.seqs [Re.Grp 1 (Re.times 4 (Re.Cls ascii_digit)); Re.lit (u "年");
           Re.lit metric; yi_yuan; colon; spaces;
           Re.Grp 2 (Re.Seq (Re.opt (Re.Chr 45))
                            (Re.plus true (Re.Cls (fun c => ascii_digit c || (c =? 46)))))].

Definition revenue_re : Re.regex := yearly_re (u "营业额").
Definition profit_re : Re.regex := yearly_re (u "净利润").

(** Whether [float(text)] succeeds for a text of [-?[0-9.]+]: it needs a
    digit and at most one point. *)
Definition float_ok (text : str) : bool :=
  existsb ascii_digit text
  && (length (filter (N.eqb 46) text) <=? 1)%nat.

(** The loops over the yearly figures; [checked] is whether the value is
    first stripped and compared with the placeholders. *)
Definition extract_years (r : Re.regex) (checked : bool) (text : str)
  : list (Z * str) :=
  fold_left
    (fun years m =>
       let year := int_of_chars false (Re.group 1 m) in
       let value := if checked then strip (Re.group 2 m) else Re.group 2 m in
       if checked && (match value with [] => true | _ => is_placeholder value end)
       then years
       else if float_ok value then year_set year value years else years)
    (Re.finditer r text) [].

(** [_parse_single_company_section(section_text)] *)
Definition _parse_single_company_section (section_text : str) : company :=
  let data := extract_texts section_text empty_company in
  let top500 :=
    match Re.search top500_re section_text with
    | Some m => str_eqb (Re.group 1 m) (u "是")
    | None => is_top500 data
    end in
  let listed :=
    match Re.search listed_re section_text with
    | Some m => str_eqb (Re.group 1 m) (u "是")
    | None => is_listed data
    end in
  let data := set_flags top500 listed data in
  set_years (extract_years revenue_re false section_text)
            (extract_years profit_re false section_text) data.

(** The [dict] of a response that names several companies. *)
Record multiple := {
  multiple_companies : bool;
  companies : list company;
  count : nat
}.

Inductive parsed :=
| Several (m : multiple)
| One (data : company).

Section WithRuntime.

Variable rt : runtime.

Definition digit : Re.regex := Re.Cls (isdecimal rt)  (* \d *).

(** [【发现\s*\d+\s*家匹配公司】] *)
Definition found_marker_re : Re.regex :=
  Re.seqs [Re.lit (u "【发现"); spaces; Re.plus true digit; spaces;
           Re.lit (u "家匹配公司】")].

(** [公司1[:：]] and [公司2[:：]] *)
Definition company1_re : Re.regex := Re.Seq (Re.lit (u "公司1")) colon.
Definition company2_re : Re.regex := Re.Seq (Re.lit (u "公司2")) colon.

(** [公司\d+[:：]] *)
Definition header_re : Re.regex :=
  Re.seqs [Re.lit (u "公司"); Re.plus true digit; colon].

Definition found (m : option Re.match_obj) : bool :=
  match m with
  | Some _ => true
  | None => false
  end.

(** The test at the head of [_parse_ai_response]. *)
Definition is_multiple_response (response_text : str) : bool :=
  found (Re.search found_marker_re response_text)
  || (found (Re.search company1_re response_text)
      && found (Re.search company2_re response_text)).

(** [_parse_multiple_companies(response_text)] *)
Definition _parse_multiple_companies (response_text : str) : multiple :=
  let sections := Re.split header_re response_text in
  let companies :=
    fold_left
      (fun companies section_text =>
         match strip section_text with
         | [] => companies
         | _ =>
           let company_data := _parse_single_company_section section_text in
           if negb (str_eqb (full_name company_data) NA)
           then companies ++ [company_data]
           else companies
         end)
      (tl sections) [] in
  {| multiple_companies := true;
     companies := companies;
     count := length companies |}.

(** The sections [_parse_multiple_companies] looks at, and what it keeps
    of them: a section that is not blank is parsed, and the company is
    kept when it has a name. *)
Definition nonblank (section_text : str) : bool :=
  match strip section_text with
  | [] => false
  | _ :: _ => true
  end.

Definition usable (company_data : company) : bool :=
  negb (str_eqb (full_name company_data) NA).

Definition retained (response_text : str) : list company :=
  filter usable
         (map _parse_single_company_section
              (filter nonblank (tl (Re.split header_re response_text)))).

(** [公司[的详细信息：]{5,}([^\n]+)] *)
Definition query_name_re : Re.regex :=
  Re.seqs [Re.lit (u "公司");
           Re.atleast 5 (Re.Cls (Re.one_of (u "的详细信息：")));
           Re.Grp 1 (Re.plus true (Re.Cls not_newline))].

(** [[：:]\s*([^\n，,。.]+)] *)
Definition query_loose_re : Re.regex :=
  Re.seqs [colon; spaces;
           Re.Grp 1 (Re.plus true (Re.Cls (Re.none_of (NL ++ u "，,。."))))].

(** The single-company branch of [_parse_ai_response]. *)
Definition parse_one_company (response_text original_query : str) : company :=
  let data := extract_texts response_text empty_company in
  let top500 :=
    match Re.search top500_re response_text with
    | Some m => str_eqb (Re.group 1 m) (u "是")
    | None =>
      if found (Re.search top500_alt_re response_text) then true
      else is_top500 data
    end in
  let listed :=
    match Re.search listed_re response_text with
    | Some m => str_eqb (Re.group 1 m) (u "是")
    | None =>
      if found (Re.search listed_alt_re response_text) then true
      else is_listed data
    end in
  let data := set_flags top500 listed data in
  let data :=
    if str_eqb (full_name data) NA then
      match Re.search query_name_re original_query with
      | Some m => set_text FullName (strip (Re.group 1 m)) data
      | None =>
        match Re.search query_loose_re original_query with
        | Some m => set_text FullName (strip (Re.group 1 m)) data
        | None => data
        end
      end
    else data in
  let data :=
    fold_left
      (fun d key =>
         match get_text key d with
         | [] => set_text key NA d
         | _ => d
         end)
      [FullName; CreditCode; LegalRepresentative; RegisteredAddress;
       CompanyType; RegCapital; EmployeeCount; EstablishmentDate]
      data in
  set_years (extract_years revenue_re true response_text)
            (extract_years profit_re true response_text) data.

(** [_parse_ai_response(response_text, original_query)] *)
Definition _parse_ai_response (response_text original_query : str) : parsed :=
  if is_multiple_response response_text
  then Several (_parse_multiple_companies response_text)
  else One (parse_one_company response_text original_query).

End WithRuntime.

End OpenAI.

(* ================================================================= *)
(** ** Views of the batch loop used to state its properties *)

Module Views.

(** The chunks [query_batch] cuts a list into: the slices at the indices of
    its [range]. *)
Definition chunks_of {A} (step : nat) (l : list A) : list (list A) :=
  map (fun i => slice l i (i + step)) (range_step (length l) step).

(** Well-formed records, for the round trip through [json.dumps] and
    [parse_json_response]: the characters of every string are Unicode scalar
    values, the keys of every mapping are distinct, and every float is
    finite. *)
Definition scalar_value (c : char) : bool :=
  (c <? 1114112) && negb ((55296 <=? c) && (c <=? 57343)).

(** The text [repr] writes for a finite float: a JSON number with a
    fraction or an exponent and nothing after it. *)
Definition finite_float (literal : str) : bool :=
  match scan_number literal with
  | Some (JFloat text, []) => str_eqb text literal
  | _ => false
  end.

Definition well_formed_str (s : str) : bool := forallb scalar_value s.

Fixpoint distinct_keys (keys : list str) : bool :=
  match keys with
  | [] => true
  | k :: keys' => negb (existsb (str_eqb k) keys') && distinct_keys keys'
  end.

Fixpoint well_formed (v : json) : bool :=
  match v with
  | JNull | JBool _ | JInt _ => true
  | JFloat literal => finite_float literal
  | JStr s => well_formed_str s
  | JArr items => forallb well_formed items
  | JObj fields =>
    distinct_keys (map fst fields)
    && (fix each (l : list (str * json)) : bool :=
          match l with
          | [] => true
          | (k, x) :: l' => well_formed_str k && well_formed x && each l'
          end) fields
  end.

Definition well_formed_record (x : dict) : bool := well_formed (JObj x).

(** The text [encode] writes between the brackets of a non-empty array
    and between the braces of a non-empty object. *)
Fixpoint encode_items (ensure_ascii : bool) (indent : option nat) (level : nat)
         (l : list json) : str :=
  match l with
  | [] => []
  | [x] => encode ensure_ascii indent level x
  | x :: l' =>
    encode ensure_ascii indent level x
    ++ item_separator indent ++ newline_indent indent level
    ++ encode_items ensure_ascii indent level l'
  end.

Fixpoint encode_members (ensure_ascii : bool) (indent : option nat) (level : nat)
         (l : list (str * json)) : str :=
  match l with
  | [] => []
  | [(k, x)] =>
    encode_str ensure_ascii k ++ key_separator
    ++ encode ensure_ascii indent level x
  | (k, x) :: l' =>
    encode_str ensure_ascii k ++ key_separator
    ++ encode ensure_ascii indent level x
    ++ item_separator indent ++ newline_indent indent level
    ++ encode_members ensure_ascii indent level l'
  end.

(** A scanner depth that suffices for a value: one unit for the value and
    one more for each item of a container, besides what the items need. *)
Fixpoint depth_of (v : json) : nat :=
  match v with
  | JArr items =>
    S ((fix each (l : list json) : nat :=
          match l with
          | [] => O
          | x :: l' => S (depth_of x + each l')
          end) items)
  | JObj fields =>
    S ((fix each (l : list (str * json)) : nat :=
          match l with
          | [] => O
          | (_, x) :: l' => S (depth_of x + each l')
          end) fields)
  | _ => 1
  end.

Definition depth_of_items (l : list json) : nat :=
  fold_right (fun x n => S (depth_of x + n)) O l.

Definition depth_of_members (l : list (str * json)) : nat :=
  fold_right (fun kx n => S (depth_of (snd kx) + n)) O l.

Section WithRuntime.

Variable rt : runtime.
Variable World : Type.

(** The blocks of results the loop produces for a list of chunks, one per
    round, and the world it ends in. *)
Fixpoint blocks_of (sc : schema) (chat : chat_fn World) (context : str)
         (chunks : list (list dict)) (w : World) : list (list json) * World :=
  match chunks with
  | [] => ([], w)
  | batch :: chunks' =>
    let '(items, w1) := chunk_step rt World sc chat w batch context in
    let '(rest, w2) := blocks_of sc chat context chunks' w1 in
    (items :: rest, w2)
  end.

End WithRuntime.

End Views.
Import Views.

(* ================================================================= *)
(** ** Small concrete instances, used to run the model *)

Module Demo.

Definition company_schema : schema := {|
  output_columns :=
    [[(u "name", JStr (u "revenue")); (u "type", JStr (u "number"));
      (u "description", JStr (u "annual revenue"))]];
  prompt_template := u "Look up {company}: {output_fields_description}";
  batch_prompt_template := u "Look up {companies_list}: {output_fields_description}"
|}.

Definition record_of (company_name : string) : dict :=
  [(u "company", JStr (u company_name))].

Definition five_records : list dict :=
  [record_of "A"; record_of "B"; record_of "C"; record_of "D"; record_of "E"].

(** A transport whose world counts the calls: the second call raises, the
    others reply with a one-element array. *)
Definition flaky_chat : chat_fn nat :=
  fun calls prompt =>
    (if Nat.eqb calls 1
     then Raise (Failure (u "boom"))
     else Ok (JStr (jq "[{'revenue': 1}]")),
     S calls).

Definition flaky_agent : agent nat := {|
  active_schema := company_schema;
  ai_client := Some flaky_chat
|}.

(** A schema whose templates name a placeholder nothing resolves. *)
Definition unresolved_schema : schema := {|
  output_columns := [];
  prompt_template := u "Describe {missing}";
  batch_prompt_template := u "Describe {missing}"
|}.

(** A record with nested values, text outside ASCII and characters that
    need escapes. *)
Definition sample_record : dict :=
  [(u "公司全名", JStr (jq "甲骨文 'A\B' 😀"));
   (u "revenue", JFloat (u "12.5"));
   (u "years", JArr [JInt 2021; JInt (-3); JNull]);
   (u "meta", JObj [(u "listed", JBool true); (u "tags", JArr [])])].

(** Children that have closed their output: every read is at end of file.
    The world is the clock, in milliseconds. *)
Definition eof_os : Mcp.os Z unit := {|
  Mcp.popen := fun _ _ _ w => (Ok tt, w);
  Mcp.stdin_write := fun _ _ w => (Ok tt, w);
  Mcp.stdin_flush := fun _ w => (Ok tt, w);
  Mcp.stdout_readable := fun _ w => (Ok true, w);
  Mcp.stdout_readline := fun _ w => (Ok [], w);
  Mcp.clock := fun w => w;
  Mcp.sleep := fun w => (w + 100)%Z
|}.

(** A server that writes the lines of a script, one for each read, and
    then closes its output; the world is the clock and the lines still to
    come. *)
Definition scripted_os : Mcp.os (Z * list str) unit := {|
  Mcp.popen := fun _ _ _ w => (Ok tt, w);
  Mcp.stdin_write := fun _ _ w => (Ok tt, w);
  Mcp.stdin_flush := fun _ w => (Ok tt, w);
  Mcp.stdout_readable := fun _ w => (Ok true, w);
  Mcp.stdout_readline := fun _ w =>
    match snd w with
    | [] => (Ok [], w)
    | line :: script => (Ok line, (fst w, script))
    end;
  Mcp.clock := fun w => fst w;
  Mcp.sleep := fun w => ((fst w + 100)%Z, snd w)
|}.

(** The child of [scripted_os] once its script is written, when it stays
    alive with its output open: a read then waits. *)
Definition stalled : unit -> Z * list str -> bool :=
  fun _ w => match snd w with
             | [] => true
             | _ :: _ => false
             end.

Definition web_search_entry : Mcp.server_config := {|
  Mcp.sv_name := Some (u "web_search");
  Mcp.sv_enabled := JBool true;
  Mcp.sv_command := JStr (u "npx");
  Mcp.sv_args := JArr [JStr (u "-y"); JStr (u "server-brave-search")];
  Mcp.sv_env := JObj []
|}.

(** The flag set and no server configured. *)
Definition flag_only : Mcp.mcp_config := {|
  Mcp.enable_mcp := JBool true;
  Mcp.mcp_servers := []
|}.

(** The flag set and the web search server configured. *)
Definition with_web_search : Mcp.mcp_config := {|
  Mcp.enable_mcp := JBool true;
  Mcp.mcp_servers := [web_search_entry]
|}.

(** The answers of a web search server to [initialize], [tools/list] and
    one [tools/call]. *)
Definition search_script : list str :=
  [jq "{'jsonrpc': '2.0', 'id': 1, 'result': {'capabilities': {}}}" ++ NL;
   jq "{'jsonrpc': '2.0', 'id': 2, 'result': {'tools': []}}" ++ NL;
   jq "{'jsonrpc': '2.0', 'id': 3, 'result': {'content': [{'type': 'text', 'text': 'acme.example'}]}}" ++ NL].

Definition company_prompt : str := u "公司名称：甲公司" ++ NL ++ u "请查询".

(** A server that is running on the one process of the systems above. *)
Definition running_server : Mcp.MCPServer unit := {|
  Mcp.name := Some (u "web_search");
  Mcp.config := web_search_entry;
  Mcp.process := Some tt;
  Mcp.running := true;
  Mcp.tools := JArr []
|}.

(** The client [create_mcp_client] hands out when the web search server
    starts, and the world it leaves: the handshake has used two lines of
    the script. *)
Definition ready : Mcp.mcp_client unit * (Z * list str) :=
  Mcp.create_mcp_client scripted_os with_web_search (0%Z, search_script).

Definition ready_client : Mcp.MCPClient unit :=
  fst (Mcp.new_MCPClient scripted_os with_web_search (0%Z, search_script)).

(** A response with two company headers, numbered 2 and 3, and no marker. *)
Definition two_headers : str :=
  u "公司2：" ++ NL ++ u "公司全名：甲公司" ++ NL
  ++ u "公司3：" ++ NL ++ u "公司全名：乙公司" ++ NL.

(** A response with the marker and three sections, the last without a
    name. *)
Definition three_sections : str :=
  u "【发现 3 家匹配公司】" ++ NL
  ++ u "公司1：" ++ NL ++ u "公司全名：甲公司" ++ NL
  ++ u "公司2：" ++ NL ++ u "公司全名：乙公司" ++ NL
  ++ u "公司3：" ++ NL ++ u "法定代表人：张三" ++ NL.

(** An entry that is not enabled. *)
Definition disabled_entry : Mcp.server_config := {|
  Mcp.sv_name := Some (u "database");
  Mcp.sv_enabled := JBool false;
  Mcp.sv_command := JStr (u "npx");
  Mcp.sv_args := JArr [];
  Mcp.sv_env := JObj []
|}.

End Demo.

(* ================================================================= *)
(** ** Predicates and principles used to state the round trip *)

Module Shapes.

(** The result of reading the rest of a string literal, with one more
    character in front. *)
Definition consed (c : char) (r : option (str * str)) : option (str * str) :=
  match r with
  | Some (t, rest) => Some (c :: t, rest)
  | None => None
  end.

(** What may follow a term inside the text [dumps] writes: a comma, a
    closing bracket or brace, or the end. *)
Definition follows (rest : str) : Prop :=
  match rest with
  | [] => True
  | c :: _ => c = 44 \/ c = 93 \/ c = 125
  end.

(** The digits [Z.to_int] writes have no leading zero, except the lone
    zero. *)
Definition normal (d : Decimal.uint) : Prop := Decimal.unorm d = d.

(** The text of a term starts with a character that is no white space and
    closes neither an array nor an object. *)
Definition headed (s : str) : Prop :=
  match s with
  | [] => False
  | c :: _ => is_ws c = false /\ c <> 93 /\ c <> 125
  end.

(** A well-formed value is read back from its text, whatever follows. *)
Definition reads_back (v : json) : Prop :=
  well_formed v = true ->
  forall (level depth : nat) (rest : str),
    (depth_of v <= depth)%nat -> follows rest ->
    scan_once depth (encode true None level v ++ rest) = Ok (v, rest).

(** The depth [decode] hands to the scanner covers the text of [dumps]. *)
Definition fits (v : json) : Prop :=
  well_formed v = true ->
  forall level : nat,
    (depth_of v <= length (encode true None level v))%nat.

(** Induction over values, with the items of containers covered. *)
Section JsonInd.

Variable P : json -> Prop.
Hypothesis Hnull : P JNull.
Hypothesis Hbool : forall b, P (JBool b).
Hypothesis Hint : forall z, P (JInt z).
Hypothesis Hfloat : forall literal, P (JFloat literal).
Hypothesis Hstr : forall s, P (JStr s).
Hypothesis Harr : forall items, Forall P items -> P (JArr items).
Hypothesis Hobj :
  forall fields, Forall (fun kx => P (snd kx)) fields -> P (JObj fields).

Fixpoint json_induction (v : json) : P v :=
  match v with
  | JNull => Hnull
  | JBool b => Hbool b
  | JInt z => Hint z
  | JFloat literal => Hfloat literal
  | JStr s => Hstr s
  | JArr items =>
    Harr items
      ((fix each (l : list json) : Forall P l :=
          match l with
          | [] => Forall_nil P
          | x :: l' => Forall_cons x (json_induction x) (each l')
          end) items)
  | JObj fields =>
    Hobj fields
      ((fix each (l : list (str * json)) : Forall (fun kx => P (snd kx)) l :=
          match l with
          | [] => Forall_nil _
          | kx :: l' => Forall_cons kx (json_induction (snd kx)) (each l')
          end) fields)
  end.

End JsonInd.

End Shapes.
Import Shapes.

(* ================================================================= *)
(** ** Shapes of patterns *)

Module Patterns.

(** Patterns without capturing groups: a match of one leaves the groups as
    they were. *)
Fixpoint group_free (r : Re.regex) : bool :=
  match r with
  | Re.Seq a b | Re.Alt a b => group_free a && group_free b
  | Re.Star _ a => group_free a
  | Re.Grp _ _ => false
  | _ => true
  end.

(** [s'] is what is left of [s] after some characters. *)
Definition rest_of (s s' : str) : Prop := exists front : str, s = front ++ s'.

End Patterns.
Import Patterns.

(* ================================================================= *)
(** ** The parts of a reply the parsers decode

    What the patterns of [parse_json_response] and
    [parse_json_array_response] pick out of a text, written as scans over
    its characters. *)

Module Fragments.

(** The rounds of a repetition, as [Re.run] makes them: [n] bounds the
    rounds still allowed. *)
Definition star_rounds {A} (greedy : bool) (a : Re.regex)
           (k : str -> Re.caps -> option A) : nat -> str -> Re.caps -> option A :=
  fix rounds (n : nat) (s : str) (cs : Re.caps) {struct n} : option A :=
    match n with
    | O => k s cs
    | S n' =>
      if greedy
      then Re.orelse (Re.run a s cs (fun s' cs' =>
                        if (length s' <? length s)%nat
                        then rounds n' s' cs' else None))
                     (k s cs)
      else Re.orelse (k s cs)
                     (Re.run a s cs (fun s' cs' =>
                        if (length s' <? length s)%nat
                        then rounds n' s' cs' else None))
    end.

(** [s] without its longest front of characters of the class [p]. *)
Fixpoint skip (p : char -> bool) (s : str) : str :=
  match s with
  | c :: s' => if p c then skip p s' else s
  | [] => []
  end.

(** The first place of [text], from the left, where [found] has a result. *)
Fixpoint first_from {A} (found : str -> option A) (text : str) : option A :=
  match found text with
  | Some x => Some x
  | None =>
    match text with
    | [] => None
    | _ :: text' => first_from found text'
    end
  end.

(** What [s] has in front of its rest [rest]. *)
Definition front_of (s rest : str) : str :=
  firstn (length s - length rest)%nat s.

(** [scan_flat inner s]: [s] follows an opening brace.  The scan runs to
    the brace that closes it and gives what follows that brace.  Inside,
    braces may open and close one at a time: [inner] says one is open, and
    a second one opening inside it ends the scan without a result. *)
Fixpoint scan_flat (inner : bool) (s : str) : option str :=
  match s with
  | [] => None
  | c :: s' =>
    if c =? 123 then (if inner then None else scan_flat true s')
    else if c =? 125 then (if inner then scan_flat false s' else Some s')
    else scan_flat inner s'
  end.

(** The text at the front of [s] from an opening brace to the brace that
    closes it, when the braces in between nest at most one level deep. *)
Definition flat_object_at (s : str) : option str :=
  match s with
  | c :: s' =>
    if c =? 123
    then option_map (front_of s) (scan_flat false s')
    else None
  | [] => None
  end.

(** The leftmost such text. *)
Definition first_flat_object : str -> option str := first_from flat_object_at.

(** [balanced limit open s]: [s] follows an opening brace inside which
    [open] more braces are open.  The scan runs to the brace that closes
    the first one and gives what follows it; at most [limit] braces may be
    open inside the first one at a time. *)
Fixpoint balanced (limit open : nat) (s : str) : option str :=
  match s with
  | [] => None
  | c :: s' =>
    if c =? 123 then
      (if (open <? limit)%nat then balanced limit (S open) s' else None)
    else if c =? 125 then
      match open with
      | O => Some s'
      | S open' => balanced limit open' s'
      end
    else balanced limit open s'
  end.

(** The outermost object of a text: from its first opening brace to the
    brace that balances it, when the braces inside nest at most [limit]
    levels deep. *)
Definition outermost_object (limit : nat) (text : str) : option str :=
  match skip (fun c => negb (c =? 123)) text with
  | c :: s' => option_map (front_of (c :: s')) (balanced limit 0 s')
  | [] => None
  end.

Definition fence : str := u "```".

(** [scan_block close s]: what follows the first [close] of [s] that only
    whitespace separates from a fence. *)
Fixpoint scan_block (close : char) (s : str) : option str :=
  match s with
  | [] => None
  | c :: s' =>
    if (c =? close) && startswith fence (lstrip s') then Some s'
    else scan_block close s'
  end.

(** A fenced block at the front of [s]: the fence, an optional [json],
    whitespace, and then the shortest text from [open] to a [close] that
    only whitespace separates from the closing fence.  The result is that
    text. *)
Definition fenced_at (open close : char) (s : str) : option str :=
  match after fence s with
  | None => None
  | Some s1 =>
    let s2 := match after (u "json") s1 with
              | Some t => t
              | None => s1
              end in
    match lstrip s2 with
    | c :: s3 =>
      if c =? open
      then option_map (front_of (c :: s3)) (scan_block close s3)
      else None
    | [] => None
    end
  end.

(** The text inside the leftmost such block. *)
Definition first_fenced (open close : char) : str -> option str :=
  first_from (fenced_at open close).

(** What follows the last [close] of [s]. *)
Fixpoint after_last (close : char) (s : str) : option str :=
  match s with
  | [] => None
  | c :: s' =>
    match after_last close s' with
    | Some rest => Some rest
    | None => if c =? close then Some s' else None
    end
  end.

(** The text from a bracket at the front of [s] to the last closing
    bracket after it. *)
Definition bracket_span_at (s : str) : option str :=
  match s with
  | c :: s' =>
    if c =? 91 then option_map (front_of s) (after_last 93 s') else None
  | [] => None
  end.

(** The text from the first bracket that has a closing bracket after it to
    the last closing bracket. *)
Definition first_bracket_span : str -> option str := first_from bracket_span_at.

(** The value of a part of the text, when there is one and it decodes. *)
Definition decoded (part : option str) : option json :=
  match part with
  | Some s =>
    match decode s with
    | Ok v => Some v
    | Raise _ => None
    end
  | None => None
  end.

(** The cascade as the specification words it: the whole text, else the
    outermost object of the text when its braces nest at most [limit]
    levels, else the object of a fenced block, each decoded; else the
    error sentinel. *)
Definition outermost_cascade (limit : nat) (text : str) : json :=
  match decode text with
  | Ok v => v
  | Raise _ =>
    match decoded (outermost_object limit text) with
    | Some v => v
    | None =>
      match decoded (first_fenced 123 125 text) with
      | Some v => v
      | None => unparsable (JStr text)
      end
    end
  end.

End Fragments.
Import Fragments.

(* ================================================================= *)
(** ** More of [mcp_client.py] *)

Module McpMore.

Section WithOS.

Context {World Proc : Type} (sys : Mcp.os World Proc).

(** A child that takes requests and has closed its standard output:
    writing and flushing succeed and do not turn the clock back,
    [readable()] answers, and every read is at end of file. *)
Record closed_output (p : Proc) : Prop := {
  write_succeeds :
    forall text w,
      fst (Mcp.stdin_write sys p text w) = Ok tt
      /\ (Mcp.clock sys w <= Mcp.clock sys (snd (Mcp.stdin_write sys p text w)))%Z;
  flush_succeeds :
    forall w,
      fst (Mcp.stdin_flush sys p w) = Ok tt
      /\ (Mcp.clock sys w <= Mcp.clock sys (snd (Mcp.stdin_flush sys p w)))%Z;
  readable_answers :
    forall w, exists b, fst (Mcp.stdout_readable sys p w) = Ok b;
  reads_eof : Mcp.at_eof sys p
}.

(** An entry [start()] gives up on before it spawns anything. *)
Definition not_startable (cfg : Mcp.server_config) : bool :=
  negb (truthy (Mcp.sv_enabled cfg)) || negb (truthy (Mcp.sv_command cfg)).

End WithOS.

End McpMore.

(* ================================================================= *)
(** ** [MCPServer] on a pipe whose reads may wait *)

Module Pipes.

Section WithOS.

Context {World Proc : Type} (sys : Mcp.os World Proc).

(** [waits p w]: in world [w] the child [p] has its standard output open,
    the pipe holds no complete line, and the child writes none later:
    [process.stdout.readline()] called in [w] does not return. *)
Variable waits : Proc -> World -> bool.

(** The loop of [_send_request] when a read may wait.  [None] says the loop
    has not ended: a read waits, or the rounds counted by [fuel] are used
    up. *)
Fixpoint poll (fuel : nat) (p : Proc) (start_time timeout_ms : Z) (w : World)
  : option (result json * World) :=
  match fuel with
  | O => None
  | S fuel' =>
    if (Mcp.clock sys w - start_time <? timeout_ms)%Z then
      match Mcp.stdout_readable sys p w with
      | (Raise e, w1) => Some (Raise e, w1)
      | (Ok false, w1) => poll fuel' p start_time timeout_ms (Mcp.sleep sys w1)
      | (Ok true, w1) =>
        if waits p w1 then None
        else
          match Mcp.stdout_readline sys p w1 with
          | (Raise e, w2) => Some (Raise e, w2)
          | (Ok [], w2) => poll fuel' p start_time timeout_ms (Mcp.sleep sys w2)
          | (Ok line, w2) => Some (loads (JStr (strip line)), w2)
          end
      end
    else Some (Ok JNull, w)
  end.

(** [_send_request(request, timeout)]; the result is [None] when the call
    does not return, and Python's [None] is [JNull]. *)
Definition _send_request (fuel : nat) (srv : Mcp.MCPServer Proc)
           (request : json) (timeout : Z) (w : World) : option (json * World) :=
  match Mcp.process srv, Mcp.running srv with
  | Some p, true =>
    let request_str := dumps request ++ NL in
    match Mcp.stdin_write sys p request_str w with
    | (Raise _, w1) => Some (JNull, w1)
    | (Ok _, w1) =>
      match Mcp.stdin_flush sys p w1 with
      | (Raise _, w2) => Some (JNull, w2)
      | (Ok _, w2) =>
        match poll fuel p (Mcp.clock sys w2) (1000 * timeout)%Z w2 with
        | Some (Ok response, w') => Some (response, w')
        | Some (Raise _, w') => Some (JNull, w')
        | None => None
        end
      end
    end
  | _, _ => Some (JNull, w)
  end.

(** [call_tool(tool_name, arguments)], likewise. *)
Definition call_tool (fuel : nat) (srv : Mcp.MCPServer Proc) (tool_name : str)
           (arguments : json) (w : World) : option (json * World) :=
  if negb (Mcp.running srv) then Some (JNull, w)
  else
    let request := Mcp.call_tool_request (Mcp.clock sys w) tool_name arguments in
    match _send_request fuel srv request 30 w with
    | Some (response, w') =>
      match Mcp.result_field response with
      | Ok (Some r) => Some (r, w')
      | Ok None => Some (JNull, w')
      | Raise _ => Some (JNull, w')
      end
    | None => None
    end.

(** The first read of a request written in world [w] waits: the child
    takes the text, its output is readable, and no line comes. *)
Definition first_read_waits (p : Proc) (text : str) (w : World) : bool :=
  match Mcp.stdin_write sys p text w with
  | (Ok _, w1) =>
    match Mcp.stdin_flush sys p w1 with
    | (Ok _, w2) =>
      match Mcp.stdout_readable sys p w2 with
      | (Ok true, w3) => waits p w3
      | _ => false
      end
    | _ => false
    end
  | _ => false
  end.

End WithOS.

End Pipes.

(* ================================================================= *)
(** ** Values of the fields of a parsed company *)

Module Fields.

(** A field holds the default, or a text taken from the response that is
    not empty and is none of the placeholders. *)
Definition clean (value : str) : Prop :=
  value = OpenAI.NA \/ (value <> [] /\ OpenAI.is_placeholder value = false).

Definition all_clean (d : OpenAI.company) : Prop :=
  forall key, clean (OpenAI.get_text key d).

(** Continuations that fail on the same inputs. *)
Definition fail_alike {A B} (k1 : str -> Re.caps -> option A)
           (k2 : str -> Re.caps -> option B) : Prop :=
  forall s cs, k1 s cs = None <-> k2 s cs = None.

End Fields.
Import Fields.

(* ================================================================= *)
(** ** [agent_main.py]: [AgentConfigManager] *)

Module Config.

(** [x.get(key, default)] for a key that is any value: a list or a mapping
    cannot be hashed, and no other value than a string is a key of a
    mapping read from JSON. *)
Definition get_by (x key default : json) : result json :=
  match x with
  | JObj d =>
    match key with
    | JStr k =>
      match dict_get k d with
      | Some v => Ok v
      | None => Ok default
      end
    | JArr _ | JObj _ => Raise TypeError
    | _ => Ok default
    end
  | _ => Raise AttributeError
  end.

(** [del d[k]] for a key that is there *)
Definition dict_del (k : str) (d : dict) : dict :=
  filter (fun kv => negb (str_eqb (fst kv) k)) d.

(** [x[key] = value] for a string key: only a mapping takes it. *)
Definition py_setitem (x : json) (key : str) (value : json) : result json :=
  match x with
  | JObj d => Ok (JObj (dict_set key value d))
  | _ => Raise TypeError
  end.

(** [x[key]] for a string key *)
Definition py_item (x : json) (key : str) : result json :=
  match x with
  | JObj d => dict_item d key
  | _ => Raise TypeError
  end.

(** [del x[key]] for a string key that [key in x] has found *)
Definition py_delitem (x : json) (key : str) : result json :=
  match x with
  | JObj d => Ok (JObj (dict_del key d))
  | _ => Raise TypeError
  end.

(** [get_default_config()] *)
Definition get_default_config : json :=
  JObj [(u "active_schema", JStr (u "company_enrichment"));
        (u "schemas", JObj []);
        (u "ai_settings",
         JObj [(u "provider", JStr (u "openai_compatible"));
               (u "api_key", JStr []);
               (u "base_url", JStr (u "https://api.deepseek.com"));
               (u "model", JStr (u "deepseek-chat"));
               (u "temperature", JFloat (u "0.1"));
               (u "max_tokens", JInt 4000)])].

Section WithFiles.

(** The files as the manager sees them: whether a path exists, the text
    of a file read as UTF-8, and writing a text to a file. *)
Variable World : Type.

Record files := {
  path_exists : str -> World -> bool;
  read_text : str -> World -> result str * World;
  write_text : str -> str -> World -> result unit * World
}.

Variable sys : files.

Record AgentConfigManager := {
  config_file : str;
  config : json
}.

(** [load_config()] *)
Definition load_config (path : str) (w : World) : json * World :=
  if path_exists sys path w then
    match read_text sys path w with
    | (Ok text, w') =>
      match decode text with
      | Ok loaded => (loaded, w')
      | Raise _ => (get_default_config, w')
      end
    | (Raise _, w') => (get_default_config, w')
    end
  else (get_default_config, w).

(** [AgentConfigManager(config_file)] *)
Definition new_manager (path : str) (w : World) : AgentConfigManager * World :=
  let '(loaded, w') := load_config path w in
  ({| config_file := path; config := loaded |}, w').

(** [save_config()] *)
Definition save_config (m : AgentConfigManager) (w : World) : bool * World :=
  match write_text sys (config_file m) (dumps_pretty (config m)) w with
  | (Ok _, w') => (true, w')
  | (Raise _, w') => (false, w')
  end.

(** [get_active_schema()] *)
Definition get_active_schema (m : AgentConfigManager) : result json :=
  (schema_name <- Mcp.py_get (config m) (u "active_schema")
                             (JStr (u "company_enrichment")) ;;
   schemas <- Mcp.py_get (config m) (u "schemas") (JObj []) ;;
   get_by schemas schema_name (JObj []))%py.

(** [set_active_schema(schema_name)]: what it returns, the manager after
    it, and the world. *)
Definition set_active_schema (m : AgentConfigManager) (schema_name : str)
           (w : World) : result (bool * AgentConfigManager) * World :=
  match (schemas <- Mcp.py_get (config m) (u "schemas") (JObj []) ;;
         Mcp.py_in schema_name schemas)%py with
  | Raise e => (Raise e, w)
  | Ok false => (Ok (false, m), w)
  | Ok true =>
    match py_setitem (config m) (u "active_schema") (JStr schema_name) with
    | Raise e => (Raise e, w)
    | Ok c =>
      let m' := {| config_file := config_file m; config := c |} in
      let '(_, w') := save_config m' w in
      (Ok (true, m'), w')
    end
  end.

(** [list_schemas()] *)
Definition list_schemas (m : AgentConfigManager) : result (list str) :=
  (schemas <- Mcp.py_get (config m) (u "schemas") (JObj []) ;;
   match schemas with
   | JObj d => Ok (map fst d)
   | _ => Raise AttributeError
   end)%py.

(** [add_schema(name, schema)] *)
Definition add_schema (m : AgentConfigManager) (name : str) (schema : json)
           (w : World) : result AgentConfigManager * World :=
  match (present <- Mcp.py_in (u "schemas") (config m) ;;
         c <- (if present then Ok (config m)
               else py_setitem (config m) (u "schemas") (JObj [])) ;;
         schemas <- py_item c (u "schemas") ;;
         schemas' <- py_setitem schemas name schema ;;
         py_setitem c (u "schemas") schemas')%py with
  | Raise e => (Raise e, w)
  | Ok c =>
    let m' := {| config_file := config_file m; config := c |} in
    let '(_, w') := save_config m' w in
    (Ok m', w')
  end.

(** [delete_schema(name)] *)
Definition delete_schema (m : AgentConfigManager) (name : str) (w : World)
  : result (bool * AgentConfigManager) * World :=
  match (schemas <- Mcp.py_get (config m) (u "schemas") (JObj []) ;;
         Mcp.py_in name schemas)%py with
  | Raise e => (Raise e, w)
  | Ok false => (Ok (false, m), w)
  | Ok true =>
    match (schemas <- py_item (config m) (u "schemas") ;;
           schemas' <- py_delitem schemas name ;;
           py_setitem (config m) (u "schemas") schemas')%py with
    | Raise e => (Raise e, w)
    | Ok c =>
      let m' := {| config_file := config_file m; config := c |} in
      let '(_, w') := save_config m' w in
      (Ok (true, m'), w')
    end
  end.

(** A configuration the manager can work on: a mapping whose [schemas],
    when it has one, is a mapping. *)
Definition shaped (c : json) : bool :=
  match c with
  | JObj d =>
    match dict_get (u "schemas") d with
    | None | Some (JObj _) => true
    | Some _ => false
    end
  | _ => false
  end.

(** The schemas of a configuration. *)
Definition schemas_of (c : json) : dict :=
  match c with
  | JObj d =>
    match dict_get (u "schemas") d with
    | Some (JObj s) => s
    | _ => []
    end
  | _ => []
  end.

End WithFiles.

Arguments path_exists {World}.
Arguments read_text {World}.
Arguments write_text {World}.
Arguments load_config {World}.
Arguments new_manager {World}.
Arguments save_config {World}.
Arguments set_active_schema {World}.
Arguments add_schema {World}.
Arguments delete_schema {World}.

End Config.

(* ================================================================= *)
(** ** More concrete instances *)

Module Demo2.

(** Files kept in memory: the world maps paths to texts, and every write
    succeeds. *)
Definition memory_files : Config.files (list (str * str)) := {|
  Config.path_exists := fun path w =>
    existsb (fun pt => str_eqb (fst pt) path) w;
  Config.read_text := fun path w =>
    match find (fun pt => str_eqb (fst pt) path) w with
    | Some pt => (Ok (snd pt), w)
    | None => (Raise (Failure (u "FileNotFoundError")), w)
    end;
  Config.write_text := fun path text w =>
    (Ok tt, (path, text) :: filter (fun pt => negb (str_eqb (fst pt) path)) w)
|}.

(** Files that cannot be written. *)
Definition read_only_files : Config.files (list (str * str)) := {|
  Config.path_exists := Config.path_exists memory_files;
  Config.read_text := Config.read_text memory_files;
  Config.write_text := fun path text w =>
    (Raise (Failure (u "PermissionError")), w)
|}.

Definition default_manager : Config.AgentConfigManager := {|
  Config.config_file := u "agent_config.json";
  Config.config := Config.get_default_config
|}.

Definition people_schema : json :=
  JObj [(u "output_columns", JArr []);
        (u "prompt_template", JStr (u "Describe {name}"))].

(** A manager with one schema, which is the active one. *)
Definition people_manager : Config.AgentConfigManager := {|
  Config.config_file := u "agent_config.json";
  Config.config :=
    JObj [(u "active_schema", JStr (u "people"));
          (u "schemas", JObj [(u "people", people_schema)])]
|}.

End Demo2.

(* ================================================================= *)
(** ** Templates, and [query_single] *)

Module Agent2.

(** Text without braces: [str.format] copies it. *)
Definition brace_free (s : str) : bool :=
  forallb (fun c => negb (c =? 123) && negb (c =? 125)) s.

Section WithRuntime.

Variable rt : runtime.

(** A plain field name: not empty, without braces and without the
    characters that start an attribute, an item, a conversion or a format
    specification, and not starting with a digit. *)
Definition plain_name (name : str) : bool :=
  match name with
  | [] => false
  | c :: _ =>
    negb (isdecimal rt c)
    && forallb (fun c => negb (c =? 123) && negb (c =? 125)
                         && negb (field_special c)) name
  end.

Variable World : Type.
Variable Proc : Type.
Variable sys : Mcp.os World Proc.

(** The agent with the MCP client [init_mcp_client] has set, if any. *)
Record engine := {
  core : agent World;
  mcp_client : option (Mcp.mcp_client Proc)
}.

(** The text [query_single] takes from a transport reply. *)
Definition single_response (result_dict : json) : json :=
  match result_dict with
  | JObj d =>
    if truthy result_dict then
      let content := match dict_get (u "content") d with
                     | Some v => v
                     | None => JStr []
                     end in
      if truthy content then content else JStr (py_str rt result_dict)
    else JStr []
  | _ => if truthy result_dict then JStr (py_str rt result_dict) else JStr []
  end.

(** [query_single(input_data, context)] *)
Definition query_single (e : engine) (w : World) (input_data : dict)
           (context : str) : json * World :=
  match ai_client (core e) with
  | None => (no_client, w)
  | Some chat =>
    match generate_prompt rt (active_schema (core e)) (Single input_data) false with
    | Raise ex => (error_result (exn_text rt ex), w)
    | Ok prompt =>
      let prompt := with_context context prompt in
      let '(prompt, w1) :=
        match mcp_client e with
        | Some c =>
          if truthy (Mcp.is_enabled c)
          then Mcp.enhance_prompt sys c prompt w
          else (prompt, w)
        | None => (prompt, w)
        end in
      match chat w1 prompt with
      | (Raise ex, w2) => (error_result (exn_text rt ex), w2)
      | (Ok result_dict, w2) =>
        match parse_json_response (single_response result_dict) with
        | Ok parsed => (parsed, w2)
        | Raise ex => (error_result (exn_text rt ex), w2)
        end
      end
    end
  end.

End WithRuntime.

Arguments core {World Proc} e.
Arguments mcp_client {World Proc} e.
Arguments query_single rt {World Proc} sys e w input_data context.

End Agent2.

Module Demo3.

(** A transport that answers every prompt with the JSON text of the sample
    record. *)
Definition sample_chat : chat_fn Z :=
  fun w prompt => (Ok (JStr (dumps (JObj Demo.sample_record))), w).

Definition sample_engine : Agent2.engine Z unit := {|
  Agent2.core := {| active_schema := Demo.company_schema;
                    ai_client := Some sample_chat |};
  Agent2.mcp_client := None
|}.

(** The same with the schema whose template names a field nothing
    resolves. *)
Definition unresolved_engine : Agent2.engine Z unit := {|
  Agent2.core := {| active_schema := Demo.unresolved_schema;
                    ai_client := Some sample_chat |};
  Agent2.mcp_client := None
|}.

End Demo3.

(* ================================================================= *)
(** ** Shapes for the indented encoding *)

Module Pretty.

(** What may follow a term in any text [json.dumps] writes: a comma, a
    closing bracket or brace, the newline of an indented text, or the
    end. *)
Definition ends_value (rest : str) : Prop :=
  match rest with
  | [] => True
  | c :: _ => c = 44 \/ c = 93 \/ c = 125 \/ c = 10
  end.

(** The white space between a comma and the next item. *)
Definition gap (indent : option nat) (level : nat) : str :=
  match indent with
  | None => [32]
  | Some _ => newline_indent indent level
  end.

(** A well-formed value is read back from the text an encoder with the
    given options writes, whatever follows. *)
Definition reads_back_as (ea : bool) (indent : option nat) (v : json) : Prop :=
  well_formed v = true ->
  forall (level depth : nat) (rest : str),
    (depth_of v <= depth)%nat -> ends_value rest ->
    scan_once depth (encode ea indent level v ++ rest) = Ok (v, rest).

Definition fits_as (ea : bool) (indent : option nat) (v : json) : Prop :=
  well_formed v = true ->
  forall level : nat,
    (depth_of v <= length (encode ea indent level v))%nat.

(** Files that give back what was written to them. *)
Definition keeps_writes {World} (sys : Config.files World) : Prop :=
  forall path text w w',
    Config.write_text sys path text w = (Ok tt, w') ->
    Config.path_exists sys path w' = true
    /\ exists w'', Config.read_text sys path w' = (Ok text, w'').

End Pretty.
Import Pretty.
(* ================================================================= *)
(** * Properties *)

(** ** Literals and string helpers *)

Example u_ascii : u "a{b}" = [97; 123; 98; 125].
Proof. reflexivity. Qed.

Example u_cjk : u "公司" = [20844; 21496].
Proof. reflexivity. Qed.

Example u_emoji : u "📝" = [128221].
Proof. reflexivity. Qed.

Example strip_ex : strip (u "  a b
") = u "a b".
Proof. reflexivity. Qed.

Example str_of_int_ex : str_of_int (-120) = u "-120" /\ str_of_int 0 = u "0".
Proof. split; reflexivity. Qed.

(** ** The matcher on small inputs *)

Example re_greedy :
  option_map Re.m_group0
    (Re.search (Re.seqs [Re.Chr 91; Re.Star true (Re.Cls Re.any_char); Re.Chr 93])
               (u "a[1][2]b")) = Some (u "[1][2]").
Proof. reflexivity. Qed.

Example re_lazy :
  option_map (Re.group 1)
    (Re.search (Re.seqs [Re.Chr 91; Re.Grp 1 (Re.Star false (Re.Cls Re.any_char)); Re.Chr 93])
               (u "a[1][2]b")) = Some (u "1").
Proof. reflexivity. Qed.

Example re_split_ex :
  Re.split (Re.lit (u ", ")) (u "a, b, c") = [u "a"; u "b"; u "c"].
Proof. reflexivity. Qed.

Example re_finditer_ex :
  map Re.m_group0 (Re.finditer (Re.plus true (Re.Cls ascii_digit)) (u "a12b345"))
  = [u "12"; u "345"].
Proof. reflexivity. Qed.

(** ** The [json] module on small inputs *)

Example dumps_ex :
  dumps (JObj [(u "a", JInt 1); (u "b", JArr [JStr (u "x"); JNull; JBool true])])
  = jq "{'a': 1, 'b': ['x', null, true]}".
Proof. reflexivity. Qed.

Example dumps_pretty_ex :
  dumps_pretty (JArr [JObj [(u "公司", JStr (u "甲"))]; JObj []])
  = jq "[
  {
    '公司': '甲'
  },
  {}
]".
Proof. reflexivity. Qed.

Example dumps_ascii_ex :
  dumps (JStr (u "甲📝")) = jq "'\u7532\ud83d\udcdd'".
Proof. reflexivity. Qed.

Example loads_ex :
  decode (jq " {'a' : [1, -20, 1.5e3, 'x\n\u7532\ud83d\udcdd'], 'a': null} ")
  = Ok (JObj [(u "a", JNull)]).
Proof. reflexivity. Qed.

Example loads_bad :
  decode (jq "[1, 2,]") = Raise JSONDecodeError /\
  decode (jq "01") = Raise JSONDecodeError /\
  decode (jq "{'a': 1} x") = Raise JSONDecodeError /\
  decode (u "garbage") = Raise JSONDecodeError.
Proof. repeat split; reflexivity. Qed.

(* ----------------------------------------------------------------- *)
(** ** Chunking *)

Lemma firstn_add {A} (a b : nat) (l : list A) :
  firstn (a + b) l = firstn a l ++ firstn b (skipn a l).
Proof.
  revert l; induction a as [|a IH]; intros l; simpl; [reflexivity|].
  destruct l as [|x l]; simpl.
  - now rewrite firstn_nil.
  - now rewrite IH.
Qed.

Lemma slice_step {A} (l : list A) (i step : nat) :
  slice l i (i + step) = firstn step (skipn i l).
Proof. unfold slice. f_equal. lia. Qed.

Lemma concat_chunks_prefix {A} (step : nat) (l : list A) (k : nat) :
  concat (map (fun i => slice l i (i + step))
              (map (fun j => j * step)%nat (seq 0 k)))
  = firstn (k * step) l.
Proof.
  induction k as [|k IH]; [reflexivity|].
  rewrite seq_S, !map_app, concat_app, IH. simpl.
  rewrite app_nil_r, slice_step.
  replace (step + k * step)%nat with (k * step + step)%nat by lia.
  now rewrite firstn_add.
Qed.

Lemma chunk_count_covers (n step : nat) :
  (0 < step)%nat -> (n <= (n + step - 1) / step * step)%nat.
Proof.
  intros Hs.
  pose proof (Nat.div_mod_eq (n + step - 1) step) as E.
  pose proof (Nat.mod_upper_bound (n + step - 1) step) as B.
  nia.
Qed.

(** The chunks, in order, make up the list again. *)
Lemma concat_chunks_of {A} (step : nat) (l : list A) :
  (0 < step)%nat -> concat (chunks_of step l) = l.
Proof.
  intros Hs. unfold chunks_of, range_step.
  rewrite concat_chunks_prefix.
  apply firstn_all2, chunk_count_covers, Hs.
Qed.

Lemma chunk_length_le {A} (step : nat) (l : list A) (c : list A) :
  In c (chunks_of step l) -> (length c <= step)%nat.
Proof.
  unfold chunks_of. rewrite in_map_iff. intros [i [<- _]].
  rewrite slice_step, length_firstn. lia.
Qed.

(* ----------------------------------------------------------------- *)
(** ** [query_batch]: cardinality and order *)

Section QueryBatch.

Variable rt : runtime.
Variable World : Type.

Local Abbreviation chat_fn := (Agent.chat_fn World).
Local Abbreviation process_chunk := (Agent.process_chunk rt World).
Local Abbreviation chunk_step := (Agent.chunk_step rt World).
Local Abbreviation query_batch := (Agent.query_batch rt World).
Local Abbreviation blocks_of := (Views.blocks_of rt World).

(** Reconciled results, once iterated, are as many as the chunk. *)
Lemma reconcile_iter_length (parsed reconciled : json) (n : nat) (items : list json) :
  reconcile parsed n = Ok reconciled ->
  py_iter reconciled = Ok items ->
  length items = n.
Proof.
  unfold reconcile.
  destruct parsed as [| | | |s|l|d]; simpl; try discriminate;
    match goal with
    | |- context [Nat.eqb ?a n] =>
      destruct (Nat.eqb_spec a n) as [E|E]; simpl;
      [| destruct (Nat.ltb_spec a n) as [L|L]; simpl]
    end;
    try discriminate;
    intros H; injection H as <-; simpl; intros H; injection H as <-;
    rewrite ?length_map, ?length_app, ?repeat_length, ?length_firstn; lia.
Qed.

(** What reconciliation does to a parsed list. *)
Lemma reconcile_list (l : list json) (n : nat) :
  reconcile (JArr l) n
  = Ok (JArr (if (length l <? n)%nat
              then l ++ repeat no_result (n - length l)
              else firstn n l)).
Proof.
  unfold reconcile; simpl.
  destruct (Nat.eqb_spec (length l) n) as [E|E]; simpl.
  - subst n. rewrite Nat.ltb_irrefl, firstn_all. reflexivity.
  - destruct (length l <? n)%nat; reflexivity.
Qed.

(** Every round of the loop appends as many items as its chunk has
    records, whether the round raised or not. *)
Lemma chunk_step_length sc (chat : chat_fn) w batch context :
  length (fst (chunk_step sc chat w batch context)) = length batch.
Proof.
  unfold Agent.chunk_step, Agent.process_chunk.
  destruct (generate_prompt rt sc (Batch batch) true) as [prompt|e]; simpl;
    [| now rewrite repeat_length].
  destruct (chat w (with_context context prompt)) as [[reply|e] w']; simpl;
    [| now rewrite repeat_length].
  destruct (parse_json_array_response (batch_response rt reply)) as [parsed|e];
    simpl; [| now rewrite repeat_length].
  destruct (reconcile parsed (length batch)) as [reconciled|e] eqn:R;
    simpl; [| now rewrite repeat_length].
  destruct (py_iter reconciled) as [items|e] eqn:I;
    simpl; [| now rewrite repeat_length].
  eapply reconcile_iter_length; eassumption.
Qed.

Lemma loop_blocks sc (chat : chat_fn) context input step indices acc w :
  fold_left
    (fun (acc : list json * World) (i : nat) =>
       let '(results, w) := acc in
       let batch := slice input i (i + step) in
       let '(items, w') := chunk_step sc chat w batch context in
       (results ++ items, w'))
    indices (acc, w)
  = let '(blocks, w') :=
      blocks_of sc chat context
                (map (fun i => slice input i (i + step)) indices) w in
    (acc ++ concat blocks, w').
Proof.
  revert acc w; induction indices as [|i indices IH]; intros acc w; simpl.
  - now rewrite app_nil_r.
  - destruct (chunk_step sc chat w (slice input i (i + step)) context)
      as [items w1].
    rewrite IH.
    destruct (blocks_of sc chat context _ w1) as [rest w2]. simpl.
    now rewrite app_assoc.
Qed.

(** [query_batch] with a client and a positive batch size, as blocks. *)
Lemma query_batch_blocks (a : agent World) chat w input context batch_size :
  ai_client a = Some chat ->
  (0 < batch_size)%Z ->
  query_batch a w input context batch_size
  = let '(blocks, w') :=
      blocks_of (active_schema a) chat context
                (chunks_of (Z.to_nat batch_size) input) w in
    (Ok (concat blocks), w').
Proof.
  intros Hc Hb. unfold Agent.query_batch. rewrite Hc.
  destruct (Z.eqb_spec batch_size 0) as [E|_]; [lia|].
  destruct (Z.ltb_spec batch_size 0) as [E|_]; [lia|].
  rewrite loop_blocks. unfold chunks_of.
  destruct (blocks_of _ _ _ _ _) as [blocks w']. reflexivity.
Qed.

(** Block [k] is the outcome of a round on chunk [k] and has its length. *)
Lemma blocks_of_aligned sc (chat : chat_fn) context chunks w :
  Forall2 (fun block chunk =>
             length block = length chunk /\
             exists w0, block = fst (chunk_step sc chat w0 chunk context))
          (fst (blocks_of sc chat context chunks w)) chunks.
Proof.
  revert w; induction chunks as [|batch chunks IH]; intros w; simpl.
  - constructor.
  - destruct (chunk_step sc chat w batch context) as [items w1] eqn:E.
    specialize (IH w1).
    destruct (blocks_of sc chat context chunks w1) as [rest w2]. simpl in *.
    constructor; [|exact IH].
    split.
    + change items with (fst (items, w1)). rewrite <- E.
      apply chunk_step_length.
    + exists w. now rewrite E.
Qed.

Lemma aligned_concat_length {A B} (P : list A -> list B -> Prop) blocks chunks :
  Forall2 (fun b c => length b = length c /\ P b c) blocks chunks ->
  length (concat blocks) = length (concat chunks).
Proof.
  induction 1 as [|b c bs cs [Hl _] _ IH]; simpl; [reflexivity|].
  rewrite !length_app. lia.
Qed.

(** A round whose reply parses to a list appends that list, padded with
    the "no result" sentinel or cut to the length of the chunk. *)
Lemma chunk_step_parsed_list sc (chat : chat_fn) w batch context prompt reply w1 l :
  generate_prompt rt sc (Batch batch) true = Ok prompt ->
  chat w (with_context context prompt) = (Ok reply, w1) ->
  parse_json_array_response (batch_response rt reply) = Ok (JArr l) ->
  chunk_step sc chat w batch context
  = (if (length l <? length batch)%nat
     then l ++ repeat no_result (length batch - length l)
     else firstn (length batch) l, w1).
Proof.
  intros Hp Hc Hr. unfold Agent.chunk_step, Agent.process_chunk.
  rewrite Hp, Hc, Hr. simpl. rewrite reconcile_list. reflexivity.
Qed.

(** C1.  For a positive [batch_size], [query_batch] returns a list as long
    as the list of records.  With a client, the list is made of one block
    per chunk, in the order of the chunks, each block as long as its chunk
    and the outcome of one round on it, so that the result at index [i]
    belongs to record [i]; this holds whatever rounds raise.  A parsed list
    shorter than its chunk is padded with error sentinels, a longer one is
    cut to the length of the chunk. *)
Theorem query_batch_cardinality (a : agent World) w input context batch_size :
  (0 < batch_size)%Z ->
  exists results w',
    query_batch a w input context batch_size = (Ok results, w') /\
    length results = length input /\
    (forall chat, ai_client a = Some chat ->
       exists blocks,
         results = concat blocks /\
         input = concat (chunks_of (Z.to_nat batch_size) input) /\
         Forall2 (fun block chunk =>
                    length block = length chunk /\
                    exists w0, block = fst (chunk_step (active_schema a) chat
                                                       w0 chunk context))
                 blocks (chunks_of (Z.to_nat batch_size) input)) /\
    (forall chat w0 batch prompt reply w1 l,
       generate_prompt rt (active_schema a) (Batch batch) true = Ok prompt ->
       chat w0 (with_context context prompt) = (Ok reply, w1) ->
       parse_json_array_response (batch_response rt reply) = Ok (JArr l) ->
       fst (chunk_step (active_schema a) chat w0 batch context)
       = if (length l <? length batch)%nat
         then l ++ repeat no_result (length batch - length l)
         else firstn (length batch) l).
Proof.
  intros Hb.
  assert (Hpad : forall chat w0 batch prompt reply w1 l,
       generate_prompt rt (active_schema a) (Batch batch) true = Ok prompt ->
       chat w0 (with_context context prompt) = (Ok reply, w1) ->
       parse_json_array_response (batch_response rt reply) = Ok (JArr l) ->
       fst (chunk_step (active_schema a) chat w0 batch context)
       = if (length l <? length batch)%nat
         then l ++ repeat no_result (length batch - length l)
         else firstn (length batch) l).
  { intros chat w0 batch prompt reply w1 l Hp Hc Hr.
    now rewrite (chunk_step_parsed_list _ _ _ _ _ _ _ _ _ Hp Hc Hr). }
  destruct (ai_client a) as [chat|] eqn:Hc.
  - rewrite (query_batch_blocks a chat w input context batch_size Hc Hb).
    pose proof (blocks_of_aligned (active_schema a) chat context
                  (chunks_of (Z.to_nat batch_size) input) w) as Hal.
    destruct (blocks_of (active_schema a) chat context
                (chunks_of (Z.to_nat batch_size) input) w) as [blocks w'].
    simpl in Hal.
    assert (Hcat : concat (chunks_of (Z.to_nat batch_size) input) = input)
      by (apply concat_chunks_of; lia).
    exists (concat blocks), w'. repeat split.
    + rewrite (aligned_concat_length _ _ _ Hal). now rewrite Hcat.
    + intros chat' E; injection E as <-.
      exists blocks. repeat split; [now symmetry | exact Hal].
    + exact Hpad.
  - exists (repeat no_client (length input)), w.
    unfold Agent.query_batch. rewrite Hc. repeat split.
    + apply repeat_length.
    + discriminate.
    + exact Hpad.
Qed.

(* ----------------------------------------------------------------- *)
(** ** [query_batch]: failure isolation *)

Lemma slice_app_l {A} (l1 l2 : list A) (i step : nat) :
  (i + step <= length l1)%nat ->
  slice (l1 ++ l2) i (i + step) = slice l1 i (i + step).
Proof.
  intros H. rewrite !slice_step, skipn_app, firstn_app, length_skipn.
  replace (i - length l1)%nat with 0%nat by lia.
  replace (step - (length l1 - i))%nat with 0%nat by lia.
  simpl. now rewrite app_nil_r.
Qed.

Lemma slice_app_r {A} (l1 l2 : list A) (i step : nat) :
  slice (l1 ++ l2) (length l1 + i) (length l1 + i + step) = slice l2 i (i + step).
Proof.
  rewrite !slice_step, skipn_app.
  rewrite skipn_all2 by lia. simpl. f_equal. f_equal. lia.
Qed.

Lemma seq_from (a q : nat) : seq a q = map (Nat.add a) (seq 0 q).
Proof.
  revert a; induction q as [|q IH]; intros a; [reflexivity|].
  simpl. f_equal; [lia|].
  rewrite (IH (S a)), (IH 1%nat), map_map.
  apply map_ext. intros; lia.
Qed.

(** A list whose front part is a whole number of chunks is cut into the
    chunks of the front part followed by the chunks of the rest. *)
Lemma chunks_of_app {A} (step k : nat) (l1 l2 : list A) :
  (0 < step)%nat -> length l1 = (k * step)%nat ->
  chunks_of step (l1 ++ l2) = chunks_of step l1 ++ chunks_of step l2.
Proof.
  intros Hs Hl. unfold chunks_of, range_step.
  rewrite length_app, Hl.
  replace (k * step + length l2 + step - 1)%nat
    with (k * step + (length l2 + step - 1))%nat by lia.
  replace (k * step + step - 1)%nat with (k * step + (step - 1))%nat by lia.
  rewrite !Nat.div_add_l by lia.
  rewrite (Nat.div_small (step - 1) step) by lia.
  rewrite Nat.add_0_r, seq_app, !map_app. f_equal.
  - rewrite !map_map. apply map_ext_in. intros j Hj.
    apply in_seq in Hj. apply slice_app_l. nia.
  - simpl. rewrite (seq_from k), !map_map. apply map_ext. intros j.
    replace ((k + j) * step)%nat with (length l1 + j * step)%nat by nia.
    apply slice_app_r.
Qed.

Lemma chunks_of_nil {A} (step : nat) : (0 < step)%nat -> chunks_of step (@nil A) = [].
Proof.
  intros Hs. unfold chunks_of, range_step. simpl.
  now rewrite (Nat.div_small (step - 1) step) by lia.
Qed.

Lemma chunks_of_one {A} (step : nat) (c : list A) :
  (0 < length c <= step)%nat -> chunks_of step c = [c].
Proof.
  intros Hc. unfold chunks_of, range_step.
  replace ((length c + step - 1) / step)%nat with 1%nat.
  - simpl. unfold slice. simpl. rewrite Nat.sub_0_r.
    now rewrite firstn_all2 by lia.
  - apply Nat.div_unique with (r := (length c - 1)%nat); lia.
Qed.

Lemma blocks_of_app sc (chat : chat_fn) context chunks1 chunks2 w :
  blocks_of sc chat context (chunks1 ++ chunks2) w
  = let '(b1, w1) := blocks_of sc chat context chunks1 w in
    let '(b2, w2) := blocks_of sc chat context chunks2 w1 in
    (b1 ++ b2, w2).
Proof.
  revert w; induction chunks1 as [|c chunks1 IH]; intros w; simpl.
  - destruct (blocks_of sc chat context chunks2 w); reflexivity.
  - destruct (chunk_step sc chat w c context) as [items w1].
    rewrite IH.
    destruct (blocks_of sc chat context chunks1 w1) as [b1 w2].
    destruct (blocks_of sc chat context chunks2 w2) as [b2 w3].
    reflexivity.
Qed.

(** Running [query_batch] on a whole number of chunks and then on the rest
    is running it on the whole list. *)
Lemma query_batch_app (a : agent World) chat w l1 l2 context batch_size k r1 w1 r2 w2 :
  ai_client a = Some chat ->
  (0 < batch_size)%Z ->
  length l1 = (k * Z.to_nat batch_size)%nat ->
  query_batch a w l1 context batch_size = (Ok r1, w1) ->
  query_batch a w1 l2 context batch_size = (Ok r2, w2) ->
  query_batch a w (l1 ++ l2) context batch_size = (Ok (r1 ++ r2), w2).
Proof.
  intros Hc Hb Hl.
  rewrite !(query_batch_blocks a chat _ _ context batch_size Hc Hb).
  rewrite (chunks_of_app _ k) by (lia || assumption).
  rewrite blocks_of_app.
  destruct (blocks_of (active_schema a) chat context
              (chunks_of (Z.to_nat batch_size) l1) w) as [b1 w1'].
  intros E; injection E as <- <-.
  destruct (blocks_of (active_schema a) chat context
              (chunks_of (Z.to_nat batch_size) l2) w1') as [b2 w2'].
  intros E; injection E as <- <-.
  now rewrite concat_app.
Qed.

(** [query_batch] on a single chunk is one round of the loop. *)
Lemma query_batch_one (a : agent World) chat w chunk context batch_size :
  ai_client a = Some chat ->
  (0 < batch_size)%Z ->
  (0 < length chunk <= Z.to_nat batch_size)%nat ->
  query_batch a w chunk context batch_size
  = (Ok (fst (chunk_step (active_schema a) chat w chunk context)),
     snd (chunk_step (active_schema a) chat w chunk context)).
Proof.
  intros Hc Hb Hl.
  rewrite (query_batch_blocks a chat _ _ context batch_size Hc Hb).
  rewrite chunks_of_one by assumption. simpl.
  destruct (chunk_step (active_schema a) chat w chunk context) as [items w1].
  simpl. now rewrite app_nil_r.
Qed.

Lemma query_batch_nil (a : agent World) chat w context batch_size :
  ai_client a = Some chat ->
  (0 < batch_size)%Z ->
  query_batch a w [] context batch_size = (Ok [], w).
Proof.
  intros Hc Hb.
  rewrite (query_batch_blocks a chat _ _ context batch_size Hc Hb).
  rewrite chunks_of_nil by lia. reflexivity.
Qed.

(** C4.  Let chunk [k] of the records raise in the body of the loop
    (rendering, transport or parsing), in the world the rounds before it
    leave.  Then [query_batch] returns: the results of the records before
    the chunk, as [query_batch] gives them for those records alone; an
    error sentinel for every record of the chunk; and the results of the
    records after the chunk, as [query_batch] gives them for those records
    alone from the world the failed round leaves. *)
Theorem query_batch_failure_isolation
        (a : agent World) chat w input context batch_size k
        before w1 e w2 after w3 :
  let step := Z.to_nat batch_size in
  let chunk := slice input (k * step) (k * step + step) in
  ai_client a = Some chat ->
  (0 < batch_size)%Z ->
  (k * step < length input)%nat ->
  query_batch a w (firstn (k * step) input) context batch_size = (Ok before, w1) ->
  process_chunk (active_schema a) chat w1 chunk context = (Raise e, w2) ->
  query_batch a w2 (skipn (k * step + step) input) context batch_size
    = (Ok after, w3) ->
  query_batch a w input context batch_size
  = (Ok (before
         ++ repeat (error_result (exn_text rt e)) (length chunk)
         ++ after), w3).
Proof.
  intros step chunk Hc Hb Hk Hbefore Hraise Hafter.
  assert (Hsplit : input = firstn (k * step) input
                           ++ (chunk ++ skipn (k * step + step) input)).
  { unfold chunk. rewrite slice_step.
    replace (k * step + step)%nat with (step + k * step)%nat by lia.
    now rewrite <- skipn_skipn, !firstn_skipn. }
  assert (Hpre : length (firstn (k * step) input) = (k * step)%nat)
    by (rewrite length_firstn; lia).
  assert (Hlen : (0 < length chunk <= step)%nat).
  { unfold chunk. rewrite slice_step, length_firstn, length_skipn. lia. }
  assert (Hstep : chunk_step (active_schema a) chat w1 chunk context
                  = (repeat (error_result (exn_text rt e)) (length chunk), w2)).
  { unfold Agent.chunk_step. now rewrite Hraise. }
  rewrite Hsplit at 1.
  apply (query_batch_app a chat w _ _ context batch_size k before w1
           _ w3 Hc Hb Hpre Hbefore).
  destruct (Nat.eq_dec (length chunk) step) as [Hfull|Hpart].
  - apply (query_batch_app a chat w1 _ _ context batch_size 1 _ w2
             _ w3 Hc Hb).
    + fold step. lia.
    + rewrite (query_batch_one a chat) by assumption. now rewrite Hstep.
    + exact Hafter.
  - assert (Hnil : skipn (k * step + step) input = []).
    { apply skipn_all2. unfold chunk in Hlen, Hpart.
      rewrite slice_step, length_firstn, length_skipn in Hlen, Hpart. lia. }
    rewrite Hnil in Hafter |- *.
    rewrite (query_batch_nil a chat w2 context batch_size Hc Hb) in Hafter.
    injection Hafter as <- <-.
    rewrite !app_nil_r.
    rewrite (query_batch_one a chat) by assumption. now rewrite Hstep.
Qed.

End QueryBatch.

Lemma query_batch_cardinality_witness :
  exists results w',
    Agent.query_batch ascii_runtime nat Demo.flaky_agent 0%nat
                      Demo.five_records [] 2 = (Ok results, w') /\
    length results = 5%nat.
Proof.
  destruct (query_batch_cardinality ascii_runtime nat Demo.flaky_agent 0%nat
              Demo.five_records [] 2 ltac:(lia))
    as (results & w' & Hrun & Hlen & _).
  exists results, w'. split; [exact Hrun | exact Hlen].
Defined.

Lemma query_batch_failure_isolation_witness :
  exists before after w3,
    Agent.query_batch ascii_runtime nat Demo.flaky_agent 0%nat
                      Demo.five_records [] 2
    = (Ok (before ++ repeat (error_result (u "boom")) 2 ++ after), w3).
Proof.
  eexists _, _, _.
  eapply (query_batch_failure_isolation ascii_runtime nat Demo.flaky_agent
            Demo.flaky_chat 0%nat Demo.five_records [] 2 1)
    with (e := Failure (u "boom")).
  - reflexivity.
  - lia.
  - vm_compute. lia.
  - vm_compute. reflexivity.
  - vm_compute. reflexivity.
  - vm_compute. reflexivity.
Defined.

(* ----------------------------------------------------------------- *)
(** ** [generate_prompt]: a placeholder that cannot be resolved *)

(** C2.  With a template that names a placeholder nothing resolves, batch
    mode returns the default prompt, and single-record mode raises the
    [KeyError] of [str.format] to its caller. *)
Theorem generate_prompt_unresolved_placeholder :
  generate_prompt ascii_runtime Demo.unresolved_schema
                  (Batch [[(u "company", JStr (u "A"))]]) true
  = Ok (default_prompt
          (dumps_pretty (JArr [JObj [(u "company", JStr (u "A"))]])) [])
  /\
  generate_prompt ascii_runtime Demo.unresolved_schema
                  (Single [(u "company", JStr (u "A"))]) false
  = Raise (KeyError (u "missing")).
Proof. split; reflexivity. Qed.

(* ----------------------------------------------------------------- *)
(** ** [parse_json_response] and the batch loop on small inputs *)

Example parse_fenced_block :
  parse_json_response (JStr (jq "```json
{'a':1}
```")) = Ok (JObj [(u "a", JInt 1)]).
Proof. reflexivity. Qed.

Example parse_garbage :
  parse_json_response (JStr (u "garbage")) = Ok (unparsable (JStr (u "garbage"))).
Proof. reflexivity. Qed.

Example array_padding :
  fst (Agent.chunk_step ascii_runtime nat Demo.company_schema
         (fun w _ => (Ok (JStr (jq "[{}, {}]")), w)) 0%nat
         [Demo.record_of "A"; Demo.record_of "B"; Demo.record_of "C"] [])
  = [JObj []; JObj []; no_result].
Proof. reflexivity. Qed.

(* ----------------------------------------------------------------- *)
(** ** [json]: string literals read back *)

Module JsonFacts.

Lemma hex_val_digit (d : N) : d < 16 -> hex_val (hex_digit d) = Some d.
Proof.
  intros Hd. unfold hex_val, hex_digit.
  destruct (N.ltb_spec d 10) as [L|L].
  - replace ((48 <=? 48 + d) && (48 + d <=? 57)) with true.
    + f_equal. lia.
    + symmetry. apply andb_true_iff. split; apply N.leb_le; lia.
  - replace ((48 <=? 87 + d) && (87 + d <=? 57)) with false.
    + replace ((97 <=? 87 + d) && (87 + d <=? 102)) with true.
      * f_equal. lia.
      * symmetry. apply andb_true_iff. split; apply N.leb_le; lia.
    + symmetry. apply andb_false_iff. right. apply N.leb_gt. lia.
Qed.

Lemma hex4_recombine (n : N) :
  n < 65536 ->
  ((n / 4096 mod 16 * 16 + n / 256 mod 16) * 16 + n / 16 mod 16) * 16 + n mod 16
  = n.
Proof.
  intros Hn.
  replace 4096 with (16 * (16 * 16)) by reflexivity.
  replace 256 with (16 * 16) by reflexivity.
  rewrite <- !N.Div0.div_div.
  pose proof (N.div_mod n 16 ltac:(lia)).
  pose proof (N.div_mod (n / 16) 16 ltac:(lia)).
  pose proof (N.div_mod (n / 16 / 16) 16 ltac:(lia)).
  assert (n / 16 / 16 / 16 < 16)
    by (do 3 apply N.Div0.div_lt_upper_bound; lia).
  rewrite (N.mod_small (n / 16 / 16 / 16) 16) by assumption.
  lia.
Qed.

(** A code point above the BMP, split into its surrogates and joined
    again. *)
Lemma surrogates_join (c : N) :
  65536 <= c -> c < 1114112 ->
  let hi := 55296 + ((c - 65536) / 1024) mod 1024 in
  let lo := 56320 + (c - 65536) mod 1024 in
  hi < 65536 /\ lo < 65536 /\
  is_high_surrogate hi = true /\ is_low_surrogate lo = true /\
  65536 + ((hi - 55296) * 1024 + (lo - 56320)) = c.
Proof.
  intros Hlo Hhi.
  assert (Hq : (c - 65536) / 1024 < 1024)
    by (apply N.Div0.div_lt_upper_bound; lia).
  rewrite (N.mod_small ((c - 65536) / 1024) 1024) by assumption.
  pose proof (N.div_mod (c - 65536) 1024 ltac:(lia)) as E.
  pose proof (N.mod_lt (c - 65536) 1024 ltac:(lia)) as Hr.
  remember ((c - 65536) / 1024) as q. remember ((c - 65536) mod 1024) as r.
  cbv zeta. unfold is_high_surrogate, is_low_surrogate.
  rewrite !andb_true_iff, !N.leb_le. lia.
Qed.

Lemma hex4_val_hex4 (n : N) :
  n < 65536 ->
  match hex4 n with
  | [a; b; c; d] => hex4_val a b c d = Some n
  | _ => False
  end.
Proof.
  intros Hn. unfold hex4, hex4_val.
  rewrite !hex_val_digit by (apply N.mod_lt; lia).
  f_equal. apply hex4_recombine, Hn.
Qed.

Lemma scan_plain (c : char) (s : str) :
  c <> 34 -> 32 <= c -> c <> 92 ->
  scan_string (c :: s) = consed c (scan_string s).
Proof.
  intros H1 H2 H3. simpl.
  destruct (N.eqb_spec c 34); [contradiction|].
  destruct (N.ltb_spec c 32); [lia|].
  destruct (N.eqb_spec c 92); [contradiction|].
  reflexivity.
Qed.

Lemma scan_simple (e d : char) (s : str) :
  e <> 117 -> simple_escape e = Some d ->
  scan_string (92 :: e :: s) = consed d (scan_string s).
Proof.
  intros H1 H2. simpl.
  destruct (N.eqb_spec e 117); [contradiction|].
  rewrite H2. reflexivity.
Qed.

Lemma scan_u_lone (n : N) (s : str) :
  n < 65536 -> is_high_surrogate n = false ->
  scan_string (u_escape n ++ s) = consed n (scan_string s).
Proof.
  intros Hn Hs. pose proof (hex4_val_hex4 n Hn) as Hx.
  unfold u_escape. destruct (hex4 n) as [|a [|b [|c [|d [|]]]]]; try contradiction.
  simpl. rewrite Hx, Hs. reflexivity.
Qed.

Lemma scan_u_pair (hi lo : N) (s : str) :
  hi < 65536 -> lo < 65536 ->
  is_high_surrogate hi = true -> is_low_surrogate lo = true ->
  scan_string (u_escape hi ++ u_escape lo ++ s)
  = consed (65536 + ((hi - 55296) * 1024 + (lo - 56320))) (scan_string s).
Proof.
  intros Hh Hl Hhs Hls.
  pose proof (hex4_val_hex4 hi Hh) as Hx.
  pose proof (hex4_val_hex4 lo Hl) as Hy.
  unfold u_escape.
  destruct (hex4 hi) as [|a [|b [|c [|d [|]]]]]; try contradiction.
  destruct (hex4 lo) as [|a' [|b' [|c' [|d' [|]]]]]; try contradiction.
  simpl. rewrite Hx, Hhs. simpl. rewrite Hy, Hls. reflexivity.
Qed.

Lemma scan_escape_char (c : char) (s : str) :
  scalar_value c = true ->
  scan_string (escape_char true c ++ s) = consed c (scan_string s).
Proof.
  unfold scalar_value. rewrite andb_true_iff, negb_true_iff, andb_false_iff.
  rewrite N.ltb_lt, N.leb_gt, N.leb_gt. intros [Hmax Hsur].
  unfold escape_char.
  destruct (N.eqb_spec c 34) as [->|N34]; [reflexivity|].
  destruct (N.eqb_spec c 92) as [->|N92]; [reflexivity|].
  destruct (N.eqb_spec c 10) as [->|N10]; [reflexivity|].
  destruct (N.eqb_spec c 13) as [->|N13]; [reflexivity|].
  destruct (N.eqb_spec c 9) as [->|N9]; [reflexivity|].
  destruct (N.eqb_spec c 12) as [->|N12]; [reflexivity|].
  destruct (N.eqb_spec c 8) as [->|N8]; [reflexivity|].
  destruct (N.ltb_spec c 32) as [L32|L32].
  { apply scan_u_lone; [lia|].
    unfold is_high_surrogate. apply andb_false_iff. left. apply N.leb_gt. lia. }
  destruct (N.ltb_spec c 127) as [L127|L127].
  { apply scan_plain; assumption. }
  destruct (N.ltb_spec c 65536) as [Lbmp|Lbmp].
  { apply scan_u_lone; [lia|].
    unfold is_high_surrogate. apply andb_false_iff.
    destruct Hsur; [left|right]; apply N.leb_gt; lia. }
  destruct (surrogates_join c Lbmp Hmax) as (H1 & H2 & H3 & H4 & H5).
  rewrite <- app_assoc, scan_u_pair by assumption.
  now rewrite H5.
Qed.

Lemma scan_string_encoded (s rest : str) :
  well_formed_str s = true ->
  scan_string (flat_map (escape_char true) s ++ 34 :: rest) = Some (s, rest).
Proof.
  induction s as [|c s IH]; intros Hwf; [reflexivity|].
  simpl in Hwf. apply andb_true_iff in Hwf as [Hc Hs].
  simpl. rewrite <- app_assoc, scan_escape_char, IH by assumption.
  reflexivity.
Qed.

(* ----------------------------------------------------------------- *)
(** ** [json]: integers read back *)

Lemma uint_of_chars_chars (d : Decimal.uint) : uint_of_chars (uint_chars d) = d.
Proof. induction d; simpl; now rewrite ?IHd. Qed.

Lemma span_digits_uint (d : Decimal.uint) (rest : str) :
  follows rest -> span_digits (uint_chars d ++ rest) = (uint_chars d, rest).
Proof.
  intros Hf. induction d; simpl; try (rewrite IHd; reflexivity).
  destruct rest as [|c rest]; [reflexivity|].
  simpl in Hf. simpl.
  destruct Hf as [-> | [-> | ->]]; reflexivity.
Qed.

Lemma to_int_normal (z : Z) :
  match Z.to_int z with
  | Decimal.Pos d => normal d
  | Decimal.Neg d => normal d
  end.
Proof.
  pose proof (DecimalZ.to_of (Z.to_int z)) as E.
  rewrite DecimalZ.of_to in E.
  destruct (Z.to_int z) as [d|d]; simpl in E; unfold normal.
  - now injection E.
  - destruct (Decimal.nzhead d) eqn:Hz; try discriminate;
      injection E as E;
      rewrite DecimalFacts.unorm_nzhead by (rewrite Hz; discriminate);
      rewrite Hz; now symmetry.
Qed.

Lemma normal_D0 (d : Decimal.uint) : normal (Decimal.D0 d) -> d = Decimal.Nil.
Proof.
  unfold normal. rewrite DecimalFacts.unorm_D0. unfold Decimal.unorm.
  destruct (Decimal.nzhead d) eqn:Hz; intros E;
    try (exfalso; revert Hz; rewrite E; apply DecimalFacts.nzhead_nonzero).
  now injection E.
Qed.

Lemma scan_int_part_normal (d : Decimal.uint) (rest : str) :
  normal d -> follows rest ->
  scan_int_part (uint_chars d ++ rest) = Some (uint_chars d, rest).
Proof.
  intros Hn Hf.
  destruct d;
    try (unfold scan_int_part;
         rewrite <- (span_digits_uint _ rest Hf); reflexivity).
  - discriminate Hn.
  - apply normal_D0 in Hn. subst d. reflexivity.
Qed.

Lemma scan_frac_follows (rest : str) : follows rest -> scan_frac rest = ([], rest).
Proof.
  destruct rest as [|c [|c' rest]]; try reflexivity.
  simpl. intros [-> | [-> | ->]]; reflexivity.
Qed.

Lemma scan_exp_follows (rest : str) : follows rest -> scan_exp rest = ([], rest).
Proof.
  destruct rest as [|c rest]; try reflexivity.
  simpl. intros [-> | [-> | ->]]; reflexivity.
Qed.

Lemma scan_number_int (z : Z) (rest : str) :
  follows rest -> scan_number (str_of_int z ++ rest) = Some (JInt z, rest).
Proof.
  intros Hf. pose proof (to_int_normal z) as Hn.
  pose proof (DecimalZ.of_to z) as Hz.
  unfold str_of_int. destruct (Z.to_int z) as [d|d]; unfold scan_number.
  - replace (scan_sign (uint_chars d ++ rest))
      with (false, uint_chars d ++ rest)
      by (destruct d; [discriminate Hn | reflexivity ..]).
    cbv beta iota.
    rewrite scan_int_part_normal, scan_frac_follows, scan_exp_follows
      by assumption.
    unfold int_of_chars. now rewrite uint_of_chars_chars, Hz.
  - change (scan_sign ((45 :: uint_chars d) ++ rest))
      with (true, uint_chars d ++ rest).
    cbv beta iota.
    rewrite scan_int_part_normal, scan_frac_follows, scan_exp_follows
      by assumption.
    unfold int_of_chars. now rewrite uint_of_chars_chars, Hz.
Qed.

(** The text of an integer starts with a digit, or with a minus sign and a
    digit. *)
Lemma str_of_int_shape (z : Z) :
  (exists c t, str_of_int z = c :: t /\ ascii_digit c = true) \/
  (exists c t, str_of_int z = 45 :: c :: t /\ ascii_digit c = true).
Proof.
  pose proof (to_int_normal z) as Hn.
  unfold str_of_int. destruct (Z.to_int z) as [d|d];
    [left|right]; (destruct d; [discriminate Hn| ..]);
    eexists _, _; split; reflexivity.
Qed.

Lemma digit_range (c : char) : ascii_digit c = true -> 48 <= c <= 57.
Proof.
  unfold ascii_digit. rewrite andb_true_iff, !N.leb_le. tauto.
Qed.

Lemma after_other (kw : str) (k c : char) (s : str) :
  k <> c -> after (k :: kw) (c :: s) = None.
Proof.
  intros H. unfold after. simpl.
  destruct (N.eqb_spec k c); [contradiction|reflexivity].
Qed.

Lemma after_other2 (kw : str) (k k' c c' : char) (s : str) :
  k' <> c' -> after (k :: k' :: kw) (c :: c' :: s) = None.
Proof.
  intros H. unfold after. simpl.
  destruct (N.eqb_spec k' c'); [contradiction|].
  now rewrite andb_false_r.
Qed.

(** A text that starts like a number is scanned as a number. *)
Lemma scan_once_number (depth : nat) (s : str) :
  (exists c t, s = c :: t /\ ascii_digit c = true) \/
  (exists c t, s = 45 :: c :: t /\ ascii_digit c = true) ->
  scan_once (S depth) s
  = match scan_number s with
    | Some vr => Ok vr
    | None => Raise JSONDecodeError
    end.
Proof.
  intros [(c & t & -> & Hc) | (c & t & -> & Hc)];
    apply digit_range in Hc.
  - cbn [scan_once].
    destruct (N.eqb_spec c 34); [lia|].
    destruct (N.eqb_spec c 123); [lia|].
    destruct (N.eqb_spec c 91); [lia|].
    change (u "null") with [110; 117; 108; 108].
    change (u "true") with [116; 114; 117; 101].
    change (u "false") with [102; 97; 108; 115; 101].
    change (u "NaN") with [78; 97; 78].
    change (u "Infinity") with [73; 110; 102; 105; 110; 105; 116; 121].
    change (u "-Infinity") with [45; 73; 110; 102; 105; 110; 105; 116; 121].
    rewrite !after_other by lia. reflexivity.
  - cbn [scan_once].
    replace (45 =? 34) with false by reflexivity.
    replace (45 =? 123) with false by reflexivity.
    replace (45 =? 91) with false by reflexivity.
    change (u "null") with [110; 117; 108; 108].
    change (u "true") with [116; 114; 117; 101].
    change (u "false") with [102; 97; 108; 115; 101].
    change (u "NaN") with [78; 97; 78].
    change (u "Infinity") with [73; 110; 102; 105; 110; 105; 116; 121].
    change (u "-Infinity") with [45; 73; 110; 102; 105; 110; 105; 116; 121].
    rewrite !after_other by lia.
    rewrite after_other2 by lia. reflexivity.
Qed.

Lemma scan_once_int (z : Z) (depth : nat) (rest : str) :
  follows rest ->
  scan_once (S depth) (str_of_int z ++ rest) = Ok (JInt z, rest).
Proof.
  intros Hf. rewrite scan_once_number.
  - now rewrite scan_number_int.
  - destruct (str_of_int_shape z) as [(c & t & -> & Hc) | (c & t & -> & Hc)];
      [left|right]; eexists _, _; (split; [reflexivity|assumption]).
Qed.

(* ----------------------------------------------------------------- *)
(** ** [json]: floats read back *)

Lemma str_eqb_eq (a b : str) : str_eqb a b = true -> a = b.
Proof.
  unfold str_eqb. destruct (list_eq_dec N.eq_dec a b); [auto|discriminate].
Qed.

Lemma span_digits_app (s rest : str) :
  follows rest ->
  span_digits (s ++ rest) = (fst (span_digits s), snd (span_digits s) ++ rest).
Proof.
  intros Hf. induction s as [|c s IH].
  - exact (span_digits_uint Decimal.Nil rest Hf).
  - cbn [span_digits app]. destruct (ascii_digit c); [|reflexivity].
    rewrite IH. destruct (span_digits s). reflexivity.
Qed.

Lemma scan_int_part_app (s rest ds r : str) :
  follows rest -> scan_int_part s = Some (ds, r) ->
  scan_int_part (s ++ rest) = Some (ds, r ++ rest).
Proof.
  intros Hf. destruct s as [|c s]; [discriminate|].
  change ((c :: s) ++ rest) with (c :: (s ++ rest)). unfold scan_int_part.
  destruct (c =? 48); [intros [= <- <-]; reflexivity|].
  destruct (ascii_digit c); [|discriminate].
  change (c :: (s ++ rest)) with ((c :: s) ++ rest).
  rewrite (span_digits_app (c :: s) rest Hf).
  destruct (span_digits (c :: s)). intros [= <- <-]. reflexivity.
Qed.

Lemma scan_frac_app (s rest : str) :
  follows rest ->
  scan_frac (s ++ rest) = (fst (scan_frac s), snd (scan_frac s) ++ rest).
Proof.
  intros Hf. destruct s as [|p [|d s]].
  - cbn [app]. now rewrite scan_frac_follows.
  - destruct rest as [|c rest]; [reflexivity|].
    destruct Hf as [-> | [-> | ->]]; cbn; now rewrite andb_false_r.
  - change ((p :: d :: s) ++ rest) with (p :: (d :: s) ++ rest).
    change ((d :: s) ++ rest) with (d :: (s ++ rest)). unfold scan_frac.
    destruct ((p =? 46) && ascii_digit d); [|reflexivity].
    change (d :: (s ++ rest)) with ((d :: s) ++ rest).
    rewrite (span_digits_app (d :: s) rest Hf).
    destruct (span_digits (d :: s)). reflexivity.
Qed.

Lemma scan_exp_app (s rest : str) :
  follows rest ->
  scan_exp (s ++ rest) = (fst (scan_exp s), snd (scan_exp s) ++ rest).
Proof.
  intros Hf. destruct s as [|e [|sg s2]].
  - cbn [app]. now rewrite scan_exp_follows.
  - destruct rest as [|c rest].
    + cbn. destruct ((e =? 101) || (e =? 69)); reflexivity.
    + destruct Hf as [-> | [-> | ->]]; cbn;
        destruct ((e =? 101) || (e =? 69)); reflexivity.
  - change ((e :: sg :: s2) ++ rest) with (e :: sg :: (s2 ++ rest)).
    unfold scan_exp.
    destruct ((e =? 101) || (e =? 69)); [|reflexivity].
    destruct ((sg =? 45) || (sg =? 43)).
    + rewrite (span_digits_app s2 rest Hf).
      destruct (span_digits s2) as [[|x ds] r]; reflexivity.
    + change (sg :: (s2 ++ rest)) with ((sg :: s2) ++ rest).
      rewrite (span_digits_app (sg :: s2) rest Hf).
      destruct (span_digits (sg :: s2)) as [[|x ds] r]; reflexivity.
Qed.

(** What the number scanner reads is not changed by what follows the
    term. *)
Lemma scan_number_app (l rest : str) (v : json) (r : str) :
  follows rest -> scan_number l = Some (v, r) ->
  scan_number (l ++ rest) = Some (v, r ++ rest).
Proof.
  intros Hf. destruct l as [|c l]; [discriminate|].
  unfold scan_number.
  assert (Hs : scan_sign ((c :: l) ++ rest)
               = (fst (scan_sign (c :: l)), snd (scan_sign (c :: l)) ++ rest))
    by (cbn; destruct (c =? 45); reflexivity).
  rewrite Hs. destruct (scan_sign (c :: l)) as [negative s0]. cbn [fst snd].
  destruct (scan_int_part s0) as [[ds s1]|] eqn:E; [|discriminate].
  rewrite (scan_int_part_app _ _ _ _ Hf E), (scan_frac_app _ _ Hf).
  destruct (scan_frac s1) as [frac s2]. cbn [fst snd].
  rewrite (scan_exp_app _ _ Hf).
  destruct (scan_exp s2) as [ex s3]. cbn [fst snd].
  destruct frac, ex; intros [= <- <-]; reflexivity.
Qed.

Lemma scan_number_head (l : str) (vr : json * str) :
  scan_number l = Some vr ->
  (exists c t, l = c :: t /\ ascii_digit c = true) \/
  (exists c t, l = 45 :: c :: t /\ ascii_digit c = true).
Proof.
  destruct l as [|c l]; [discriminate|].
  unfold scan_number, scan_sign.
  destruct (N.eqb_spec c 45) as [->|Hc].
  - destruct l as [|c' l']; [discriminate|]. intros H. right.
    exists c', l'. split; [reflexivity|].
    unfold scan_int_part in H.
    destruct (N.eqb_spec c' 48) as [->|]; [reflexivity|].
    destruct (ascii_digit c'); [reflexivity|discriminate].
  - intros H. left. exists c, l. split; [reflexivity|].
    unfold scan_int_part in H.
    destruct (N.eqb_spec c 48) as [->|]; [reflexivity|].
    destruct (ascii_digit c); [reflexivity|discriminate].
Qed.

Lemma finite_float_scan (literal : str) :
  finite_float literal = true ->
  scan_number literal = Some (JFloat literal, []).
Proof.
  unfold finite_float.
  destruct (scan_number literal) as [[[] [|]]|]; try discriminate.
  now intros ->%str_eqb_eq.
Qed.

Lemma head_app (l rest : str) :
  (exists c t, l = c :: t /\ ascii_digit c = true) \/
  (exists c t, l = 45 :: c :: t /\ ascii_digit c = true) ->
  (exists c t, l ++ rest = c :: t /\ ascii_digit c = true) \/
  (exists c t, l ++ rest = 45 :: c :: t /\ ascii_digit c = true).
Proof.
  intros [(c & t & -> & Hc) | (c & t & -> & Hc)]; [left|right];
    eexists _, _; (split; [reflexivity|assumption]).
Qed.

Lemma scan_once_float (literal : str) (depth : nat) (rest : str) :
  finite_float literal = true -> follows rest ->
  scan_once (S depth) (literal ++ rest) = Ok (JFloat literal, rest).
Proof.
  intros E%finite_float_scan Hf.
  rewrite scan_once_number by (eapply head_app, scan_number_head, E).
  now rewrite (scan_number_app _ _ _ _ Hf E).
Qed.

(* ----------------------------------------------------------------- *)
(** ** [json]: values read back *)

Lemma each_item_text ea indent level items :
  (fix each (l : list json) : str :=
     match l with
     | [] => []
     | [x] => encode ea indent level x
     | x :: l' =>
       encode ea indent level x
       ++ item_separator indent ++ newline_indent indent level ++ each l'
     end) items
  = encode_items ea indent level items.
Proof.
  induction items as [|y items IH]; [reflexivity|].
  destruct items as [|z items]; [reflexivity|].
  change (encode_items ea indent level (y :: z :: items))
    with (encode ea indent level y
          ++ item_separator indent ++ newline_indent indent level
          ++ encode_items ea indent level (z :: items)).
  rewrite <- IH. reflexivity.
Qed.

Lemma each_member_text ea indent level fields :
  (fix each (l : list (str * json)) : str :=
     match l with
     | [] => []
     | [(k, x)] =>
       encode_str ea k ++ key_separator ++ encode ea indent level x
     | (k, x) :: l' =>
       encode_str ea k ++ key_separator ++ encode ea indent level x
       ++ item_separator indent ++ newline_indent indent level ++ each l'
     end) fields
  = encode_members ea indent level fields.
Proof.
  induction fields as [|[k y] fields IH]; [reflexivity|].
  destruct fields as [|z fields]; [reflexivity|].
  change (encode_members ea indent level ((k, y) :: z :: fields))
    with (encode_str ea k ++ key_separator ++ encode ea indent level y
          ++ item_separator indent ++ newline_indent indent level
          ++ encode_members ea indent level (z :: fields)).
  rewrite <- IH. reflexivity.
Qed.

Lemma encode_array ea indent level x l :
  encode ea indent level (JArr (x :: l))
  = 91 :: newline_indent indent (S level)
       ++ encode_items ea indent (S level) (x :: l)
       ++ newline_indent indent level ++ [93].
Proof.
  rewrite <- each_item_text. reflexivity.
Qed.

Lemma encode_object ea indent level kx l :
  encode ea indent level (JObj (kx :: l))
  = 123 :: newline_indent indent (S level)
        ++ encode_members ea indent (S level) (kx :: l)
        ++ newline_indent indent level ++ [125].
Proof.
  rewrite <- each_member_text. reflexivity.
Qed.

Lemma depth_of_array items : depth_of (JArr items) = S (depth_of_items items).
Proof.
  unfold depth_of_items. cbn [depth_of]. apply (f_equal S).
  induction items as [|x items IH]; [reflexivity|].
  cbn [fold_right]. now rewrite <- IH.
Qed.

Lemma depth_of_object fields :
  depth_of (JObj fields) = S (depth_of_members fields).
Proof.
  unfold depth_of_members. cbn [depth_of]. apply (f_equal S).
  induction fields as [|[k x] fields IH]; [reflexivity|].
  cbn [fold_right snd]. now rewrite <- IH.
Qed.

Lemma well_formed_object fields :
  well_formed (JObj fields) = true ->
  distinct_keys (map fst fields) = true /\
  Forall (fun kx => well_formed_str (fst kx) = true
                    /\ well_formed (snd kx) = true) fields.
Proof.
  cbn [well_formed]. rewrite andb_true_iff. intros [Hd Hw]. split; [exact Hd|].
  clear Hd. induction fields as [|[k x] fields IH]; constructor.
  - rewrite !andb_true_iff in Hw. simpl. tauto.
  - apply IH. rewrite !andb_true_iff in Hw. tauto.
Qed.

Lemma headed_app (s r : str) : headed s -> headed (s ++ r).
Proof. destruct s; [contradiction|exact (fun H => H)]. Qed.

Lemma skip_ws_headed (s : str) : headed s -> skip_ws s = s.
Proof.
  destruct s as [|c s]; [contradiction|]. intros [H _].
  cbn [skip_ws]. now rewrite H.
Qed.

Lemma headed_cons (s : str) :
  headed s -> exists c t, s = c :: t /\ (c =? 93) = false /\ (c =? 125) = false.
Proof.
  destruct s as [|c s]; [contradiction|]. intros (_ & H1 & H2).
  exists c, s. repeat split; now apply N.eqb_neq.
Qed.

Lemma not_ws (c : char) :
  c <> 32 -> c <> 9 -> c <> 10 -> c <> 13 -> is_ws c = false.
Proof.
  intros. unfold is_ws.
  repeat (apply orb_false_iff; split); now apply N.eqb_neq.
Qed.

Lemma headed_char (c : char) (s : str) :
  c <> 32 -> c <> 9 -> c <> 10 -> c <> 13 -> c <> 93 -> c <> 125 ->
  headed (c :: s).
Proof. intros. split; [now apply not_ws|split; assumption]. Qed.

Lemma encode_headed (level : nat) (v : json) :
  well_formed v = true -> headed (encode true None level v).
Proof.
  assert (Hnum : forall text : str,
             (exists c t, text = c :: t /\ ascii_digit c = true) \/
             (exists c t, text = 45 :: c :: t /\ ascii_digit c = true) ->
             headed text).
  { intros text [(c & t & -> & Hc) | (c & t & -> & Hc)].
    - apply digit_range in Hc. apply headed_char; lia.
    - apply headed_char; discriminate. }
  destruct v as [|[|]|z|literal|s|[|x l]|[|kx l]]; intros Hwf;
    try rewrite encode_array; try rewrite encode_object;
    try (apply headed_char; discriminate).
  - apply Hnum, str_of_int_shape.
  - apply finite_float_scan in Hwf. eapply Hnum, scan_number_head, Hwf.
Qed.

Lemma encode_items_headed (level : nat) (x : json) (l : list json) :
  forallb well_formed (x :: l) = true ->
  headed (encode_items true None level (x :: l)).
Proof.
  cbn [forallb]. intros [Hx _]%andb_true_iff.
  destruct l as [|y l]; [now apply encode_headed|].
  cbn [encode_items]. now apply headed_app, encode_headed.
Qed.

Lemma encode_str_app (s r : str) :
  encode_str true s ++ r = 34 :: flat_map (escape_char true) s ++ 34 :: r.
Proof. unfold encode_str. cbn [app]. now rewrite <- app_assoc. Qed.

Lemma encode_items_cons (level : nat) (x y : json) (l : list json) (r : str) :
  encode_items true None level (x :: y :: l) ++ r
  = encode true None level x
    ++ 44 :: 32 :: (encode_items true None level (y :: l) ++ r).
Proof.
  change (encode_items true None level (x :: y :: l))
    with (encode true None level x
          ++ 44 :: 32 :: encode_items true None level (y :: l)).
  now rewrite <- app_assoc.
Qed.

Lemma encode_member_one (level : nat) (k : str) (x : json) (r : str) :
  encode_members true None level [(k, x)] ++ r
  = 34 :: flat_map (escape_char true) k
       ++ 34 :: 58 :: 32 :: (encode true None level x ++ r).
Proof.
  cbn [encode_members]. rewrite <- !app_assoc, encode_str_app. reflexivity.
Qed.

Lemma encode_members_cons (level : nat) (k : str) (x : json)
      (ky : str * json) (l : list (str * json)) (r : str) :
  encode_members true None level ((k, x) :: ky :: l) ++ r
  = 34 :: flat_map (escape_char true) k
       ++ 34 :: 58 :: 32
       :: (encode true None level x
           ++ 44 :: 32 :: (encode_members true None level (ky :: l) ++ r)).
Proof.
  change (encode_members true None level ((k, x) :: ky :: l))
    with (encode_str true k
          ++ [58; 32] ++ encode true None level x
          ++ 44 :: 32 :: encode_members true None level (ky :: l)).
  rewrite <- !app_assoc, encode_str_app. reflexivity.
Qed.

Lemma encode_members_quote (level : nat) (kx : str * json)
      (l : list (str * json)) (r : str) :
  exists t, encode_members true None level (kx :: l) ++ r = 34 :: t.
Proof.
  destruct kx as [k x]. destruct l as [|ky l].
  - rewrite encode_member_one. eexists. reflexivity.
  - rewrite encode_members_cons. eexists. reflexivity.
Qed.

Lemma depth_of_items_cons (x : json) (l : list json) :
  depth_of_items (x :: l) = S (depth_of x + depth_of_items l).
Proof. reflexivity. Qed.

Lemma depth_of_members_cons (kx : str * json) (l : list (str * json)) :
  depth_of_members (kx :: l) = S (depth_of (snd kx) + depth_of_members l).
Proof. reflexivity. Qed.

Lemma follows_comma (s : str) : follows (44 :: s).
Proof. now left. Qed.

Lemma follows_bracket (s : str) : follows (93 :: s).
Proof. right. now left. Qed.

Lemma follows_brace (s : str) : follows (125 :: s).
Proof. right. now right. Qed.

Lemma scan_items_encoded (items : list json) :
  Forall reads_back items -> forallb well_formed items = true ->
  items <> [] ->
  forall (level depth : nat) (rest : str),
    (depth_of_items items <= depth)%nat ->
    scan_items depth (encode_items true None level items ++ 93 :: rest)
    = Ok (items, rest).
Proof.
  induction items as [|x l IH]; intros HP Hwf Hne level depth rest Hd;
    [contradiction|].
  inversion HP as [|? ? Hx Hl]; subst.
  pose proof Hwf as Hwf'.
  cbn [forallb] in Hwf. apply andb_true_iff in Hwf as [Hwx Hwl].
  rewrite depth_of_items_cons in Hd.
  destruct depth as [|d]; [lia|].
  destruct l as [|y l'].
  - cbn [scan_items encode_items].
    rewrite (Hx Hwx level d (93 :: rest)) by (lia || apply follows_bracket).
    reflexivity.
  - rewrite encode_items_cons. cbn [scan_items].
    rewrite (Hx Hwx level d) by (lia || apply follows_comma).
    remember (encode_items true None level (y :: l') ++ 93 :: rest) as R eqn:ER.
    assert (HR : skip_ws R = R)
      by (subst R; now apply skip_ws_headed, headed_app, encode_items_headed).
    replace (skip_ws (44 :: 32 :: R)) with (44 :: 32 :: R) by reflexivity.
    replace (44 =? 93) with false by reflexivity.
    replace (44 =? 44) with true by reflexivity.
    replace (skip_ws (32 :: R)) with (skip_ws R) by reflexivity.
    rewrite HR, ER, IH; try assumption; [reflexivity|discriminate|lia].
Qed.

Lemma well_formed_members (k : str) (x : json) (l : list (str * json)) :
  Forall (fun kx => well_formed_str (fst kx) = true
                    /\ well_formed (snd kx) = true) ((k, x) :: l) ->
  well_formed_str k = true /\ well_formed x = true /\
  Forall (fun kx => well_formed_str (fst kx) = true
                    /\ well_formed (snd kx) = true) l.
Proof. intros H. inversion H as [|? ? [H1 H2] H3]; subst. auto. Qed.

Lemma scan_members_encoded (fields : list (str * json)) :
  Forall (fun kx => reads_back (snd kx)) fields ->
  Forall (fun kx => well_formed_str (fst kx) = true
                    /\ well_formed (snd kx) = true) fields ->
  fields <> [] ->
  forall (level depth : nat) (rest : str),
    (depth_of_members fields <= depth)%nat ->
    scan_members depth (encode_members true None level fields ++ 125 :: rest)
    = Ok (fields, rest).
Proof.
  induction fields as [|[k x] l IH]; intros HP Hwf Hne level depth rest Hd;
    [contradiction|].
  inversion HP as [|? ? Hx Hl]; subst. cbn [snd] in Hx.
  apply well_formed_members in Hwf as (Hk & Hwx & Hwl).
  rewrite depth_of_members_cons in Hd. cbn [snd] in Hd.
  destruct depth as [|d]; [lia|].
  destruct l as [|ky l'].
  - rewrite encode_member_one. cbn [scan_members].
    replace (34 =? 34) with true by reflexivity.
    rewrite scan_string_encoded by assumption.
    remember (encode true None level x ++ 125 :: rest) as R eqn:ER.
    assert (HR : skip_ws R = R)
      by (subst R; now apply skip_ws_headed, headed_app, encode_headed).
    replace (skip_ws (58 :: 32 :: R)) with (58 :: 32 :: R) by reflexivity.
    replace (58 =? 58) with true by reflexivity.
    replace (skip_ws (32 :: R)) with (skip_ws R) by reflexivity.
    rewrite HR, ER.
    rewrite (Hx Hwx level d) by (lia || apply follows_brace).
    reflexivity.
  - rewrite encode_members_cons. cbn [scan_members].
    replace (34 =? 34) with true by reflexivity.
    rewrite scan_string_encoded by assumption.
    remember (encode_members true None level (ky :: l') ++ 125 :: rest)
      as T eqn:ET.
    remember (encode true None level x ++ 44 :: 32 :: T) as R eqn:ER.
    assert (HR : skip_ws R = R)
      by (subst R; now apply skip_ws_headed, headed_app, encode_headed).
    assert (HT : skip_ws T = T).
    { subst T. destruct (encode_members_quote level ky l' (125 :: rest))
        as [t ->]. reflexivity. }
    replace (skip_ws (58 :: 32 :: R)) with (58 :: 32 :: R) by reflexivity.
    replace (58 =? 58) with true by reflexivity.
    replace (skip_ws (32 :: R)) with (skip_ws R) by reflexivity.
    rewrite HR, ER.
    rewrite (Hx Hwx level d) by (lia || apply follows_comma).
    replace (skip_ws (44 :: 32 :: T)) with (44 :: 32 :: T) by reflexivity.
    replace (44 =? 125) with false by reflexivity.
    replace (44 =? 44) with true by reflexivity.
    replace (skip_ws (32 :: T)) with (skip_ws T) by reflexivity.
    rewrite HT, ET, IH; try assumption; [reflexivity|discriminate|lia].
Qed.

(** Storing pairs with distinct keys one after the other keeps them as
    they are. *)
Lemma dict_set_fresh (k : str) (v : json) (acc : dict) :
  forallb (fun kx => negb (str_eqb (fst kx) k)) acc = true ->
  dict_set k v acc = acc ++ [(k, v)].
Proof.
  induction acc as [|[k' v'] acc IH]; [reflexivity|].
  cbn [forallb fst]. intros [Hk Hacc]%andb_true_iff.
  cbn [dict_set]. apply negb_true_iff in Hk. rewrite Hk.
  cbn [app]. now rewrite IH.
Qed.

Lemma distinct_keys_app (acc : dict) (k : str) (keys : list str) :
  distinct_keys (map fst acc ++ k :: keys) = true ->
  forallb (fun kx => negb (str_eqb (fst kx) k)) acc = true.
Proof.
  induction acc as [|[k' v'] acc IH]; [reflexivity|].
  cbn [map fst app distinct_keys forallb].
  intros [Hk Hacc]%andb_true_iff. apply andb_true_iff. split; [|now apply IH].
  apply negb_true_iff in Hk. rewrite existsb_app in Hk.
  apply orb_false_iff in Hk as [_ Hk]. cbn [existsb] in Hk.
  apply orb_false_iff in Hk as [Hk _]. now rewrite Hk.
Qed.

Lemma dict_of_pairs_from (fields acc : dict) :
  distinct_keys (map fst (acc ++ fields)) = true ->
  fold_left (fun d kv => dict_set (fst kv) (snd kv) d) fields acc
  = acc ++ fields.
Proof.
  revert acc. induction fields as [|[k v] fields IH]; intros acc Hd.
  - now rewrite app_nil_r.
  - cbn [fold_left fst snd].
    rewrite dict_set_fresh.
    + rewrite IH; rewrite <- app_assoc; [reflexivity|exact Hd].
    + rewrite map_app in Hd. exact (distinct_keys_app _ _ _ Hd).
Qed.

Lemma dict_of_pairs_distinct (fields : dict) :
  distinct_keys (map fst fields) = true -> dict_of_pairs fields = fields.
Proof. intros H. exact (dict_of_pairs_from fields [] H). Qed.

Lemma encode_array_app (level : nat) (x : json) (l : list json) (r : str) :
  encode true None level (JArr (x :: l)) ++ r
  = 91 :: (encode_items true None (S level) (x :: l) ++ 93 :: r).
Proof.
  rewrite encode_array. cbn [newline_indent app].
  now rewrite <- app_assoc.
Qed.

Lemma encode_object_app (level : nat) (kx : str * json)
      (l : list (str * json)) (r : str) :
  encode true None level (JObj (kx :: l)) ++ r
  = 123 :: (encode_members true None (S level) (kx :: l) ++ 125 :: r).
Proof.
  rewrite encode_object. cbn [newline_indent app].
  now rewrite <- app_assoc.
Qed.

Lemma scan_once_encoded (v : json) : reads_back v.
Proof.
  induction v as [|b|z|literal|s|items IH|fields IH] using json_induction;
    intros Hwf level depth rest Hd Hf.
  - destruct depth; [cbn in Hd; lia|reflexivity].
  - destruct depth; [cbn in Hd; lia|]. destruct b; reflexivity.
  - destruct depth; [cbn in Hd; lia|]. now apply scan_once_int.
  - destruct depth; [cbn in Hd; lia|]. now apply scan_once_float.
  - destruct depth; [cbn in Hd; lia|].
    cbn [encode]. rewrite encode_str_app. cbn [scan_once].
    replace (34 =? 34) with true by reflexivity.
    now rewrite scan_string_encoded.
  - rewrite depth_of_array in Hd.
    destruct depth as [|d]; [lia|].
    destruct items as [|x l]; [reflexivity|].
    cbn [well_formed] in Hwf.
    pose proof (scan_items_encoded (x :: l) IH Hwf ltac:(discriminate)
                  (S level) d rest ltac:(lia)) as E.
    assert (Hh : headed (encode_items true None (S level) (x :: l)
                         ++ 93 :: rest))
      by now apply headed_app, encode_items_headed.
    rewrite encode_array_app.
    remember (encode_items true None (S level) (x :: l) ++ 93 :: rest)
      as R eqn:ER.
    cbn [scan_once].
    replace (91 =? 34) with false by reflexivity.
    replace (91 =? 123) with false by reflexivity.
    replace (91 =? 91) with true by reflexivity.
    rewrite (skip_ws_headed _ Hh).
    destruct (headed_cons _ Hh) as (c & t & Ec & Hc & _).
    rewrite Ec in *. rewrite Hc, E. reflexivity.
  - rewrite depth_of_object in Hd.
    destruct depth as [|d]; [lia|].
    destruct fields as [|kx l]; [reflexivity|].
    apply well_formed_object in Hwf as [Hdist Hwf].
    pose proof (scan_members_encoded (kx :: l) IH Hwf ltac:(discriminate)
                  (S level) d rest ltac:(lia)) as E.
    rewrite encode_object_app.
    destruct (encode_members_quote (S level) kx l (125 :: rest)) as [t Et].
    rewrite Et in *.
    cbn [scan_once].
    replace (123 =? 34) with false by reflexivity.
    replace (123 =? 123) with true by reflexivity.
    replace (skip_ws (34 :: t)) with (34 :: t) by reflexivity.
    replace (34 =? 125) with false by reflexivity.
    enough (Hs : forall X,
               X = Ok (kx :: l, rest) ->
               match X with
               | Ok (ps, r) => Ok (JObj (dict_of_pairs ps), r)
               | Raise e => Raise e
               end = Ok (JObj (kx :: l), rest))
      by (apply Hs; exact E).
    intros X ->. now rewrite dict_of_pairs_distinct.
Qed.

Lemma items_fit (items : list json) :
  Forall fits items -> forallb well_formed items = true ->
  forall level : nat,
    (depth_of_items items
     <= length (encode_items true None level items) + 1)%nat.
Proof.
  induction items as [|x l IH]; intros HP Hwf level; [cbn; lia|].
  inversion HP as [|? ? Hx Hl]; subst.
  cbn [forallb] in Hwf. apply andb_true_iff in Hwf as [Hwx Hwl].
  rewrite depth_of_items_cons.
  specialize (Hx Hwx level). specialize (IH Hl Hwl level).
  destruct l as [|y l'].
  - cbn [encode_items]. cbn in *. lia.
  - rewrite <- (app_nil_r (encode_items true None level (x :: y :: l'))).
    rewrite encode_items_cons, app_nil_r, length_app. cbn [length]. lia.
Qed.

Lemma members_fit (fields : list (str * json)) :
  Forall (fun kx => fits (snd kx)) fields ->
  Forall (fun kx => well_formed_str (fst kx) = true
                    /\ well_formed (snd kx) = true) fields ->
  forall level : nat,
    (depth_of_members fields
     <= length (encode_members true None level fields) + 1)%nat.
Proof.
  induction fields as [|[k x] l IH]; intros HP Hwf level; [cbn; lia|].
  inversion HP as [|? ? Hx Hl]; subst. cbn [snd] in Hx.
  apply well_formed_members in Hwf as (Hk & Hwx & Hwl).
  rewrite depth_of_members_cons. cbn [snd].
  specialize (Hx Hwx level). specialize (IH Hl Hwl level).
  destruct l as [|ky l'].
  - rewrite <- (app_nil_r (encode_members true None level [(k, x)])).
    rewrite encode_member_one, app_nil_r.
    cbn [length]. rewrite length_app. cbn [length].
    change (depth_of_members []) with O. lia.
  - rewrite <- (app_nil_r (encode_members true None level ((k, x) :: ky :: l'))).
    rewrite encode_members_cons, app_nil_r.
    cbn [length]. rewrite length_app. cbn [length].
    rewrite length_app. cbn [length]. lia.
Qed.

Lemma depth_fits (v : json) : fits v.
Proof.
  induction v as [|b|z|literal|s|items IH|fields IH] using json_induction;
    intros Hwf level.
  - cbn. lia.
  - destruct b; cbn; lia.
  - cbn [encode depth_of].
    destruct (str_of_int_shape z) as [(c & t & -> & _) | (c & t & -> & _)];
      cbn [length]; lia.
  - apply finite_float_scan, scan_number_head in Hwf.
    cbn [encode depth_of].
    destruct Hwf as [(c & t & -> & _) | (c & t & -> & _)]; cbn [length]; lia.
  - cbn [encode depth_of]. unfold encode_str. cbn [length]. lia.
  - rewrite depth_of_array. destruct items as [|x l]; [cbn; lia|].
    rewrite encode_array. cbn [newline_indent app length].
    rewrite length_app. cbn [length].
    cbn [well_formed] in Hwf.
    pose proof (items_fit (x :: l) IH Hwf (S level)). lia.
  - rewrite depth_of_object. destruct fields as [|kx l]; [cbn; lia|].
    rewrite encode_object. cbn [newline_indent app length].
    rewrite length_app. cbn [length].
    apply well_formed_object in Hwf as [_ Hwf].
    pose proof (members_fit (kx :: l) IH Hwf (S level)). lia.
Qed.

(** [json.loads(json.dumps(v))] is [v]. *)
Lemma decode_dumps (v : json) :
  well_formed v = true -> decode (dumps v) = Ok v.
Proof.
  intros Hwf. unfold decode, dumps.
  rewrite (skip_ws_headed _ (encode_headed O v Hwf)).
  pose proof (scan_once_encoded v Hwf O
                (S (length (encode true None O v))) []) as E.
  rewrite app_nil_r in E. rewrite E; [reflexivity| |exact I].
  pose proof (depth_fits v Hwf O). lia.
Qed.

End JsonFacts.

(* ----------------------------------------------------------------- *)
(** ** [parse_json_response]: the round trip *)

(** C9.  For every well-formed record, a mapping with distinct field names
    whose strings hold Unicode scalar values and whose values are null,
    booleans, integers, finite floats, strings, lists and mappings of the
    same, [parse_json_response] applied to [json.dumps] of the record
    returns the record. *)
Theorem parse_json_response_round_trip (x : dict) :
  well_formed_record x = true ->
  parse_json_response (JStr (dumps (JObj x))) = Ok (JObj x).
Proof.
  intros Hwf. unfold parse_json_response, loads, try_except.
  now rewrite (JsonFacts.decode_dumps (JObj x) Hwf).
Qed.

Lemma parse_json_response_round_trip_witness :
  well_formed_record Demo.sample_record = true /\
  parse_json_response (JStr (dumps (JObj Demo.sample_record)))
  = Ok (JObj Demo.sample_record).
Proof.
  split; [reflexivity|].
  apply parse_json_response_round_trip. reflexivity.
Defined.

Example finite_float_ex :
  map finite_float
      [u "1.5"; u "-0.0"; u "1e+16"; u "2.5e-05"; u "1"; u "1."; u "NaN";
       u "Infinity"]
  = [true; true; true; true; false; false; false; false].
Proof. reflexivity. Qed.

Example dumps_sample :
  dumps (JObj [(u "名", JStr (u "甲")); (u "n", JArr [JInt 1; JNull])])
  = jq "{'\u540d': '\u7532', 'n': [1, null]}".
Proof. reflexivity. Qed.

(* ----------------------------------------------------------------- *)
(** ** [MCPServer]: requests and tool calls *)

Section McpFacts.

Context {World Proc : Type} (sys : Mcp.os World Proc).

(** Under the laws of the clock, [poll] computes an outcome of the loop of
    [_send_request]: its bound on the rounds is never what ends the loop. *)
Lemma poll_runs_the_loop (laws : Mcp.clock_laws sys) (p : Proc)
      (start_time timeout_ms : Z) :
  forall (rounds : nat) (w : World),
    (timeout_ms - (Mcp.clock sys w - start_time) <= 100 * Z.of_nat rounds)%Z ->
    Mcp.polls sys p start_time timeout_ms w
              (Mcp.poll sys p rounds start_time timeout_ms w).
Proof.
  destruct laws as [Hreadable Hreadline Hsleep].
  induction rounds as [|rounds IH]; intros w Hleft.
  - apply Mcp.polls_deadline. apply Z.ltb_ge. lia.
  - cbn [Mcp.poll].
    destruct (Mcp.clock sys w - start_time <? timeout_ms)%Z eqn:Hnow;
      [|now apply Mcp.polls_deadline].
    pose proof (Hreadable p w) as H1.
    destruct (Mcp.stdout_readable sys p w) as [[[|]|e] w1] eqn:R;
      cbn [snd] in H1.
    + pose proof (Hreadline p w1) as H2.
      destruct (Mcp.stdout_readline sys p w1) as [[[|c line]|e] w2] eqn:L;
        cbn [snd] in H2.
      * eapply Mcp.polls_no_line; eauto.
        apply IH. pose proof (Hsleep w2). lia.
      * eapply Mcp.polls_line; eauto.
      * eapply Mcp.polls_readline_raises; eauto.
    + eapply Mcp.polls_not_readable; eauto.
      apply IH. pose proof (Hsleep w1). lia.
    + eapply Mcp.polls_readable_raises; eauto.
Qed.

(** The loop has one outcome. *)
Lemma polls_deterministic (p : Proc) (start_time timeout_ms : Z) (w : World)
      (out1 out2 : result json * World) :
  Mcp.polls sys p start_time timeout_ms w out1 ->
  Mcp.polls sys p start_time timeout_ms w out2 ->
  out1 = out2.
Proof.
  intros Hfirst. revert out2.
  induction Hfirst; intros out2 Hother; inversion Hother; subst;
    try congruence;
    repeat match goal with
           | A : ?x = _, B : ?x = _ |- _ =>
             rewrite A in B; inversion B; subst; clear B
           end;
    try congruence; auto.
Qed.

(** With the rounds [_send_request] allows, [poll] is the loop of a request
    with a timeout of [timeout] seconds. *)
Lemma send_request_polls (laws : Mcp.clock_laws sys) (p : Proc) (timeout : Z)
      (w : World) :
  (0 <= timeout)%Z ->
  Mcp.polls sys p (Mcp.clock sys w) (1000 * timeout) w
            (Mcp.poll sys p (Z.to_nat (10 * timeout)) (Mcp.clock sys w)
                      (1000 * timeout) w).
Proof.
  intros Ht. apply poll_runs_the_loop; [assumption|]. lia.
Qed.

Lemma send_request_not_running (srv : Mcp.MCPServer Proc) (request : json)
      (timeout : Z) (w : World) :
  Mcp.process srv = None \/ Mcp.running srv = false ->
  Mcp._send_request sys srv request timeout w = (JNull, w).
Proof.
  unfold Mcp._send_request. intros [-> | ->]; [reflexivity|].
  now destruct (Mcp.process srv).
Qed.

(** The test [response and "result" in response] and the subscript that
    follows it, with every exception they raise turned into [None]. *)
Lemma result_field_result_of (response : json) :
  match Mcp.result_field response with
  | Ok (Some r) => r
  | _ => JNull
  end = Mcp.result_of response.
Proof.
  unfold Mcp.result_field, Mcp.result_of.
  destruct response as [|b|z|literal|s|items|d]; cbn [truthy].
  - reflexivity.
  - now destruct b.
  - now destruct (negb (z =? 0)%Z).
  - now destruct (negb (mantissa_is_zero literal)).
  - destruct (negb (Nat.eqb (length s) 0)); [|reflexivity].
    cbn. now destruct (contains _ s).
  - destruct (negb (Nat.eqb (length items) 0)); [|reflexivity].
    cbn. now destruct (existsb _ items).
  - destruct d as [|kv d]; [reflexivity|].
    cbn [length Nat.eqb negb Mcp.py_in Mcp.py_getitem bind].
    unfold dict_has, dict_item.
    now destruct (dict_get (u "result") (kv :: d)).
Qed.

(** X19.  [call_tool] raises nothing.  For a server that is running it returns
    the [result] member of the response when the response is a mapping
    that has one, and [None] for every other response; for a server that
    is not running it returns [None] and leaves the world alone. *)
Theorem call_tool_result_member (srv : Mcp.MCPServer Proc) (tool_name : str)
        (arguments : json) (w : World) :
  Mcp.call_tool sys srv tool_name arguments w
  = if Mcp.running srv
    then
      let sent :=
        Mcp._send_request sys srv
          (Mcp.call_tool_request (Mcp.clock sys w) tool_name arguments) 30 w in
      (Mcp.result_of (fst sent), snd sent)
    else (JNull, w).
Proof.
  unfold Mcp.call_tool. destruct (Mcp.running srv); [|reflexivity].
  cbn [negb]. cbv zeta.
  destruct (Mcp._send_request sys srv _ 30 w) as [response w'].
  cbn [fst snd]. rewrite <- result_field_result_of.
  now destruct (Mcp.result_field response) as [[r|]|e].
Qed.

End McpFacts.

(* ----------------------------------------------------------------- *)
(** ** [_send_request] when the child writes nothing *)

Section PipesFacts.

Context {World Proc : Type} (sys : Mcp.os World Proc).
Variable waits : Proc -> World -> bool.

Lemma poll_first_read_waits (p : Proc) (timeout_ms : Z) (w2 w3 : World) :
  (0 < timeout_ms)%Z ->
  Mcp.stdout_readable sys p w2 = (Ok true, w3) -> waits p w3 = true ->
  forall fuel : nat,
    Pipes.poll sys waits fuel p (Mcp.clock sys w2) timeout_ms w2 = None.
Proof.
  intros Ht Hr Hw fuel. destruct fuel as [|fuel]; [reflexivity|].
  cbn [Pipes.poll].
  replace (Mcp.clock sys w2 - Mcp.clock sys w2 <? timeout_ms)%Z with true
    by (symmetry; apply Z.ltb_lt; lia).
  now rewrite Hr, Hw.
Qed.

Lemma send_request_first_read_waits (srv : Mcp.MCPServer Proc) (p : Proc)
      (request : json) (timeout : Z) (w : World) :
  Mcp.process srv = Some p -> Mcp.running srv = true -> (0 < timeout)%Z ->
  Pipes.first_read_waits sys waits p (dumps request ++ NL) w = true ->
  forall fuel : nat,
    Pipes._send_request sys waits fuel srv request timeout w = None.
Proof.
  intros Hp Hr Ht Hw fuel. unfold Pipes._send_request. rewrite Hp, Hr.
  unfold Pipes.first_read_waits in Hw.
  destruct (Mcp.stdin_write sys p (dumps request ++ NL) w) as [[[]|e] w1];
    [|discriminate].
  destruct (Mcp.stdin_flush sys p w1) as [[[]|e] w2]; [|discriminate].
  destruct (Mcp.stdout_readable sys p w2) as [[[|]|e] w3] eqn:R;
    try discriminate.
  rewrite (poll_first_read_waits p (1000 * timeout) w2 w3) by (lia || assumption).
  reflexivity.
Qed.

(** C8.  A child that is alive, takes the request and keeps its output
    open without writing a line: the read of [_send_request] waits, so for
    every timeout the call does not return, with [None] or otherwise, and
    neither does [call_tool] above it. *)
Theorem call_tool_blocked_read (srv : Mcp.MCPServer Proc) (p : Proc)
        (w : World) :
  Mcp.process srv = Some p -> Mcp.running srv = true ->
  (forall (request : json) (timeout : Z) (fuel : nat),
      (0 < timeout)%Z ->
      Pipes.first_read_waits sys waits p (dumps request ++ NL) w = true ->
      Pipes._send_request sys waits fuel srv request timeout w = None)
  /\ (forall (tool_name : str) (arguments : json) (fuel : nat),
         Pipes.first_read_waits
           sys waits p
           (dumps (Mcp.call_tool_request (Mcp.clock sys w) tool_name arguments)
            ++ NL) w = true ->
         Pipes.call_tool sys waits fuel srv tool_name arguments w = None).
Proof.
  intros Hp Hr. split.
  - intros request timeout fuel Ht Hw.
    now apply send_request_first_read_waits with p.
  - intros tool_name arguments fuel Hw. unfold Pipes.call_tool.
    rewrite Hr. cbn [negb]. cbv zeta.
    rewrite (send_request_first_read_waits srv p _ 30 w Hp Hr) by (lia || assumption).
    reflexivity.
Qed.

(** Where no read waits, the loop ends with what [Mcp.poll] computes, and
    so do the calls. *)
Lemma poll_returns (laws : Mcp.clock_laws sys) (p : Proc)
      (start_time timeout_ms : Z) :
  (forall w, waits p w = false) ->
  forall (rounds : nat) (w : World),
    (timeout_ms - (Mcp.clock sys w - start_time) <= 100 * Z.of_nat rounds)%Z ->
    Pipes.poll sys waits (S rounds) p start_time timeout_ms w
    = Some (Mcp.poll sys p rounds start_time timeout_ms w).
Proof.
  intros Hw. destruct laws as [Hreadable Hreadline Hsleep].
  induction rounds as [|rounds IH]; intros w Hleft.
  - cbn [Pipes.poll Mcp.poll].
    replace (Mcp.clock sys w - start_time <? timeout_ms)%Z with false
      by (symmetry; apply Z.ltb_ge; lia).
    reflexivity.
  - remember (S rounds) as fuel eqn:Ef. cbn [Pipes.poll]. subst fuel.
    cbn [Mcp.poll].
    destruct (Mcp.clock sys w - start_time <? timeout_ms)%Z eqn:Hnow;
      [|reflexivity].
    pose proof (Hreadable p w) as H1.
    destruct (Mcp.stdout_readable sys p w) as [[[|]|e] w1]; cbn [snd] in H1.
    + rewrite Hw. pose proof (Hreadline p w1) as H2.
      destruct (Mcp.stdout_readline sys p w1) as [[[|c line]|e] w2];
        cbn [snd] in H2; try reflexivity.
      apply IH. pose proof (Hsleep w2). lia.
    + apply IH. pose proof (Hsleep w1). lia.
    + reflexivity.
Qed.

Lemma send_request_returns (laws : Mcp.clock_laws sys)
      (srv : Mcp.MCPServer Proc) (request : json) (timeout : Z) (w : World) :
  (forall p w', waits p w' = false) -> (0 <= timeout)%Z ->
  Pipes._send_request sys waits (S (Z.to_nat (10 * timeout))) srv request
                      timeout w
  = Some (Mcp._send_request sys srv request timeout w).
Proof.
  intros Hw Ht. unfold Pipes._send_request, Mcp._send_request.
  destruct (Mcp.process srv) as [p|]; [|reflexivity].
  destruct (Mcp.running srv); [|reflexivity].
  destruct (Mcp.stdin_write sys p (dumps request ++ NL) w) as [[[]|e] w1];
    [|reflexivity].
  destruct (Mcp.stdin_flush sys p w1) as [[[]|e] w2]; [|reflexivity].
  rewrite (poll_returns laws p _ _ (Hw p)) by lia.
  now destruct (Mcp.poll sys p _ _ _ w2) as [[response|e] w3].
Qed.

End PipesFacts.

Lemma call_tool_blocked_read_witness :
  Pipes.call_tool Demo.scripted_os Demo.stalled 1000 Demo.running_server
                  (u "brave_web_search") (JObj [(u "query", JStr (u "acme"))])
                  (0%Z, [])
  = None.
Proof.
  apply (proj2 (call_tool_blocked_read
                  Demo.scripted_os Demo.stalled Demo.running_server tt
                  (0%Z, []) eq_refl eq_refl)).
  reflexivity.
Defined.

Example eof_os_laws : Mcp.clock_laws Demo.eof_os.
Proof. split; intros; cbn; lia. Qed.

Example scripted_os_laws : Mcp.clock_laws Demo.scripted_os.
Proof.
  split; intros; cbn; try lia.
  destruct w as [now [|line script]]; cbn; lia.
Qed.

Example call_tool_timeout :
  Mcp.call_tool Demo.eof_os Demo.running_server (u "brave_web_search")
                (JObj [(u "query", JStr (u "acme"))]) 0%Z
  = (JNull, 30000%Z).
Proof. vm_compute. reflexivity. Qed.

Example call_tool_answer :
  fst (Mcp.call_tool Demo.scripted_os Demo.running_server (u "brave_web_search")
                     (JObj [(u "query", JStr (u "acme"))])
                     (0%Z, [jq "{'id': 7, 'result': {'content': 'acme.example'}}" ++ NL]))
  = JObj [(u "content", JStr (u "acme.example"))].
Proof. vm_compute. reflexivity. Qed.

(* ----------------------------------------------------------------- *)
(** ** The clients: [is_enabled] and [enhance_prompt] *)

Section McpClientFacts.

Context {World Proc : Type} (sys : Mcp.os World Proc).

Lemma list_tools_keeps (srv : Mcp.MCPServer Proc) (w : World) :
  Mcp.running (fst (Mcp._list_tools sys srv w)) = Mcp.running srv /\
  Mcp.config (fst (Mcp._list_tools sys srv w)) = Mcp.config srv.
Proof.
  unfold Mcp._list_tools.
  destruct (Mcp._send_request sys srv Mcp.list_tools_request 10 w)
    as [response w'].
  now destruct (bind _ _) as [[t|]|e].
Qed.

Lemma initialize_keeps (srv : Mcp.MCPServer Proc) (w : World) :
  Mcp.running (fst (Mcp._initialize sys srv w)) = Mcp.running srv /\
  Mcp.config (fst (Mcp._initialize sys srv w)) = Mcp.config srv.
Proof.
  unfold Mcp._initialize.
  destruct (Mcp._send_request sys srv Mcp.initialize_request 10 w)
    as [response w'].
  destruct (bind _ _) as [[|]|e]; try (split; reflexivity).
  apply list_tools_keeps.
Qed.

(** A server that [start] reports as started is running, with the entry it
    was made from, and the entry is enabled. *)
Lemma start_started (srv srv' : Mcp.MCPServer Proc) (w w' : World) :
  Mcp.start sys srv w = (true, srv', w') ->
  Mcp.running srv' = true /\ Mcp.config srv' = Mcp.config srv /\
  truthy (Mcp.sv_enabled (Mcp.config srv)) = true.
Proof.
  unfold Mcp.start.
  destruct (truthy (Mcp.sv_enabled (Mcp.config srv))); [|discriminate].
  destruct (truthy (Mcp.sv_command (Mcp.config srv))); [|discriminate].
  cbn [negb].
  destruct (Mcp.popen sys _ _ _ w) as [[p|e] w1]; [|discriminate].
  match goal with
  | |- context [Mcp._initialize sys ?s w1] =>
    pose proof (initialize_keeps s w1) as [Hr Hc];
      destruct (Mcp._initialize sys s w1) as [srv2 w2]
  end.
  cbn [fst] in Hr, Hc. intros [= <- <-]. auto.
Qed.

Lemma servers_set_Forall (Q : Mcp.MCPServer Proc -> Prop) (key : option str)
      (srv : Mcp.MCPServer Proc) (l : list (option str * Mcp.MCPServer Proc)) :
  Q srv -> Forall (fun ks => Q (snd ks)) l ->
  Forall (fun ks => Q (snd ks)) (Mcp.servers_set key srv l).
Proof.
  intros Hsrv. induction 1 as [|[k s] l Hs Hl IH]; cbn [Mcp.servers_set].
  - now constructor.
  - destruct (Mcp.key_eqb k key); constructor; auto.
Qed.

Lemma servers_set_not_empty (key : option str) (srv : Mcp.MCPServer Proc)
      (l : list (option str * Mcp.MCPServer Proc)) :
  Mcp.servers_set key srv l <> [].
Proof.
  destruct l as [|[k s] l]; cbn [Mcp.servers_set]; [discriminate|].
  destruct (Mcp.key_eqb k key); discriminate.
Qed.

(** Every server [_initialize_servers] keeps was started from an enabled
    entry of the list. *)
Lemma initialize_servers_started (all : list Mcp.server_config) :
  forall (entries : list Mcp.server_config)
         (acc : list (option str * Mcp.MCPServer Proc)) (w : World),
    incl entries all ->
    Forall (fun ks => Mcp.running (snd ks) = true
                      /\ In (Mcp.config (snd ks)) all
                      /\ truthy (Mcp.sv_enabled (Mcp.config (snd ks))) = true)
           acc ->
    Forall (fun ks => Mcp.running (snd ks) = true
                      /\ In (Mcp.config (snd ks)) all
                      /\ truthy (Mcp.sv_enabled (Mcp.config (snd ks))) = true)
           (fst (Mcp._initialize_servers sys entries acc w)).
Proof.
  induction entries as [|cfg entries IH]; intros acc w Hincl Hacc;
    [exact Hacc|].
  assert (Hin : In cfg all) by (apply Hincl; now left).
  assert (Hrest : incl entries all)
    by (intros x Hx; apply Hincl; now right).
  cbn [Mcp._initialize_servers].
  destruct (truthy (Mcp.sv_enabled cfg)) eqn:Hen; [|now apply IH].
  destruct (Mcp.start sys (Mcp.new_server (Mcp.sv_name cfg) cfg) w)
    as [[[|] srv] w'] eqn:Hstart; [|now apply IH].
  apply start_started in Hstart as (Hr & Hc & _). cbn [Mcp.new_server Mcp.config] in Hc.
  apply IH; [assumption|].
  apply (servers_set_Forall
           (fun s => Mcp.running s = true /\ In (Mcp.config s) all
                     /\ truthy (Mcp.sv_enabled (Mcp.config s)) = true));
    [|assumption].
  rewrite Hc. auto.
Qed.

Lemma new_MCPClient_enabled (cfg : Mcp.mcp_config) (w : World) :
  Mcp.enabled (fst (Mcp.new_MCPClient sys cfg w)) = Mcp.enable_mcp cfg.
Proof.
  unfold Mcp.new_MCPClient. destruct (truthy (Mcp.enable_mcp cfg)).
  - now destruct (Mcp._initialize_servers sys (Mcp.mcp_servers cfg) [] w).
  - reflexivity.
Qed.

Lemma MCPClient_is_enabled_truthy (c : Mcp.MCPClient Proc) :
  truthy (Mcp.MCPClient_is_enabled c)
  = truthy (Mcp.enabled c) && negb (Nat.eqb (length (Mcp.servers c)) 0).
Proof.
  unfold Mcp.MCPClient_is_enabled.
  destruct (truthy (Mcp.enabled c)) eqn:E; [|now rewrite E].
  cbn [truthy andb]. now destruct (Mcp.servers c).
Qed.

(** C5.  [MCPClient.is_enabled()] is true exactly when the flag is set and
    the client holds a server, and every server it holds was started from
    an enabled entry of [mcp_servers] and is running.  [create_mcp_client]
    hands out that client when it is enabled and a [SimpleMCPClient]
    otherwise, and [is_enabled()] of the client handed out is true exactly
    when the flag is set. *)
Theorem create_mcp_client_is_enabled (cfg : Mcp.mcp_config) (w : World) :
  let full := fst (Mcp.new_MCPClient sys cfg w) in
  let client := fst (Mcp.create_mcp_client sys cfg w) in
  truthy (Mcp.MCPClient_is_enabled full)
  = truthy (Mcp.enable_mcp cfg)
    && negb (Nat.eqb (length (Mcp.servers full)) 0)
  /\ Forall (fun ks => Mcp.running (snd ks) = true
                       /\ In (Mcp.config (snd ks)) (Mcp.mcp_servers cfg)
                       /\ truthy (Mcp.sv_enabled (Mcp.config (snd ks))) = true)
            (Mcp.servers full)
  /\ client = (if truthy (Mcp.MCPClient_is_enabled full)
               then Mcp.Full full
               else Mcp.Simple (Mcp.new_SimpleMCPClient cfg))
  /\ truthy (Mcp.is_enabled client) = truthy (Mcp.enable_mcp cfg).
Proof.
  cbv zeta.
  assert (H1 : truthy (Mcp.MCPClient_is_enabled (fst (Mcp.new_MCPClient sys cfg w)))
               = truthy (Mcp.enable_mcp cfg)
                 && negb (Nat.eqb (length (Mcp.servers
                                             (fst (Mcp.new_MCPClient sys cfg w)))) 0))
    by now rewrite MCPClient_is_enabled_truthy, new_MCPClient_enabled.
  assert (H3 : fst (Mcp.create_mcp_client sys cfg w)
               = (if truthy (Mcp.MCPClient_is_enabled
                               (fst (Mcp.new_MCPClient sys cfg w)))
                  then Mcp.Full (fst (Mcp.new_MCPClient sys cfg w))
                  else Mcp.Simple (Mcp.new_SimpleMCPClient cfg))).
  { unfold Mcp.create_mcp_client.
    destruct (Mcp.new_MCPClient sys cfg w) as [c w']. cbn [fst].
    now destruct (truthy (Mcp.MCPClient_is_enabled c)). }
  repeat split.
  - exact H1.
  - unfold Mcp.new_MCPClient.
    destruct (truthy (Mcp.enable_mcp cfg)); [|constructor].
    pose proof (initialize_servers_started (Mcp.mcp_servers cfg)
                  (Mcp.mcp_servers cfg) [] w (incl_refl _) (Forall_nil _)) as H.
    now destruct (Mcp._initialize_servers sys (Mcp.mcp_servers cfg) [] w).
  - exact H3.
  - rewrite H3, H1.
    destruct (truthy (Mcp.enable_mcp cfg)) eqn:Hflag; cbn [andb].
    + destruct (negb _) eqn:Hsome; cbn [Mcp.is_enabled].
      * now rewrite H1.
      * exact Hflag.
    + exact Hflag.
Qed.

(** C10.  Whatever the client and its state, the prompt [enhance_prompt]
    returns starts with the prompt it was given. *)
Theorem enhance_prompt_appends (c : Mcp.mcp_client Proc) (prompt : str)
        (w : World) :
  exists suffix : str,
    fst (Mcp.enhance_prompt sys c prompt w) = prompt ++ suffix.
Proof.
  assert (Hsame : exists suffix : str, prompt = prompt ++ suffix)
    by (exists []; now rewrite app_nil_r).
  destruct c as [c|c]; cbn [Mcp.enhance_prompt fst].
  - unfold Mcp.MCPClient_enhance_prompt.
    destruct (negb (truthy (Mcp.MCPClient_is_enabled c))); [exact Hsame|].
    destruct (contains (u "公司") prompt || contains (u "企业") prompt);
      [|exact Hsame].
    destruct (Re.search Mcp.company_name_re prompt) as [m|]; [|exact Hsame].
    destruct (Mcp.MCPClient_search_web sys c _ w) as [[[|ch rest]|] w'];
      try exact Hsame.
    now exists (Mcp.search_block (ch :: rest)).
  - unfold Mcp.SimpleMCPClient_enhance_prompt.
    destruct (negb (truthy (Mcp.SimpleMCPClient_is_enabled c)));
      [exact Hsame|].
    now exists Mcp.search_hint.
Qed.

End McpClientFacts.

Section EnhancePrompt.

Context {World Proc : Type} (sys : Mcp.os World Proc).

Lemma no_servers_not_enabled (c : Mcp.MCPClient Proc) :
  Mcp.servers c = [] -> truthy (Mcp.MCPClient_is_enabled c) = false.
Proof.
  intros H. rewrite MCPClient_is_enabled_truthy, H. apply andb_false_r.
Qed.

Lemma search_web_no_server (c : Mcp.MCPClient Proc) (query : str) (w : World) :
  Mcp.servers_get (Some (u "web_search")) (Mcp.servers c) = None ->
  fst (Mcp.MCPClient_search_web sys c query w) = None.
Proof.
  intros H. unfold Mcp.MCPClient_search_web. rewrite H.
  now destruct (negb (truthy (Mcp.MCPClient_is_enabled c))).
Qed.

Lemma search_web_failed_call (c : Mcp.MCPClient Proc)
      (srv : Mcp.MCPServer Proc) (query : str) (w : World) :
  Mcp.servers_get (Some (u "web_search")) (Mcp.servers c) = Some srv ->
  fst (Mcp.call_tool sys srv (u "brave_web_search")
         (JObj [(u "query", JStr query); (u "count", JInt 5)]) w) = JNull ->
  fst (Mcp.MCPClient_search_web sys c query w) = None.
Proof.
  intros Hsrv Hcall. unfold Mcp.MCPClient_search_web. rewrite Hsrv.
  destruct (negb (truthy (Mcp.MCPClient_is_enabled c))); [reflexivity|].
  destruct (Mcp.call_tool sys srv _ _ w) as [found w'].
  cbn [fst] in Hcall. now subst found.
Qed.

(** C6.  [MCPClient.enhance_prompt] returns the prompt as it is when the
    client is not enabled, which is the case when it holds no server, when
    the prompt has no match of the label pattern, and when the web search
    gives nothing, as it does without a [web_search] server and when the
    tool call gives [None]; in every other case it returns the prompt
    followed by a block that holds the first 1000 characters of the search
    result.  [SimpleMCPClient.enhance_prompt] returns the prompt as it is
    when the flag is not set, and the prompt followed by a fixed hint when
    it is. *)
Theorem enhance_prompt_cases (full : Mcp.MCPClient Proc)
        (simple : Mcp.SimpleMCPClient) (prompt : str) (w : World) :
  let out := fst (Mcp.enhance_prompt sys (Mcp.Full full) prompt w) in
  let query m := strip (Re.group 1 m) ++ u " 公司信息 官网" in
  (truthy (Mcp.MCPClient_is_enabled full) = false -> out = prompt)
  /\ (Mcp.servers full = [] -> out = prompt)
  /\ (Re.search Mcp.company_name_re prompt = None -> out = prompt)
  /\ (forall m,
         Re.search Mcp.company_name_re prompt = Some m ->
         fst (Mcp.MCPClient_search_web sys full (query m) w) = None ->
         out = prompt)
  /\ (forall text,
         Mcp.servers_get (Some (u "web_search")) (Mcp.servers full) = None ->
         fst (Mcp.MCPClient_search_web sys full text w) = None)
  /\ (forall text srv,
         Mcp.servers_get (Some (u "web_search")) (Mcp.servers full) = Some srv ->
         fst (Mcp.call_tool sys srv (u "brave_web_search")
                (JObj [(u "query", JStr text); (u "count", JInt 5)]) w) = JNull ->
         fst (Mcp.MCPClient_search_web sys full text w) = None)
  /\ (out = prompt
      \/ exists m text,
          Re.search Mcp.company_name_re prompt = Some m
          /\ fst (Mcp.MCPClient_search_web sys full (query m) w) = Some text
          /\ out = prompt ++ NL ++ NL ++ u "【实时搜索结果】" ++ NL
                   ++ firstn 1000 text
                   ++ NL ++ NL ++ u "请结合以上搜索结果回答。")
  /\ fst (Mcp.enhance_prompt sys (Mcp.Simple simple) prompt w)
     = (if truthy (Mcp.smc_enabled simple)
        then prompt ++ Mcp.search_hint
        else prompt).
Proof.
  cbv zeta. cbn [Mcp.enhance_prompt fst].
  assert (Hoff : truthy (Mcp.MCPClient_is_enabled full) = false ->
                 fst (Mcp.MCPClient_enhance_prompt sys full prompt w) = prompt).
  { intros H. unfold Mcp.MCPClient_enhance_prompt. now rewrite H. }
  repeat split.
  - exact Hoff.
  - intros H. now apply Hoff, no_servers_not_enabled.
  - intros H. unfold Mcp.MCPClient_enhance_prompt. rewrite H.
    destruct (negb _); [reflexivity|]. now destruct (_ || _).
  - intros m Hm Hnone. unfold Mcp.MCPClient_enhance_prompt. rewrite Hm.
    destruct (negb _); [reflexivity|]. destruct (_ || _); [|reflexivity].
    destruct (Mcp.MCPClient_search_web sys full _ w) as [found w'].
    cbn [fst] in Hnone. now subst found.
  - intros text. apply search_web_no_server.
  - intros text srv. apply search_web_failed_call.
  - unfold Mcp.MCPClient_enhance_prompt.
    destruct (negb _); [now left|]. destruct (_ || _); [|now left].
    destruct (Re.search Mcp.company_name_re prompt) as [m|]; [|now left].
    destruct (Mcp.MCPClient_search_web sys full _ w)
      as [[[|ch rest]|] w'] eqn:Hfound; try (now left).
    right. exists m, (ch :: rest). rewrite Hfound.
    repeat split.
  - unfold Mcp.SimpleMCPClient_enhance_prompt, Mcp.SimpleMCPClient_is_enabled.
    now destruct (truthy (Mcp.smc_enabled simple)).
Qed.

End EnhancePrompt.

Lemma enhance_prompt_cases_witness :
  fst (Mcp.enhance_prompt Demo.scripted_os (Mcp.Full Demo.ready_client)
                          (u "Describe the firm") (snd Demo.ready))
  = u "Describe the firm".
Proof.
  apply (proj1 (proj2 (proj2 (enhance_prompt_cases
                                Demo.scripted_os Demo.ready_client
                                (Mcp.new_SimpleMCPClient Demo.flag_only)
                                (u "Describe the firm") (snd Demo.ready))))).
  reflexivity.
Defined.

(** The flag set and no server configured: no server is started, and the
    client handed out reports that it is enabled. *)
Lemma is_enabled_without_servers :
  Mcp.servers (fst (Mcp.new_MCPClient Demo.eof_os Demo.flag_only 0%Z)) = []
  /\ Mcp.is_enabled
       (fst (Mcp.create_mcp_client Demo.eof_os Demo.flag_only 0%Z))
     = JBool true.
Proof. split; reflexivity. Qed.

(** The flag set and no server running: the prompt comes back with the
    hint after it. *)
Lemma enhance_prompt_without_servers :
  Mcp.servers (fst (Mcp.new_MCPClient Demo.eof_os Demo.flag_only 0%Z)) = []
  /\ fst (Mcp.enhance_prompt
            Demo.eof_os
            (fst (Mcp.create_mcp_client Demo.eof_os Demo.flag_only 0%Z))
            Demo.company_prompt 0%Z)
     = Demo.company_prompt ++ Mcp.search_hint
  /\ fst (Mcp.enhance_prompt
            Demo.eof_os
            (fst (Mcp.create_mcp_client Demo.eof_os Demo.flag_only 0%Z))
            Demo.company_prompt 0%Z)
     <> Demo.company_prompt.
Proof.
  split; [reflexivity|]. split; [reflexivity|].
  intros H. apply (f_equal (@length char)) in H. vm_compute in H.
  discriminate H.
Qed.

Example ready_is_full :
  fst Demo.ready = Mcp.Full Demo.ready_client
  /\ Mcp.is_enabled (fst Demo.ready) = JBool true.
Proof. split; vm_compute; reflexivity. Qed.

Example enhance_prompt_search :
  fst (Mcp.enhance_prompt Demo.scripted_os (fst Demo.ready)
                          Demo.company_prompt (snd Demo.ready))
  = Demo.company_prompt ++ Mcp.search_block (u "acme.example").
Proof. vm_compute. reflexivity. Qed.

Example enhance_prompt_timeout :
  fst (Mcp.enhance_prompt Demo.scripted_os (fst Demo.ready)
                          Demo.company_prompt (0%Z, []))
  = Demo.company_prompt.
Proof. vm_compute. reflexivity. Qed.

(* ----------------------------------------------------------------- *)
(** ** [_parse_ai_response]: responses that name several companies *)

Section ParseResponse.

Variable rt : runtime.

Lemma collect_sections (sections : list str) (acc : list OpenAI.company) :
  fold_left
    (fun companies section_text =>
       match strip section_text with
       | [] => companies
       | _ =>
         let company_data := OpenAI._parse_single_company_section section_text in
         if negb (str_eqb (OpenAI.full_name company_data) OpenAI.NA)
         then companies ++ [company_data]
         else companies
       end)
    sections acc
  = acc ++ filter OpenAI.usable
                  (map OpenAI._parse_single_company_section
                       (filter OpenAI.nonblank sections)).
Proof.
  revert acc. induction sections as [|section_text sections IH]; intros acc.
  - cbn. now rewrite app_nil_r.
  - cbn [fold_left filter]. unfold OpenAI.nonblank at 1.
    destruct (strip section_text) as [|c rest]; [apply IH|].
    cbn [map filter]. unfold OpenAI.usable at 1. cbv zeta.
    destruct (negb (str_eqb _ OpenAI.NA)); rewrite IH; [|reflexivity].
    now rewrite <- app_assoc.
Qed.

Lemma parse_multiple_companies_retained (response_text : str) :
  OpenAI._parse_multiple_companies rt response_text
  = {| OpenAI.multiple_companies := true;
       OpenAI.companies := OpenAI.retained rt response_text;
       OpenAI.count := length (OpenAI.retained rt response_text) |}.
Proof.
  unfold OpenAI._parse_multiple_companies, OpenAI.retained. cbv zeta.
  now rewrite collect_sections.
Qed.

Lemma usable_named (company_data : OpenAI.company) :
  OpenAI.usable company_data = true ->
  OpenAI.full_name company_data <> OpenAI.NA.
Proof.
  unfold OpenAI.usable, str_eqb.
  destruct (list_eq_dec N.eq_dec _ _); [discriminate|auto].
Qed.

(** C7.  [_parse_ai_response] takes the branch for several companies
    exactly when the text has a match of the marker or a match of each of
    the headers of company 1 and of company 2.  In that branch the text is
    split at the company headers, the part before the first header is left
    out, every section that is not blank is parsed on its own, and the
    companies without a name are dropped; the result has its flag set and
    its count is the number of companies kept. *)
Theorem parse_ai_response_multiple (response_text original_query : str) :
  OpenAI._parse_ai_response rt response_text original_query
  = (if OpenAI.found (Re.search (OpenAI.found_marker_re rt) response_text)
        || (OpenAI.found (Re.search OpenAI.company1_re response_text)
            && OpenAI.found (Re.search OpenAI.company2_re response_text))
     then OpenAI.Several
            {| OpenAI.multiple_companies := true;
               OpenAI.companies := OpenAI.retained rt response_text;
               OpenAI.count := length (OpenAI.retained rt response_text) |}
     else OpenAI.One (OpenAI.parse_one_company response_text original_query))
  /\ OpenAI.retained rt response_text
     = filter OpenAI.usable
              (map OpenAI._parse_single_company_section
                   (filter OpenAI.nonblank
                           (tl (Re.split (OpenAI.header_re rt) response_text))))
  /\ Forall (fun company_data => OpenAI.full_name company_data <> OpenAI.NA)
            (OpenAI.retained rt response_text).
Proof.
  split; [|split].
  - unfold OpenAI._parse_ai_response, OpenAI.is_multiple_response.
    now rewrite parse_multiple_companies_retained.
  - reflexivity.
  - unfold OpenAI.retained. apply Forall_forall.
    intros company_data [_ H]%filter_In. now apply usable_named.
Qed.

End ParseResponse.

(** Two company headers and no marker: the response is parsed as one
    company. *)
Lemma two_headers_parsed_as_one :
  length (Re.finditer (OpenAI.header_re ascii_runtime) Demo.two_headers) = 2%nat
  /\ OpenAI._parse_ai_response ascii_runtime Demo.two_headers []
     = OpenAI.One (OpenAI.parse_one_company Demo.two_headers [])
  /\ (forall m, OpenAI._parse_ai_response ascii_runtime Demo.two_headers []
                <> OpenAI.Several m).
Proof.
  assert (H : OpenAI._parse_ai_response ascii_runtime Demo.two_headers []
              = OpenAI.One (OpenAI.parse_one_company Demo.two_headers []))
    by (vm_compute; reflexivity).
  split; [vm_compute; reflexivity|]. split; [exact H|].
  intros m. rewrite H. discriminate.
Qed.

Example three_sections_parsed :
  match OpenAI._parse_ai_response ascii_runtime Demo.three_sections [] with
  | OpenAI.Several m =>
    OpenAI.multiple_companies m = true
    /\ map OpenAI.full_name (OpenAI.companies m) = [u "甲公司"; u "乙公司"]
    /\ OpenAI.count m = 2%nat
  | OpenAI.One _ => False
  end.
Proof. vm_compute. repeat split. Qed.

(* ----------------------------------------------------------------- *)
(** ** The matcher: where a match can end *)

Lemma rest_of_refl (s : str) : rest_of s s.
Proof. now exists []. Qed.

Lemma rest_of_cons (c : char) (s s' : str) : rest_of s s' -> rest_of (c :: s) s'.
Proof. intros [front ->]. now exists (c :: front). Qed.

Lemma rest_of_trans (s1 s2 s3 : str) :
  rest_of s1 s2 -> rest_of s2 s3 -> rest_of s1 s3.
Proof.
  intros [f1 ->] [f2 ->]. exists (f1 ++ f2). now rewrite app_assoc.
Qed.

Lemma rest_of_length (s s' : str) : rest_of s s' -> (length s' <= length s)%nat.
Proof. intros [front ->]. rewrite length_app. lia. Qed.

(** A successful run hands the continuation a rest of the text, and the
    groups as they were when the pattern has none. *)
Lemma run_sound {A} (r : Re.regex) :
  forall (s : str) (cs : Re.caps) (k : str -> Re.caps -> option A) (x : A),
    Re.run r s cs k = Some x ->
    exists s' cs',
      k s' cs' = Some x /\ rest_of s s' /\ (group_free r = true -> cs' = cs).
Proof.
  induction r as [| c | p | a IHa b IHb | a IHa b IHb | greedy a IHa
                  | n a IHa | ]; intros s cs k x H; cbn [Re.run] in H.
  - exists s, cs. auto using rest_of_refl.
  - destruct s as [|y s']; [discriminate|].
    destruct (y =? c); [|discriminate].
    exists s', cs. auto using rest_of_cons, rest_of_refl.
  - destruct s as [|y s']; [discriminate|].
    destruct (p y); [|discriminate].
    exists s', cs. auto using rest_of_cons, rest_of_refl.
  - apply IHa in H as (s1 & cs1 & H & R1 & G1).
    apply IHb in H as (s2 & cs2 & H & R2 & G2).
    exists s2, cs2. repeat split; eauto using rest_of_trans.
    cbn [group_free]. intros [Ga Gb]%andb_true_iff.
    now rewrite G2, G1.
  - unfold Re.orelse in H. cbn [group_free].
    destruct (Re.run a s cs k) eqn:Ha.
    + injection H as ->. apply IHa in Ha as (s1 & cs1 & H & R1 & G1).
      exists s1, cs1. repeat split; auto.
      intros [Ga Gb]%andb_true_iff. auto.
    + apply IHb in H as (s1 & cs1 & H & R1 & G1).
      exists s1, cs1. repeat split; auto.
      intros [Ga Gb]%andb_true_iff. auto.
  - cbn [group_free]. remember (length s) as fuel eqn:E. clear E.
    revert s cs x H. induction fuel as [|fuel IH]; intros s cs x H.
    + exists s, cs. auto using rest_of_refl.
    + assert (Hround :
                forall y, Re.run a s cs
                            (fun s' cs' =>
                               if (length s' <? length s)%nat
                               then (fix rounds (n : nat) (s : str) (cs : Re.caps)
                                         {struct n} : option A :=
                                       match n with
                                       | O => k s cs
                                       | S n' =>
                                         if greedy
                                         then Re.orelse
                                                (Re.run a s cs
                                                   (fun s' cs' =>
                                                      if (length s' <? length s)%nat
                                                      then rounds n' s' cs' else None))
                                                (k s cs)
                                         else Re.orelse
                                                (k s cs)
                                                (Re.run a s cs
                                                   (fun s' cs' =>
                                                      if (length s' <? length s)%nat
                                                      then rounds n' s' cs' else None))
                                       end) fuel s' cs'
                               else None) = Some y ->
                     exists s' cs',
                       k s' cs' = Some y /\ rest_of s s'
                       /\ (group_free a = true -> cs' = cs)).
      { intros y Hy. apply IHa in Hy as (s1 & cs1 & Hy & R1 & G1).
        destruct (length s1 <? length s)%nat; [|discriminate].
        apply IH in Hy as (s2 & cs2 & Hy & R2 & G2).
        exists s2, cs2. repeat split; eauto using rest_of_trans.
        intros G. now rewrite G2, G1. }
      destruct greedy; unfold Re.orelse in H.
      * match type of H with
        | match ?t with _ => _ end = _ => destruct t eqn:Hfirst
        end.
        -- injection H as ->. now apply Hround.
        -- exists s, cs. auto using rest_of_refl.
      * destruct (k s cs) eqn:Hk.
        -- injection H as ->. exists s, cs. auto using rest_of_refl.
        -- now apply Hround.
  - apply IHa in H as (s1 & cs1 & H & R1 & G1).
    exists s1, ((n, firstn (length s - length s1) s) :: cs1).
    repeat split; [exact H|exact R1|discriminate].
  - destruct s as [|c [|c' s']].
    + exists [], cs. auto using rest_of_refl.
    + destruct (c =? 10); [|discriminate].
      exists [c], cs. auto using rest_of_refl.
    + discriminate.
Qed.

(** A pattern that starts with a literal character matches only a text
    that starts with it. *)
Lemma run_first_char {A} (c : char) (r : Re.regex) (s : str) (cs : Re.caps)
      (k : str -> Re.caps -> option A) (x : A) :
  Re.run (Re.Seq (Re.Chr c) r) s cs k = Some x ->
  exists s1, s = c :: s1 /\ Re.run r s1 cs k = Some x.
Proof.
  cbn [Re.run]. destruct s as [|y s1]; [discriminate|].
  destruct (N.eqb_spec y c) as [->|]; [|discriminate].
  intros H. now exists s1.
Qed.

(** What [search] finds is a match at some place of the text. *)
Lemma search_from_match_at (r : Re.regex) (s : str) :
  forall (pos : nat) (m : Re.match_obj),
    Re.search_from r pos s = Some m ->
    exists (at_pos : nat) (s1 : str),
      rest_of s s1 /\ Re.match_at r at_pos s1 = Some m.
Proof.
  induction s as [|c s IH]; intros pos m; cbn [Re.search_from].
  - destruct (Re.match_at r pos []) eqn:E; [|discriminate].
    intros [= <-]. exists pos, []. auto using rest_of_refl.
  - destruct (Re.match_at r pos (c :: s)) eqn:E.
    + intros [= <-]. exists pos, (c :: s). auto using rest_of_refl.
    + intros H. apply IH in H as (p & s1 & R & H).
      exists p, s1. auto using rest_of_cons.
Qed.

Lemma firstn_starts (c : char) (s s' : str) :
  rest_of s s' ->
  exists t, firstn (length (c :: s) - length s') (c :: s) = c :: t.
Proof.
  intros R%rest_of_length. cbn [length].
  replace (S (length s) - length s')%nat with (S (length s - length s'))
    by lia.
  cbn [firstn]. eauto.
Qed.

(* ----------------------------------------------------------------- *)
(** ** The matcher on the patterns of the parsers

    What [Re.search] finds for the brace, bracket and fenced patterns is
    what the scans of [Fragments] find. *)

Lemma run_seq {A} (a b : Re.regex) (s : str) (cs : Re.caps)
      (k : str -> Re.caps -> option A) :
  Re.run (Re.Seq a b) s cs k
  = Re.run a s cs (fun s' cs' => Re.run b s' cs' k).
Proof. reflexivity. Qed.

Lemma run_star {A} (g : bool) (a : Re.regex) (s : str) (cs : Re.caps)
      (k : str -> Re.caps -> option A) :
  Re.run (Re.Star g a) s cs k = star_rounds g a k (length s) s cs.
Proof. reflexivity. Qed.

Lemma orelse_none_r {A} (x : option A) : Re.orelse x None = x.
Proof. now destruct x. Qed.

Lemma rounds_O {A} (g : bool) (a : Re.regex) (k : str -> Re.caps -> option A)
      (s : str) (cs : Re.caps) :
  star_rounds g a k O s cs = k s cs.
Proof. reflexivity. Qed.

Lemma rounds_S {A} (g : bool) (a : Re.regex) (k : str -> Re.caps -> option A)
      (n : nat) (s : str) (cs : Re.caps) :
  star_rounds g a k (S n) s cs
  = if g
    then Re.orelse (Re.run a s cs (fun s' cs' =>
                      if (length s' <? length s)%nat
                      then star_rounds g a k n s' cs' else None))
                   (k s cs)
    else Re.orelse (k s cs)
                   (Re.run a s cs (fun s' cs' =>
                      if (length s' <? length s)%nat
                      then star_rounds g a k n s' cs' else None)).
Proof. reflexivity. Qed.

Lemma run_cls {A} (p : char -> bool) (s : str) (cs : Re.caps)
      (k : str -> Re.caps -> option A) :
  Re.run (Re.Cls p) s cs k
  = match s with
    | c :: s' => if p c then k s' cs else None
    | [] => None
    end.
Proof. reflexivity. Qed.

Lemma run_chr {A} (c : N) (s : str) (cs : Re.caps)
      (k : str -> Re.caps -> option A) :
  Re.run (Re.Chr c) s cs k
  = match s with
    | x :: s' => if x =? c then k s' cs else None
    | [] => None
    end.
Proof. reflexivity. Qed.

Lemma shorter_tail (c : char) (s : str) :
  (length s <? length (c :: s))%nat = true.
Proof. apply Nat.ltb_lt. cbn [length]. lia. Qed.

(** A greedy run of a class, before a pattern that no character of the
    class can start, takes every character of the class there is. *)
Lemma rounds_class_greedy {A} (p : char -> bool)
      (k : str -> Re.caps -> option A) (cs : Re.caps) :
  (forall c t, p c = true -> k (c :: t) cs = None) ->
  forall (n : nat) (s : str),
    (length s <= n)%nat ->
    star_rounds true (Re.Cls p) k n s cs = k (skip p s) cs.
Proof.
  intros Hk. induction n as [|n IH]; intros s Hn.
  - destruct s; [reflexivity|cbn [length] in Hn; lia].
  - rewrite rounds_S, run_cls. destruct s as [|c s']; [reflexivity|].
    cbn [skip]. destruct (p c) eqn:Hc; [|reflexivity].
    rewrite shorter_tail, IH by (cbn [length] in Hn; lia).
    rewrite (Hk c s' Hc). apply orelse_none_r.
Qed.

Lemma run_class_greedy {A} (p : char -> bool)
      (k : str -> Re.caps -> option A) (s : str) (cs : Re.caps) :
  (forall c t, p c = true -> k (c :: t) cs = None) ->
  Re.run (Re.Star true (Re.Cls p)) s cs k = k (skip p s) cs.
Proof.
  intros Hk. rewrite run_star. now apply rounds_class_greedy.
Qed.

Section FlatObject.

Let pl : char -> bool := Re.none_of (u "{}").
Let P : Re.regex := Re.Star true (Re.Cls pl).
Let G : Re.regex :=
  Re.Seq (Re.Chr 123) (Re.Seq P (Re.Seq (Re.Chr 125) P)).

Lemma brace_object_re_shape :
  brace_object_re
  = Re.Seq (Re.Chr 123) (Re.Seq P (Re.Seq (Re.Star true G) (Re.Chr 125))).
Proof. reflexivity. Qed.

Lemma plain_spec (c : N) : pl c = negb ((c =? 123) || (c =? 125)).
Proof.
  unfold pl, Re.none_of. change (u "{}") with [123; 125].
  cbn [existsb]. now rewrite orb_false_r.
Qed.

Lemma plain_true (c : N) : pl c = true -> (c =? 123) = false /\ (c =? 125) = false.
Proof.
  rewrite plain_spec. destruct (c =? 123), (c =? 125); cbn; auto; discriminate.
Qed.

Lemma plain_false (c : N) : pl c = false -> c = 123 \/ c = 125.
Proof.
  rewrite plain_spec.
  destruct (N.eqb_spec c 123), (N.eqb_spec c 125); cbn; auto; discriminate.
Qed.

Lemma scan_flat_skip (inner : bool) (s : str) :
  scan_flat inner (skip pl s) = scan_flat inner s.
Proof.
  induction s as [|c s IH]; [reflexivity|].
  cbn [skip]. destruct (pl c) eqn:Hc; [|reflexivity].
  apply plain_true in Hc as [H1 H2]. cbn [scan_flat]. now rewrite H1, H2.
Qed.

Lemma skip_length (p : char -> bool) (s : str) :
  (length (skip p s) <= length s)%nat.
Proof.
  induction s as [|c s IH]; [reflexivity|].
  cbn [skip]. destruct (p c); cbn [length]; lia.
Qed.

Lemma skip_skip (p : char -> bool) (s : str) : skip p (skip p s) = skip p s.
Proof.
  induction s as [|c s IH]; [reflexivity|].
  cbn [skip]. destruct (p c) eqn:Hc; [exact IH|].
  cbn [skip]. now rewrite Hc.
Qed.

Lemma skip_head (p : char -> bool) (s : str) (c : char) (t : str) :
  skip p s = c :: t -> p c = false.
Proof.
  induction s as [|x s IH]; [discriminate|].
  cbn [skip]. destruct (p x) eqn:Hx; [exact IH|].
  now intros [= <- _].
Qed.

Lemma skip_tail_length (p : char -> bool) (s : str) (c : char) (t : str) :
  skip p s = c :: t -> (length t < length s)%nat.
Proof.
  intros H. pose proof (skip_length p s) as L. rewrite H in L.
  cbn [length] in L. lia.
Qed.

Section Continuation.

Context {A : Type} (kf : str -> Re.caps -> option A) (cs : Re.caps).

Let k125 : str -> Re.caps -> option A :=
  fun s cs' => Re.run (Re.Chr 125) s cs' kf.

Lemma rounds_plain_head (n : nat) (c : N) (t : str) :
  pl c = true -> star_rounds true G k125 n (c :: t) cs = None.
Proof.
  intros [H1 H2]%plain_true. destruct n as [|n].
  - rewrite rounds_O. unfold k125. rewrite run_chr. now rewrite H2.
  - rewrite rounds_S. unfold G at 1. rewrite run_seq, run_chr, H1.
    unfold k125. rewrite run_chr. now rewrite H2.
Qed.

Lemma rounds_flat :
  forall (n : nat) (t : str),
    (length t <= n)%nat -> skip pl t = t ->
    star_rounds true G k125 n t cs
    = match scan_flat false t with
      | Some rest => kf rest cs
      | None => None
      end.
Proof.
  induction n as [|n IH]; intros t Hn Ht.
  - destruct t; [reflexivity|cbn [length] in Hn; lia].
  - rewrite rounds_S. destruct t as [|c t1]; [reflexivity|].
    pose proof (skip_head pl _ _ _ Ht) as Hc.
    apply plain_false in Hc as [-> | ->].
    + (* an opening brace *)
      match goal with
      | |- Re.orelse _ ?x = _ => change x with (@None A)
      end.
      rewrite orelse_none_r. unfold G at 1.
      rewrite run_seq, run_chr. change (123 =? 123) with true. cbv iota.
      rewrite run_seq. unfold P at 1.
      rewrite run_class_greedy.
      2:{ intros c t Hc. apply plain_true in Hc as [_ H2].
          rewrite run_seq, run_chr. now rewrite H2. }
      rewrite run_seq, run_chr.
      change (scan_flat false (123 :: t1)) with (scan_flat true t1).
      rewrite <- (scan_flat_skip true t1).
      destruct (skip pl t1) as [|d t2] eqn:E; [reflexivity|].
      pose proof (skip_head pl _ _ _ E) as Hd.
      pose proof (skip_tail_length pl _ _ _ E) as Ld.
      apply plain_false in Hd as [-> | ->].
      * reflexivity.
      * change (125 =? 125) with true. cbv iota.
        change (scan_flat true (125 :: t2)) with (scan_flat false t2).
        unfold P at 1. rewrite run_class_greedy.
        2:{ intros c t Hc.
            match goal with
            | |- (if ?b then _ else _) = _ => destruct b; [|reflexivity]
            end.
            now apply rounds_plain_head. }
        pose proof (skip_length pl t2) as L2.
        match goal with
        | |- (if ?b then _ else _) = _ =>
          replace b with true
            by (symmetry; apply Nat.ltb_lt; cbn [length]; lia)
        end.
        rewrite IH.
        -- now rewrite scan_flat_skip.
        -- cbn [length] in Hn. lia.
        -- apply skip_skip.
    + (* a closing brace *)
      unfold G at 1. rewrite run_seq, run_chr.
      change (125 =? 123) with false. cbv iota.
      reflexivity.
Qed.

(** The pattern of [parse_json_response] finds at the front of a text what
    [scan_flat] finds, whatever follows the pattern. *)
Lemma run_brace_object (s : str) :
  Re.run brace_object_re s cs kf
  = match s with
    | c :: s' =>
      if c =? 123 then
        match scan_flat false s' with
        | Some rest => kf rest cs
        | None => None
        end
      else None
    | [] => None
    end.
Proof.
  rewrite brace_object_re_shape, run_seq, run_chr.
  destruct s as [|c s']; [reflexivity|].
  destruct (c =? 123); [|reflexivity].
  rewrite run_seq. unfold P at 1. rewrite run_class_greedy.
  2:{ intros x t Hx. rewrite run_seq, run_star.
      now apply rounds_plain_head. }
  rewrite run_seq, run_star.
  change (fun (s'0 : str) (cs'0 : Re.caps) => Re.run (Re.Chr 125) s'0 cs'0 kf)
    with k125.
  rewrite rounds_flat; [|reflexivity|apply skip_skip].
  now rewrite scan_flat_skip.
Qed.

End Continuation.

End FlatObject.

Lemma match_at_brace_object (pos : nat) (s : str) :
  option_map Re.m_group0 (Re.match_at brace_object_re pos s)
  = flat_object_at s.
Proof.
  unfold Re.match_at. rewrite run_brace_object. unfold flat_object_at.
  destruct s as [|c s']; [reflexivity|].
  destruct (c =? 123); [|reflexivity].
  now destruct (scan_flat false s').
Qed.

Lemma search_first_from {B} (r : Re.regex) (g : Re.match_obj -> B)
      (found : str -> option B) :
  (forall pos s, option_map g (Re.match_at r pos s) = found s) ->
  forall (text : str) (pos : nat),
    option_map g (Re.search_from r pos text) = first_from found text.
Proof.
  intros H. induction text as [|c text IH]; intros pos;
    cbn [Re.search_from first_from]; rewrite <- (H pos).
  - now destruct (Re.match_at r pos []).
  - destruct (Re.match_at r pos (c :: text)); [reflexivity|].
    cbn [option_map]. apply IH.
Qed.

Lemma search_brace_object (text : str) :
  option_map Re.m_group0 (Re.search brace_object_re text)
  = first_flat_object text.
Proof. apply search_first_from, match_at_brace_object. Qed.

Lemma scan_flat_balanced (inner : bool) (s : str) :
  scan_flat inner s = balanced 1 (if inner then 1 else 0)%nat s.
Proof.
  revert inner. induction s as [|c s IH]; intros inner; [reflexivity|].
  cbn [scan_flat balanced].
  destruct (c =? 123).
  - destruct inner; [reflexivity|]. apply (IH true).
  - destruct (c =? 125).
    + destruct inner; [|reflexivity]. apply (IH false).
    + apply IH.
Qed.

Lemma outermost_is_first_flat (text obj : str) :
  outermost_object 1 text = Some obj -> first_flat_object text = Some obj.
Proof.
  unfold outermost_object, first_flat_object.
  induction text as [|c text IH]; [discriminate|].
  cbn [skip first_from flat_object_at].
  destruct (c =? 123) eqn:Hc; cbn [negb].
  - rewrite (scan_flat_balanced false). now intros ->.
  - exact IH.
Qed.

Lemma lstrip_skip (s : str) : lstrip s = skip is_space s.
Proof.
  induction s as [|c s IH]; [reflexivity|].
  cbn [lstrip skip]. now rewrite IH.
Qed.

Lemma run_lit {A} (p : str) :
  forall (s : str) (cs : Re.caps) (k : str -> Re.caps -> option A),
    Re.run (Re.lit p) s cs k
    = match after p s with
      | Some rest => k rest cs
      | None => None
      end.
Proof.
  unfold after. induction p as [|c p IH]; intros s cs k; [reflexivity|].
  assert (Hone :
            Re.run (Re.Chr c) s cs (fun s' cs' => Re.run (Re.lit p) s' cs' k)
            = (if startswith (c :: p) s
               then k (skipn (length (c :: p)) s) cs else None)).
  { rewrite run_chr. destruct s as [|x s']; [reflexivity|].
    cbn [startswith length skipn]. rewrite (N.eqb_sym c x).
    destruct (x =? c); [|reflexivity]. cbn [andb]. rewrite IH.
    now destruct (startswith p s'). }
  assert (Hgoal :
            Re.run (Re.lit (c :: p)) s cs k
            = (if startswith (c :: p) s
               then k (skipn (length (c :: p)) s) cs else None)).
  { destruct p as [|c2 p']; [|exact Hone].
    rewrite <- Hone. reflexivity. }
  rewrite Hgoal. now destruct (startswith (c :: p) s).
Qed.

Lemma after_head (c : char) (p s rest : str) :
  after (c :: p) s = Some rest -> exists t, s = c :: t.
Proof.
  unfold after. destruct s as [|x s']; [discriminate|].
  cbn [startswith]. destruct (N.eqb_spec c x) as [->|]; [|discriminate].
  eauto.
Qed.

Lemma after_mismatch (c x : char) (p t : str) :
  (c =? x) = false -> after (c :: p) (x :: t) = None.
Proof. unfold after. cbn [startswith]. now intros ->. Qed.

(** [.*?] under DOTALL before a pattern: the first place where the
    pattern matches. *)
Lemma rounds_any_lazy {A} (k : str -> Re.caps -> option A) (cs : Re.caps) :
  forall (n : nat) (s : str),
    (length s <= n)%nat ->
    star_rounds false (Re.Cls Re.any_char) k n s cs
    = first_from (fun t => k t cs) s.
Proof.
  induction n as [|n IH]; intros s Hn.
  - destruct s; [|cbn [length] in Hn; lia].
    rewrite rounds_O. cbn [first_from]. now destruct (k [] cs).
  - rewrite rounds_S, run_cls. unfold Re.orelse.
    destruct s as [|c s']; cbn [first_from].
    + now destruct (k [] cs).
    + destruct (k (c :: s') cs); [reflexivity|].
      change (Re.any_char c) with true. cbv iota.
      rewrite shorter_tail. apply IH. cbn [length] in Hn. lia.
Qed.

(** [.*] under DOTALL before a closing character and a pattern that
    cannot fail: up to the last closing character. *)
Lemma rounds_any_greedy {A} (close : N) (kf : str -> Re.caps -> option A)
      (cs : Re.caps) :
  (forall s, kf s cs <> None) ->
  forall (n : nat) (s : str),
    (length s <= n)%nat ->
    star_rounds true (Re.Cls Re.any_char)
           (fun t cs' => Re.run (Re.Chr close) t cs' kf) n s cs
    = match after_last close s with
      | Some rest => kf rest cs
      | None => None
      end.
Proof.
  intros Hkf. induction n as [|n IH]; intros s Hn.
  - destruct s; [reflexivity|cbn [length] in Hn; lia].
  - rewrite rounds_S, run_cls. destruct s as [|c s']; [reflexivity|].
    change (Re.any_char c) with true. cbv iota.
    rewrite shorter_tail, IH by (cbn [length] in Hn; lia).
    cbn [after_last]. rewrite run_chr.
    destruct (after_last close s') as [rest|].
    + specialize (Hkf rest). now destruct (kf rest cs).
    + cbn [Re.orelse]. now destruct (c =? close).
Qed.

Lemma match_at_bracket_array (pos : nat) (s : str) :
  option_map Re.m_group0 (Re.match_at bracket_array_re pos s)
  = bracket_span_at s.
Proof.
  unfold Re.match_at, bracket_array_re. cbn [Re.seqs].
  rewrite run_seq, run_chr. unfold bracket_span_at.
  destruct s as [|c s']; [reflexivity|].
  destruct (c =? 91); [|reflexivity].
  rewrite run_seq, run_star.
  rewrite rounds_any_greedy; [|discriminate|reflexivity].
  now destruct (after_last 93 s').
Qed.

Lemma search_bracket_array (text : str) :
  option_map Re.m_group0 (Re.search bracket_array_re text)
  = first_bracket_span text.
Proof. apply search_first_from, match_at_bracket_array. Qed.

Lemma run_alt {A} (a b : Re.regex) (s : str) (cs : Re.caps)
      (k : str -> Re.caps -> option A) :
  Re.run (Re.Alt a b) s cs k = Re.orelse (Re.run a s cs k) (Re.run b s cs k).
Proof. reflexivity. Qed.

Lemma run_grp {A} (n : nat) (a : Re.regex) (s : str) (cs : Re.caps)
      (k : str -> Re.caps -> option A) :
  Re.run (Re.Grp n a) s cs k
  = Re.run a s cs (fun s' cs' => k s' ((n, front_of s s') :: cs')).
Proof. reflexivity. Qed.

Lemma space_not (c x : N) :
  is_space c = true -> is_space x = false -> (c =? x) = false.
Proof.
  intros Hc Hx. destruct (N.eqb_spec c x) as [->|]; [congruence|reflexivity].
Qed.

Section Fenced.

Context {A : Type} (kf : str -> Re.caps -> option A).
Hypothesis kf_total : forall s cs, kf s cs <> None.

Let WS : Re.regex := Re.Star true (Re.Cls is_space).

(** [\s*] and the closing fence. *)
Lemma run_closing_fence (s : str) (cs : Re.caps) :
  Re.run (Re.Seq WS (Re.lit fence)) s cs kf
  = match after fence (lstrip s) with
    | Some rest => kf rest cs
    | None => None
    end.
Proof.
  rewrite run_seq. unfold WS. rewrite run_class_greedy.
  - now rewrite run_lit, lstrip_skip.
  - intros c t Hc. rewrite run_lit. unfold fence.
    change (u "```") with [96; 96; 96].
    rewrite after_mismatch; [reflexivity|].
    rewrite N.eqb_sym. now apply space_not.
Qed.

(** The lazy part of group 1 and what follows it. *)
Lemma first_closing (close : N) (cap : str -> Re.caps) (cs : Re.caps)
      (s : str) :
  first_from
    (fun t => Re.run (Re.Chr close) t cs
                     (fun s' _ => Re.run (Re.Seq WS (Re.lit fence)) s' (cap s') kf))
    s
  = match scan_block close s with
    | Some t1 =>
      match after fence (lstrip t1) with
      | Some rest => kf rest (cap t1)
      | None => None
      end
    | None => None
    end.
Proof.
  induction s as [|c s IH]; [reflexivity|].
  cbn [first_from scan_block]. rewrite run_chr, run_closing_fence.
  destruct (c =? close); cbn [andb]; [|exact IH].
  unfold after at 1.
  destruct (startswith fence (lstrip s)) eqn:Hf; [|exact IH].
  unfold after. rewrite Hf.
  pose proof (kf_total (skipn (length fence) (lstrip s)) (cap s)) as H.
  now destruct (kf _ _).
Qed.

Context (open close : N).
Hypothesis open_not_space : is_space open = false.
Hypothesis open_not_j : (106 =? open) = false.

Let body : Re.regex :=
  Re.Seq (Re.Chr open)
         (Re.Seq (Re.Star false (Re.Cls Re.any_char)) (Re.Chr close)).
Let block : Re.regex := Re.Seq (Re.Grp 1 body) (Re.Seq WS (Re.lit fence)).

Lemma fenced_re_shape :
  fenced_re open close
  = Re.Seq (Re.lit fence)
           (Re.Seq (Re.opt (Re.lit (u "json"))) (Re.Seq WS block)).
Proof. reflexivity. Qed.

(** Group 1 and what follows it, at the front of [s]. *)
Lemma run_block (s : str) (cs : Re.caps) :
  Re.run block s cs kf
  = match s with
    | c :: s3 =>
      if c =? open then
        match scan_block close s3 with
        | Some t1 =>
          match after fence (lstrip t1) with
          | Some rest => kf rest ((1%nat, front_of s t1) :: cs)
          | None => None
          end
        | None => None
        end
      else None
    | [] => None
    end.
Proof.
  unfold block. rewrite run_seq, run_grp. unfold body.
  rewrite run_seq, run_chr. destruct s as [|c s3]; [reflexivity|].
  destruct (c =? open); [|reflexivity].
  rewrite run_seq, run_star, rounds_any_lazy by reflexivity.
  apply (first_closing close
           (fun s' => (1%nat, front_of (c :: s3) s') :: cs) cs s3).
Qed.

Lemma run_spaces_block (s : str) (cs : Re.caps) :
  Re.run (Re.Seq WS block) s cs kf = Re.run block (lstrip s) cs kf.
Proof.
  rewrite run_seq. unfold WS. rewrite run_class_greedy.
  - now rewrite lstrip_skip.
  - intros c t Hc. rewrite run_block.
    now rewrite (space_not c open Hc open_not_space).
Qed.

(** The pattern of a fenced block at the front of a text. *)
Lemma run_fenced (s : str) (cs : Re.caps) :
  Re.run (fenced_re open close) s cs kf
  = match after fence s with
    | None => None
    | Some s1 =>
      Re.run block
             (lstrip match after (u "json") s1 with
                     | Some t => t
                     | None => s1
                     end) cs kf
    end.
Proof.
  rewrite fenced_re_shape, run_seq, run_lit.
  destruct (after fence s) as [s1|]; [|reflexivity].
  rewrite run_seq. unfold Re.opt. rewrite run_alt, run_lit.
  change (Re.run Re.Eps s1 cs
                 (fun s' cs' => Re.run (Re.Seq WS block) s' cs' kf))
    with (Re.run (Re.Seq WS block) s1 cs kf).
  destruct (after (u "json") s1) as [t|] eqn:Hj.
  - rewrite !run_spaces_block.
    change (u "json") with [106; 115; 111; 110] in Hj.
    apply after_head in Hj as [x ->].
    change (lstrip (106 :: x)) with (106 :: x).
    rewrite (run_block (106 :: x)). rewrite open_not_j.
    apply orelse_none_r.
  - cbn [Re.orelse]. apply run_spaces_block.
Qed.

End Fenced.

Lemma scan_block_fence (close : N) (s t1 : str) :
  scan_block close s = Some t1 -> startswith fence (lstrip t1) = true.
Proof.
  induction s as [|c s IH]; [discriminate|].
  cbn [scan_block].
  destruct ((c =? close) && startswith fence (lstrip s)) eqn:E; [|exact IH].
  intros [= <-]. now apply andb_true_iff in E.
Qed.

Lemma match_at_fenced (open close : N) (pos : nat) (s : str) :
  is_space open = false -> (106 =? open) = false ->
  option_map (Re.group 1) (Re.match_at (fenced_re open close) pos s)
  = fenced_at open close s.
Proof.
  intros Hs Hj. unfold Re.match_at.
  rewrite run_fenced by (discriminate || assumption).
  unfold fenced_at. destruct (after fence s) as [s1|]; [|reflexivity].
  cbv zeta. rewrite run_block by (discriminate || assumption).
  destruct (lstrip _) as [|c s3]; [reflexivity|].
  destruct (c =? open); [|reflexivity].
  destruct (scan_block close s3) as [t1|] eqn:E; [|reflexivity].
  apply scan_block_fence in E. unfold after. rewrite E. reflexivity.
Qed.

Lemma search_fenced (open close : N) (text : str) :
  is_space open = false -> (106 =? open) = false ->
  option_map (Re.group 1) (Re.search (fenced_re open close) text)
  = first_fenced open close text.
Proof.
  intros Hs Hj. apply search_first_from. intros pos s.
  now apply match_at_fenced.
Qed.

(* ----------------------------------------------------------------- *)
(** ** The parsers: what kind of value they return *)

Lemma seq_step {A} (a b : Re.regex) (s : str) (cs : Re.caps)
      (k : str -> Re.caps -> option A) (x : A) :
  Re.run (Re.Seq a b) s cs k = Some x ->
  exists s1 cs1,
    rest_of s s1 /\ (group_free a = true -> cs1 = cs)
    /\ Re.run b s1 cs1 k = Some x.
Proof.
  cbn [Re.run]. intros H. apply run_sound in H as (s1 & cs1 & H & R & G).
  now exists s1, cs1.
Qed.

(** The text of a match of a pattern that starts with a literal character
    starts with that character. *)
Lemma search_group0_first (c : char) (r : Re.regex) (text : str)
      (m : Re.match_obj) :
  Re.search (Re.Seq (Re.Chr c) r) text = Some m ->
  exists t, Re.m_group0 m = c :: t.
Proof.
  intros H. apply search_from_match_at in H as (pos & s1 & _ & H).
  unfold Re.match_at in H.
  apply run_first_char in H as (s2 & -> & H).
  apply run_sound in H as (s' & cs' & H & R & _).
  injection H as <-. cbn [Re.m_group0]. now apply firstn_starts.
Qed.

(** A group whose pattern starts with a literal character and has no
    group inside: the text starts with the character, and the group holds
    what the pattern consumed. *)
Lemma group_first_char {A} (n : nat) (c : char) (r b : Re.regex) (s : str)
      (cs : Re.caps) (k : str -> Re.caps -> option A) (x : A) :
  Re.run (Re.Seq (Re.Grp n (Re.Seq (Re.Chr c) r)) b) s cs k = Some x ->
  group_free r = true ->
  exists s1 s',
    s = c :: s1 /\ rest_of s1 s'
    /\ Re.run b s' ((n, firstn (length s - length s') s) :: cs) k = Some x.
Proof.
  intros H G.
  change (Re.run (Re.Seq (Re.Chr c) r) s cs
                 (fun s' cs' =>
                    Re.run b s' ((n, firstn (length s - length s') s) :: cs') k)
          = Some x) in H.
  apply run_first_char in H as (s1 & -> & H).
  apply run_sound in H as (s' & cs' & H & R & Gr).
  rewrite (Gr G) in H. now exists s1, s'.
Qed.

(** Group 1 of a match of the fenced block starts with the opening
    character. *)
Lemma fenced_group1_first (open close : char) (text : str) (m : Re.match_obj) :
  Re.search (fenced_re open close) text = Some m ->
  exists t, Re.group 1 m = open :: t.
Proof.
  intros H. apply search_from_match_at in H as (pos & s0 & _ & H).
  unfold Re.match_at, fenced_re in H. cbn [Re.seqs] in H.
  apply seq_step in H as (s1 & cs1 & _ & G1 & H).
  apply seq_step in H as (s2 & cs2 & _ & G2 & H).
  apply seq_step in H as (s3 & cs3 & _ & G3 & H).
  apply group_first_char in H as (s4 & s5 & -> & R5 & H); [|reflexivity].
  apply run_sound in H as (s6 & cs6 & H & _ & G6).
  injection H as <-. unfold Re.group. cbn [Re.m_caps].
  rewrite G6 by reflexivity. cbn [Re.lookup_cap Nat.eqb].
  now apply firstn_starts.
Qed.

(** A text that starts with a bracket decodes to a list, and one that
    starts with a brace to a mapping. *)
Lemma decode_bracket (t : str) (v : json) :
  decode (91 :: t) = Ok v -> exists items, v = JArr items.
Proof.
  unfold decode. change (skip_ws (91 :: t)) with (91 :: t).
  cbn [length scan_once].
  change (91 =? 34) with false. change (91 =? 123) with false.
  change (91 =? 91) with true. cbv iota.
  destruct (skip_ws t) as [|c2 s3]; [discriminate|].
  destruct (c2 =? 93).
  - destruct (skip_ws s3); [|discriminate]. intros [= <-]. eauto.
  - destruct (scan_items _ _) as [[vs r]|e]; [|discriminate].
    destruct (skip_ws r); [|discriminate]. intros [= <-]. eauto.
Qed.

Lemma decode_brace (t : str) (v : json) :
  decode (123 :: t) = Ok v -> exists d, v = JObj d.
Proof.
  unfold decode. change (skip_ws (123 :: t)) with (123 :: t).
  cbn [length scan_once].
  change (123 =? 34) with false. change (123 =? 123) with true. cbv iota.
  destruct (skip_ws t) as [|c2 s3]; [discriminate|].
  destruct (c2 =? 125).
  - destruct (skip_ws s3); [|discriminate]. intros [= <-]. eauto.
  - destruct (scan_members _ _) as [[ps r]|e]; [|discriminate].
    destruct (skip_ws r); [|discriminate]. intros [= <-]. eauto.
Qed.

Lemma loads_or_pass_bracket (s : str) (v : json) :
  (exists t, s = 91 :: t) -> loads_or_pass s = Some v ->
  exists items, v = JArr items.
Proof.
  intros [t ->]. unfold loads_or_pass, loads.
  destruct (decode _) as [v'|e] eqn:E; [|discriminate].
  intros [= <-]. now apply decode_bracket in E.
Qed.

Lemma loads_or_pass_brace (s : str) (v : json) :
  (exists t, s = 123 :: t) -> loads_or_pass s = Some v ->
  exists d, v = JObj d.
Proof.
  intros [t ->]. unfold loads_or_pass, loads.
  destruct (decode _) as [v'|e] eqn:E; [|discriminate].
  intros [= <-]. now apply decode_brace in E.
Qed.

Lemma brace_candidate (text : str) :
  match Re.search brace_object_re text with
  | Some m => loads_or_pass (Re.m_group0 m)
  | None => None
  end = decoded (first_flat_object text).
Proof.
  rewrite <- search_brace_object.
  now destruct (Re.search brace_object_re text).
Qed.

Lemma fenced_candidate (open close : N) (text : str) :
  is_space open = false -> (106 =? open) = false ->
  match Re.search (fenced_re open close) text with
  | Some m => loads_or_pass (Re.group 1 m)
  | None => None
  end = decoded (first_fenced open close text).
Proof.
  intros Hs Hj. rewrite <- search_fenced by assumption.
  now destruct (Re.search (fenced_re open close) text).
Qed.

Lemma bracket_candidate (text : str) :
  match Re.search bracket_array_re text with
  | Some m => loads_or_pass (Re.m_group0 m)
  | None => None
  end = decoded (first_bracket_span text).
Proof.
  rewrite <- search_bracket_array.
  now destruct (Re.search bracket_array_re text).
Qed.

(** C3.  On every text [parse_json_response] returns a value and raises
    nothing.  The value is the first that decodes among: the whole text;
    the leftmost part of the text that runs from an opening brace to the
    brace closing it with braces nested at most one level deep in between;
    and, from the leftmost fenced block that has one, the shortest text
    from an opening brace to a closing brace that only whitespace
    separates from the closing fence.  When none decodes the value is the
    error sentinel whose [raw_response] is the text.  The second part is
    the outermost object of the text whenever that object nests its braces
    at most one level deep. *)
Theorem parse_json_response_cascade (text : str) :
  parse_json_response (JStr text)
  = Ok match decode text with
       | Ok v => v
       | Raise _ =>
         match decoded (first_flat_object text) with
         | Some v => v
         | None =>
           match decoded (first_fenced 123 125 text) with
           | Some v => v
           | None => unparsable (JStr text)
           end
         end
       end
  /\ (forall obj : str,
         outermost_object 1 text = Some obj ->
         first_flat_object text = Some obj).
Proof.
  split; [|apply outermost_is_first_flat].
  unfold parse_json_response, try_except, loads, re_search, bind.
  destruct (decode text) as [v|e]; [reflexivity|].
  rewrite brace_candidate.
  destruct (decoded (first_flat_object text)) as [v|]; [reflexivity|].
  unfold fenced_object_re. rewrite fenced_candidate by reflexivity.
  now destruct (decoded (first_fenced 123 125 text)).
Qed.

Lemma parse_json_response_cascade_witness :
  first_flat_object (jq "Result: {'a': {'b': 1}, 'c': 2} as asked")
  = Some (jq "{'a': {'b': 1}, 'c': 2}").
Proof.
  apply (proj2 (parse_json_response_cascade
                  (jq "Result: {'a': {'b': 1}, 'c': 2} as asked"))).
  reflexivity.
Defined.

(** A fenced reply whose object nests its braces two levels deep.  The
    outermost object of the text is the whole object, which is also what
    the fenced block holds, so the cascade of the specification gives the
    whole object whether or not its second step reaches two levels;
    [parse_json_response] returns the object in the middle. *)
Lemma parse_json_response_inner_object :
  let text := jq "```json
{'a': {'b': {'c': 1}}}
```" in
  let whole := JObj [(u "a", JObj [(u "b", JObj [(u "c", JInt 1)])])] in
  outermost_object 2 text = Some (jq "{'a': {'b': {'c': 1}}}")
  /\ first_fenced 123 125 text = Some (jq "{'a': {'b': {'c': 1}}}")
  /\ outermost_cascade 1 text = whole
  /\ outermost_cascade 2 text = whole
  /\ parse_json_response (JStr text)
     = Ok (JObj [(u "b", JObj [(u "c", JInt 1)])])
  /\ parse_json_response (JStr text) <> Ok whole.
Proof.
  cbv zeta.
  assert (H : parse_json_response (JStr (jq "```json
{'a': {'b': {'c': 1}}}
```")) = Ok (JObj [(u "b", JObj [(u "c", JInt 1)])]))
    by (vm_compute; reflexivity).
  repeat split; try (vm_compute; reflexivity); try exact H.
  rewrite H. discriminate.
Qed.

(** X1.  [parse_json_array_response] returns a list for every text and raises
    nothing.  A text that decodes gives the decoded list, or a one-element
    list around a value that is not a list.  Otherwise the result is the
    first that decodes of the text from the first bracket to the last
    closing bracket and the bracketed text of the leftmost fenced block,
    and a one-element list with the error sentinel when neither does. *)
Theorem parse_json_array_response_list (text : str) :
  parse_json_array_response (JStr text)
  = Ok match decode text with
       | Ok (JArr items) => JArr items
       | Ok v => JArr [v]
       | Raise _ =>
         match decoded (first_bracket_span text) with
         | Some v => v
         | None =>
           match decoded (first_fenced 91 93 text) with
           | Some v => v
           | None => JArr [unparsable (JStr text)]
           end
         end
       end
  /\ exists items : list json,
       parse_json_array_response (JStr text) = Ok (JArr items).
Proof.
  split.
  - unfold parse_json_array_response, try_except, loads, re_search, bind.
    destruct (decode text) as [v|e]; [now destruct v|].
    rewrite bracket_candidate.
    destruct (decoded (first_bracket_span text)) as [v|]; [reflexivity|].
    unfold fenced_array_re. rewrite fenced_candidate by reflexivity.
    now destruct (decoded (first_fenced 91 93 text)).
  - unfold parse_json_array_response, try_except, bind, loads, re_search.
    destruct (decode text) as [v|e].
    + destruct v; eauto.
    + assert (Hfenced :
                exists items : list json,
                  match
                    match Re.search fenced_array_re text with
                    | Some m => loads_or_pass (Re.group 1 m)
                    | None => None
                    end
                  with
                  | Some v => Ok v
                  | None => Ok (JArr [unparsable (JStr text)])
                  end = Ok (JArr items)).
      { destruct (Re.search fenced_array_re text) as [m'|] eqn:Hm'; [|eauto].
        apply fenced_group1_first in Hm'.
        destruct (loads_or_pass (Re.group 1 m')) as [v|] eqn:Hv'; [|eauto].
        apply (loads_or_pass_bracket _ _ Hm') in Hv' as [items ->]. eauto. }
      destruct (Re.search bracket_array_re text) as [m|] eqn:Hm;
        [|exact Hfenced].
      apply search_group0_first in Hm.
      destruct (loads_or_pass (Re.m_group0 m)) as [v|] eqn:Hv;
        [|exact Hfenced].
      apply (loads_or_pass_bracket _ _ Hm) in Hv as [items ->]. eauto.
Qed.

(** X3.  [parse_json_response] returns the decoded value, whatever its kind,
    when the text as a whole decodes, and a mapping whenever it does
    not. *)
Theorem parse_json_response_kind (text : str) :
  (forall v : json,
      decode text = Ok v -> parse_json_response (JStr text) = Ok v)
  /\ (forall e : exn,
         decode text = Raise e ->
         exists d : dict, parse_json_response (JStr text) = Ok (JObj d)).
Proof.
  unfold parse_json_response, try_except, bind, loads, re_search, unparsable.
  split.
  - now intros v ->.
  - intros e ->.
    assert (Hfenced :
              exists d : dict,
                match
                  match Re.search fenced_object_re text with
                  | Some m => loads_or_pass (Re.group 1 m)
                  | None => None
                  end
                with
                | Some v => Ok v
                | None =>
                  Ok (JObj [(u "error", JStr (u "无法解析AI返回内容"));
                            (u "raw_response", JStr text)])
                end = Ok (JObj d)).
    { destruct (Re.search fenced_object_re text) as [m'|] eqn:Hm'; [|eauto].
      apply fenced_group1_first in Hm'.
      destruct (loads_or_pass (Re.group 1 m')) as [v|] eqn:Hv'; [|eauto].
      apply (loads_or_pass_brace _ _ Hm') in Hv' as [d ->]. eauto. }
    destruct (Re.search brace_object_re text) as [m|] eqn:Hm; [|exact Hfenced].
    apply search_group0_first in Hm.
    destruct (loads_or_pass (Re.m_group0 m)) as [v|] eqn:Hv; [|exact Hfenced].
    apply (loads_or_pass_brace _ _ Hm) in Hv as [d ->]. eauto.
Qed.

Lemma parse_json_response_kind_witness :
  parse_json_response (JStr (u "[1, 2]")) = Ok (JArr [JInt 1; JInt 2])
  /\ exists d : dict,
       parse_json_response (JStr (jq "sorry: {'a': 1} is all")) = Ok (JObj d).
Proof.
  split.
  - apply (proj1 (parse_json_response_kind (u "[1, 2]"))). reflexivity.
  - apply (proj2 (parse_json_response_kind (jq "sorry: {'a': 1} is all"))
             JSONDecodeError).
    reflexivity.
Defined.

(** X2.  [parse_json_array_response] applied to [json.dumps] of a well-formed
    value gives the value back when it is a list, and a one-element list
    that holds it when it is not. *)
Theorem parse_json_array_response_round_trip (v : json) :
  well_formed v = true ->
  parse_json_array_response (JStr (dumps v))
  = Ok (match v with
        | JArr _ => v
        | _ => JArr [v]
        end).
Proof.
  intros Hwf. unfold parse_json_array_response, try_except, bind, loads.
  rewrite (JsonFacts.decode_dumps v Hwf). now destruct v.
Qed.

Lemma parse_json_array_response_round_trip_witness :
  parse_json_array_response (JStr (dumps (JObj Demo.sample_record)))
  = Ok (JArr [JObj Demo.sample_record]).
Proof.
  apply (parse_json_array_response_round_trip (JObj Demo.sample_record)).
  reflexivity.
Defined.

Example parse_json_response_not_a_mapping :
  parse_json_response (JStr (u "[1, 2]")) = Ok (JArr [JInt 1; JInt 2]).
Proof. reflexivity. Qed.

Example parse_json_array_response_inner :
  parse_json_array_response (JStr (jq "Here: [{'a': 1}] done"))
  = Ok (JArr [JObj [(u "a", JInt 1)]]).
Proof. reflexivity. Qed.

(* ----------------------------------------------------------------- *)
(** ** [MCPServer]: end of file, starting *)

Section McpTiming.

Context {World Proc : Type} (sys : Mcp.os World Proc).

(** At end of file the loop ends with [None], and not before the
    deadline. *)
Lemma poll_waits (laws : Mcp.clock_laws sys) (p : Proc)
      (closed : McpMore.closed_output sys p) (start_time timeout_ms : Z) :
  forall (rounds : nat) (w : World),
    (timeout_ms - (Mcp.clock sys w - start_time) <= 100 * Z.of_nat rounds)%Z ->
    exists w',
      Mcp.poll sys p rounds start_time timeout_ms w = (Ok JNull, w')
      /\ (timeout_ms <= Mcp.clock sys w' - start_time)%Z.
Proof.
  destruct laws as [Hreadable Hreadline Hsleep].
  destruct closed as [_ _ Hanswers Heof].
  induction rounds as [|rounds IH]; intros w Hleft.
  - exists w. split; [reflexivity|lia].
  - cbn [Mcp.poll].
    destruct (Z.ltb_spec (Mcp.clock sys w - start_time) timeout_ms) as [L|L];
      [|exists w; split; [reflexivity|lia]].
    pose proof (Hreadable p w) as H1. destruct (Hanswers w) as [b Hb].
    destruct (Mcp.stdout_readable sys p w) as [r w1].
    cbn [fst snd] in *. subst r. destruct b.
    + pose proof (Hreadline p w1) as H2. pose proof (Heof w1) as H3.
      destruct (Mcp.stdout_readline sys p w1) as [r w2].
      cbn [fst snd] in *. subst r.
      apply IH. pose proof (Hsleep w2). lia.
    + apply IH. pose proof (Hsleep w1). lia.
Qed.

Lemma send_request_waits (laws : Mcp.clock_laws sys)
      (srv : Mcp.MCPServer Proc) (p : Proc)
      (closed : McpMore.closed_output sys p) (request : json) (timeout : Z)
      (w : World) :
  Mcp.process srv = Some p -> Mcp.running srv = true -> (0 <= timeout)%Z ->
  exists w',
    Mcp._send_request sys srv request timeout w = (JNull, w')
    /\ (Mcp.clock sys w + 1000 * timeout <= Mcp.clock sys w')%Z.
Proof.
  intros Hp Hr Ht. unfold Mcp._send_request. rewrite Hp, Hr.
  pose proof (McpMore.write_succeeds sys p closed (dumps request ++ NL) w)
    as [Hw Hwt].
  destruct (Mcp.stdin_write sys p (dumps request ++ NL) w) as [r1 w1].
  cbn [fst snd] in *. subst r1.
  pose proof (McpMore.flush_succeeds sys p closed w1) as [Hf Hft].
  destruct (Mcp.stdin_flush sys p w1) as [r2 w2].
  cbn [fst snd] in *. subst r2.
  destruct (poll_waits laws p closed (Mcp.clock sys w2) (1000 * timeout)
              (Z.to_nat (10 * timeout)) w2) as (w' & -> & Hlate); [lia|].
  exists w'. split; [reflexivity|lia].
Qed.

(** X4.  A tool call to a running server whose child takes the request but has
    closed its standard output returns [None], and returns it no sooner
    than thirty seconds after the call: at end of file the loop keeps
    polling until the deadline. *)
Theorem call_tool_waits_for_timeout (laws : Mcp.clock_laws sys)
        (srv : Mcp.MCPServer Proc) (p : Proc)
        (closed : McpMore.closed_output sys p)
        (tool_name : str) (arguments : json) (w : World) :
  Mcp.process srv = Some p -> Mcp.running srv = true ->
  fst (Mcp.call_tool sys srv tool_name arguments w) = JNull
  /\ (Mcp.clock sys w + 30000
      <= Mcp.clock sys (snd (Mcp.call_tool sys srv tool_name arguments w)))%Z.
Proof.
  intros Hp Hr. unfold Mcp.call_tool. rewrite Hr. cbn [negb].
  destruct (send_request_waits laws srv p closed
              (Mcp.call_tool_request (Mcp.clock sys w) tool_name arguments)
              30 w Hp Hr ltac:(lia)) as (w' & -> & Hlate).
  cbn. split; [reflexivity|lia].
Qed.

Lemma list_tools_same (srv : Mcp.MCPServer Proc) (w : World) :
  Mcp.running (fst (Mcp._list_tools sys srv w)) = Mcp.running srv
  /\ Mcp.process (fst (Mcp._list_tools sys srv w)) = Mcp.process srv
  /\ Mcp.name (fst (Mcp._list_tools sys srv w)) = Mcp.name srv
  /\ Mcp.config (fst (Mcp._list_tools sys srv w)) = Mcp.config srv.
Proof.
  unfold Mcp._list_tools.
  destruct (Mcp._send_request sys srv Mcp.list_tools_request 10 w) as [r w1].
  destruct (bind _ _) as [[t|]|e]; repeat split.
Qed.

Lemma initialize_same (srv : Mcp.MCPServer Proc) (w : World) :
  Mcp.running (fst (Mcp._initialize sys srv w)) = Mcp.running srv
  /\ Mcp.process (fst (Mcp._initialize sys srv w)) = Mcp.process srv
  /\ Mcp.name (fst (Mcp._initialize sys srv w)) = Mcp.name srv
  /\ Mcp.config (fst (Mcp._initialize sys srv w)) = Mcp.config srv.
Proof.
  unfold Mcp._initialize.
  destruct (Mcp._send_request sys srv Mcp.initialize_request 10 w) as [r w1].
  destruct (bind _ _) as [[|]|e]; try (repeat split; reflexivity).
  apply list_tools_same.
Qed.

(** X5.  [start()] reports success exactly when the entry is enabled, has a
    command, and [Popen] returned a process.  The server is then running
    on that process under the name and entry it had, whatever the
    handshake gave.  A start that fails leaves the server as it was, and
    an entry that is not enabled or has no command fails without touching
    the outside world. *)
Theorem start_outcome (srv : Mcp.MCPServer Proc) (w : World) :
  let started := fst (fst (Mcp.start sys srv w)) in
  let srv' := snd (fst (Mcp.start sys srv w)) in
  let spawned :=
    fst (Mcp.popen sys (Mcp.sv_command (Mcp.config srv))
                   (Mcp.sv_args (Mcp.config srv))
                   (Mcp.sv_env (Mcp.config srv)) w) in
  (started = true
   <-> McpMore.not_startable (Mcp.config srv) = false
       /\ exists p, spawned = Ok p)
  /\ (forall p,
         McpMore.not_startable (Mcp.config srv) = false -> spawned = Ok p ->
         Mcp.running srv' = true /\ Mcp.process srv' = Some p
         /\ Mcp.name srv' = Mcp.name srv /\ Mcp.config srv' = Mcp.config srv)
  /\ (started = false -> srv' = srv)
  /\ (McpMore.not_startable (Mcp.config srv) = true ->
      Mcp.start sys srv w = (false, srv, w)).
Proof.
  cbv zeta. unfold Mcp.start, McpMore.not_startable.
  destruct (truthy (Mcp.sv_enabled (Mcp.config srv))); cbn [negb orb fst snd].
  2:{ repeat split; try discriminate; try reflexivity.
      intros [H _]. discriminate. }
  destruct (truthy (Mcp.sv_command (Mcp.config srv))); cbn [negb fst snd].
  2:{ repeat split; try discriminate; try reflexivity.
      intros [H _]. discriminate. }
  destruct (Mcp.popen sys _ _ _ w) as [[p|e] w1] eqn:Hp; cbn [fst snd].
  2:{ repeat split; try discriminate; try reflexivity.
      intros [_ [p H]]. discriminate. }
  match goal with
  | |- context [Mcp._initialize sys ?s w1] =>
    destruct (initialize_same s w1) as (H1 & H2 & H3 & H4);
      destruct (Mcp._initialize sys s w1) as [srv2 w2]
  end.
  cbn [fst snd Mcp.running Mcp.process Mcp.name Mcp.config] in *.
  split; [|split; [|split; discriminate]].
  - split; [intros _; split; [reflexivity|now exists p]|reflexivity].
  - intros q _ [= <-]. repeat split; assumption.
Qed.

(** X6.  No entry that is not enabled, or has no command, is ever started:
    [_initialize_servers] over such entries keeps the servers it had and
    leaves the outside world alone. *)
Theorem initialize_servers_skips (entries : list Mcp.server_config)
        (acc : list (option str * Mcp.MCPServer Proc)) (w : World) :
  forallb McpMore.not_startable entries = true ->
  Mcp._initialize_servers sys entries acc w = (acc, w).
Proof.
  induction entries as [|cfg entries IH]; [reflexivity|].
  cbn [forallb]. intros [Hcfg Hrest]%andb_true_iff.
  cbn [Mcp._initialize_servers].
  destruct (truthy (Mcp.sv_enabled cfg)) eqn:Hen; [|now apply IH].
  unfold Mcp.start. cbn [Mcp.new_server Mcp.config]. rewrite Hen.
  unfold McpMore.not_startable in Hcfg. rewrite Hen in Hcfg.
  cbn [negb orb] in Hcfg. rewrite Hcfg. now apply IH.
Qed.

End McpTiming.

Lemma call_tool_waits_for_timeout_witness :
  fst (Mcp.call_tool Demo.eof_os Demo.running_server (u "brave_web_search")
                     (JObj []) 0%Z) = JNull
  /\ (Mcp.clock Demo.eof_os 0%Z + 30000
      <= Mcp.clock Demo.eof_os
           (snd (Mcp.call_tool Demo.eof_os Demo.running_server
                               (u "brave_web_search") (JObj []) 0%Z)))%Z.
Proof.
  apply (call_tool_waits_for_timeout Demo.eof_os) with (p := tt).
  - split; intros; cbn; lia.
  - split; intros; cbn.
    + split; [reflexivity|lia].
    + split; [reflexivity|lia].
    + now exists true.
    + intros w. reflexivity.
  - reflexivity.
  - reflexivity.
Defined.

Lemma start_outcome_witness :
  fst (fst (Mcp.start Demo.scripted_os
                      (Mcp.new_server (Some (u "web_search"))
                                      Demo.web_search_entry)
                      (0%Z, Demo.search_script))) = true
  /\ Mcp.start Demo.eof_os
               (Mcp.new_server (Some (u "database")) Demo.disabled_entry) 0%Z
     = (false, Mcp.new_server (Some (u "database")) Demo.disabled_entry, 0%Z).
Proof.
  split.
  - apply (proj2 (proj1 (start_outcome
                           Demo.scripted_os
                           (Mcp.new_server (Some (u "web_search"))
                                           Demo.web_search_entry)
                           (0%Z, Demo.search_script)))).
    split; [reflexivity|]. exists tt. reflexivity.
  - apply (proj2 (proj2 (proj2 (start_outcome
                                  Demo.eof_os
                                  (Mcp.new_server (Some (u "database"))
                                                  Demo.disabled_entry) 0%Z)))).
    reflexivity.
Defined.

Lemma initialize_servers_skips_witness :
  Mcp._initialize_servers Demo.eof_os
                          [Demo.disabled_entry; Demo.disabled_entry] [] 0%Z
  = ([], 0%Z).
Proof.
  apply (initialize_servers_skips Demo.eof_os). reflexivity.
Defined.

(* ----------------------------------------------------------------- *)
(** ** [MCPClient.enhance_prompt]: the test before the pattern *)

Lemma contains_rest (needle s s1 : str) :
  rest_of s s1 -> startswith needle s1 = true -> contains needle s = true.
Proof.
  intros [front ->] H. induction front as [|c front IH].
  - destruct s1; cbn [app contains]; now rewrite H.
  - cbn [app contains]. rewrite IH. apply orb_true_r.
Qed.

(** A prompt in which the label pattern has a match has the word the test
    before it looks for. *)
Lemma label_in_prompt (prompt : str) (m : Re.match_obj) :
  Re.search Mcp.company_name_re prompt = Some m ->
  contains (u "公司") prompt = true.
Proof.
  intros H. apply search_from_match_at in H as (pos & s1 & R & H).
  unfold Re.match_at, Mcp.company_name_re in H. cbn [Re.seqs] in H.
  remember (Re.lit (u "公司名称")) as label eqn:El. vm_compute in El.
  subst label. rewrite run_seq in H.
  apply run_first_char in H as (s2 & -> & H).
  apply run_first_char in H as (s3 & -> & _).
  apply (contains_rest _ _ _ R). reflexivity.
Qed.

Section EnhanceExactly.

Context {World Proc : Type} (sys : Mcp.os World Proc).

(** X7.  [MCPClient.enhance_prompt] is decided by three things only: whether
    the client is enabled, whether the label pattern has a match in the
    prompt, and whether the web search for the name after the label gives a
    text that is not empty.  The test for the words before the pattern is
    looked for never changes the result. *)
Theorem enhance_prompt_exactly (full : Mcp.MCPClient Proc) (prompt : str)
        (w : World) :
  fst (Mcp.MCPClient_enhance_prompt sys full prompt w)
  = if truthy (Mcp.MCPClient_is_enabled full)
    then match Re.search Mcp.company_name_re prompt with
         | Some m =>
           match fst (Mcp.MCPClient_search_web
                        sys full
                        (strip (Re.group 1 m) ++ u " 公司信息 官网") w) with
           | Some (ch :: rest) => prompt ++ Mcp.search_block (ch :: rest)
           | _ => prompt
           end
         | None => prompt
         end
    else prompt.
Proof.
  unfold Mcp.MCPClient_enhance_prompt.
  destruct (truthy (Mcp.MCPClient_is_enabled full)); [|reflexivity].
  cbn [negb].
  destruct (Re.search Mcp.company_name_re prompt) as [m|] eqn:Hm.
  - rewrite (label_in_prompt prompt m Hm). cbn [orb].
    now destruct (Mcp.MCPClient_search_web sys full _ w) as [[[|ch rest]|] w'].
  - now destruct (_ || _).
Qed.

End EnhanceExactly.

(* ----------------------------------------------------------------- *)
(** ** [_send_request]: the loop behind the reply *)

Section SendRequestLoop.

Context {World Proc : Type} (sys : Mcp.os World Proc).

(** X18.  When the clock does not run backwards and each sleep lets a tenth of a
    second pass, what [_send_request] returns after writing the request is
    the one outcome of its loop: the first line of output that is not
    empty, decoded, or [None] when the deadline has passed or an exception
    was raised.  The loop takes no more than ten rounds for each second of
    the timeout. *)
Theorem send_request_runs_the_loop (laws : Mcp.clock_laws sys)
        (srv : Mcp.MCPServer Proc) (p : Proc) (request : json) (timeout : Z)
        (w w1 w2 : World) :
  Mcp.process srv = Some p -> Mcp.running srv = true -> (0 <= timeout)%Z ->
  Mcp.stdin_write sys p (dumps request ++ NL) w = (Ok tt, w1) ->
  Mcp.stdin_flush sys p w1 = (Ok tt, w2) ->
  exists out,
    Mcp.polls sys p (Mcp.clock sys w2) (1000 * timeout) w2 out
    /\ (forall out',
           Mcp.polls sys p (Mcp.clock sys w2) (1000 * timeout) w2 out' ->
           out' = out)
    /\ Mcp._send_request sys srv request timeout w
       = (match fst out with
          | Ok response => response
          | Raise _ => JNull
          end, snd out).
Proof.
  intros Hp Hr Ht Hw Hf.
  exists (Mcp.poll sys p (Z.to_nat (10 * timeout)) (Mcp.clock sys w2)
                   (1000 * timeout) w2).
  pose proof (send_request_polls sys laws p timeout w2 Ht) as Hloop.
  split; [exact Hloop|]. split.
  - intros out' Hout'. exact (polls_deterministic sys p _ _ _ _ _ Hout' Hloop).
  - unfold Mcp._send_request. rewrite Hp, Hr, Hw, Hf.
    now destruct (Mcp.poll sys p _ _ _ w2) as [[response|e] w3].
Qed.

End SendRequestLoop.

Lemma send_request_runs_the_loop_witness :
  exists out,
    Mcp.polls Demo.scripted_os tt 0%Z (1000 * 10)
              (0%Z, [jq "{'id': 2, 'result': {'tools': []}}" ++ NL]) out
    /\ (forall out',
           Mcp.polls Demo.scripted_os tt 0%Z (1000 * 10)
                     (0%Z, [jq "{'id': 2, 'result': {'tools': []}}" ++ NL]) out' ->
           out' = out)
    /\ Mcp._send_request
         Demo.scripted_os Demo.running_server Mcp.list_tools_request 10
         (0%Z, [jq "{'id': 2, 'result': {'tools': []}}" ++ NL])
       = (match fst out with
          | Ok response => response
          | Raise _ => JNull
          end, snd out).
Proof.
  apply (send_request_runs_the_loop
           Demo.scripted_os scripted_os_laws Demo.running_server tt
           Mcp.list_tools_request 10
           (0%Z, [jq "{'id': 2, 'result': {'tools': []}}" ++ NL])
           (0%Z, [jq "{'id': 2, 'result': {'tools': []}}" ++ NL])
           (0%Z, [jq "{'id': 2, 'result': {'tools': []}}" ++ NL]));
    try reflexivity.
  lia.
Defined.

(* ----------------------------------------------------------------- *)
(** ** The fields of a parsed company *)

Lemma get_set_same (key : OpenAI.text_key) (value : str) (d : OpenAI.company) :
  OpenAI.get_text key (OpenAI.set_text key value d) = value.
Proof. destruct key; reflexivity. Qed.

Lemma get_set_other (key key' : OpenAI.text_key) (value : str)
      (d : OpenAI.company) :
  key <> key' ->
  OpenAI.get_text key' (OpenAI.set_text key value d) = OpenAI.get_text key' d.
Proof. destruct key, key'; intros H; try reflexivity; now destruct H. Qed.

Lemma text_key_eq_dec (key key' : OpenAI.text_key) : {key = key'} + {key <> key'}.
Proof. decide equality. Qed.

Lemma get_set_flags (key : OpenAI.text_key) (a b : bool) (d : OpenAI.company) :
  OpenAI.get_text key (OpenAI.set_flags a b d) = OpenAI.get_text key d.
Proof. destruct key; reflexivity. Qed.

Lemma get_set_years (key : OpenAI.text_key) (r p : list (Z * str))
      (d : OpenAI.company) :
  OpenAI.get_text key (OpenAI.set_years r p d) = OpenAI.get_text key d.
Proof. destruct key; reflexivity. Qed.

Lemma NA_clean : clean OpenAI.NA.
Proof. now left. Qed.

Lemma set_text_clean (key : OpenAI.text_key) (value : str) (d : OpenAI.company) :
  clean value -> all_clean d -> all_clean (OpenAI.set_text key value d).
Proof.
  intros Hv Hd key'. destruct (text_key_eq_dec key key') as [<-|Hne].
  - now rewrite get_set_same.
  - rewrite get_set_other by assumption. apply Hd.
Qed.

Lemma empty_company_clean : all_clean OpenAI.empty_company.
Proof. intros key. left. now destruct key. Qed.

(** The loop over the patterns stores only texts that are not empty and
    are no placeholder. *)
Lemma extract_texts_clean (text : str) (d : OpenAI.company) :
  all_clean d -> all_clean (OpenAI.extract_texts text d).
Proof.
  unfold OpenAI.extract_texts.
  generalize OpenAI.patterns as pats. intros pats. revert d.
  induction pats as [|[key pattern] pats IH]; intros d Hd; [exact Hd|].
  cbn [fold_left fst snd]. apply IH.
  destruct (Re.search pattern text) as [m|]; [|exact Hd].
  destruct (strip (Re.group 1 m)) as [|c value] eqn:Hvalue; [exact Hd|].
  destruct (OpenAI.is_placeholder (c :: value)) eqn:Hp; [exact Hd|].
  apply set_text_clean; [|exact Hd].
  right. split; [discriminate|exact Hp].
Qed.

(** X8.  Every text field of a company parsed from a section is the default
    ["N/A"] or a text of the section that is not empty and is none of the
    placeholders: an answer such as ["未知"] never reaches the result. *)
Theorem parse_single_company_section_clean (section_text : str)
        (key : OpenAI.text_key) :
  clean (OpenAI.get_text key (OpenAI._parse_single_company_section section_text)).
Proof.
  unfold OpenAI._parse_single_company_section. cbv zeta.
  rewrite get_set_years, get_set_flags.
  apply extract_texts_clean, empty_company_clean.
Qed.

Lemma fill_empty_fields (keys : list OpenAI.text_key) :
  forall d : OpenAI.company,
    let d' := fold_left
                (fun d key =>
                   match OpenAI.get_text key d with
                   | [] => OpenAI.set_text key OpenAI.NA d
                   | _ => d
                   end) keys d in
    (forall key, In key keys \/ OpenAI.get_text key d <> [] ->
                 OpenAI.get_text key d' <> [])
    /\ (forall key, clean (OpenAI.get_text key d) ->
                    clean (OpenAI.get_text key d')).
Proof.
  induction keys as [|k keys IH]; intros d; cbv zeta; cbn [fold_left].
  - split; [|auto]. intros key [[]|H]. exact H.
  - match goal with
    | |- context [fold_left _ keys ?x] => set (d1 := x)
    end.
    assert (Hkeep : forall key, OpenAI.get_text key d <> [] ->
                                OpenAI.get_text key d1 = OpenAI.get_text key d).
    { intros key Hkey. subst d1.
      destruct (OpenAI.get_text k d) eqn:Hk; [|reflexivity].
      destruct (text_key_eq_dec k key) as [<-|Hne]; [congruence|].
      now apply get_set_other. }
    assert (Hfilled : OpenAI.get_text k d1 <> []).
    { subst d1. destruct (OpenAI.get_text k d) eqn:Hk.
      - rewrite get_set_same. discriminate.
      - rewrite Hk. discriminate. }
    destruct (IH d1) as [IH1 IH2]. split.
    + intros key [[<-|Hin]|Hfull]; apply IH1; auto.
      right. now rewrite Hkeep.
    + intros key Hclean. apply IH2. subst d1.
      destruct (OpenAI.get_text k d) eqn:Hk; [|exact Hclean].
      destruct (text_key_eq_dec k key) as [<-|Hne].
      * rewrite get_set_same. apply NA_clean.
      * now rewrite get_set_other.
Qed.

Lemma clean_not_empty (value : str) : clean value -> value <> [].
Proof. intros [->|[H _]]; [discriminate|exact H]. Qed.

(** X9.  No text field of the company [_parse_ai_response] builds from a
    response about one company is empty, and every field but the name is
    the default ["N/A"] or a text of the response that is none of the
    placeholders; the name alone may also come from the query. *)
Theorem parse_one_company_fields (response_text original_query : str)
        (key : OpenAI.text_key) :
  OpenAI.get_text key (OpenAI.parse_one_company response_text original_query)
  <> []
  /\ (key <> OpenAI.FullName ->
      clean (OpenAI.get_text
               key (OpenAI.parse_one_company response_text original_query))).
Proof.
  unfold OpenAI.parse_one_company. cbv zeta. rewrite get_set_years.
  match goal with
  | |- context [fold_left _ ?keys ?d0] =>
    destruct (fill_empty_fields keys d0) as [Hfull Hclean];
      set (start := d0) in *
  end.
  cbv zeta in Hfull, Hclean.
  assert (Hbase : all_clean
            (OpenAI.set_flags
               match Re.search OpenAI.top500_re response_text with
               | Some m => str_eqb (Re.group 1 m) (u "是")
               | None =>
                 if OpenAI.found (Re.search OpenAI.top500_alt_re response_text)
                 then true
                 else OpenAI.is_top500
                        (OpenAI.extract_texts response_text OpenAI.empty_company)
               end
               match Re.search OpenAI.listed_re response_text with
               | Some m => str_eqb (Re.group 1 m) (u "是")
               | None =>
                 if OpenAI.found (Re.search OpenAI.listed_alt_re response_text)
                 then true
                 else OpenAI.is_listed
                        (OpenAI.extract_texts response_text OpenAI.empty_company)
               end
               (OpenAI.extract_texts response_text OpenAI.empty_company))).
  { intros k. rewrite get_set_flags.
    apply extract_texts_clean, empty_company_clean. }
  assert (Hstart : forall k, k <> OpenAI.FullName ->
                             clean (OpenAI.get_text k start)).
  { intros k Hk. subst start.
    destruct (str_eqb _ OpenAI.NA); [|apply Hbase].
    destruct (Re.search OpenAI.query_name_re original_query);
      [rewrite get_set_other by congruence; apply Hbase|].
    destruct (Re.search OpenAI.query_loose_re original_query);
      [rewrite get_set_other by congruence; apply Hbase|apply Hbase]. }
  split.
  - destruct (text_key_eq_dec key OpenAI.Industry) as [->|Hne].
    + apply Hfull. right. apply clean_not_empty, Hstart. discriminate.
    + apply Hfull. left. destruct key; cbn; tauto.
  - intros Hkey. apply Hclean, Hstart, Hkey.
Qed.

(* ----------------------------------------------------------------- *)
(** ** A response with the marker and no company header *)

Lemma orelse_none {A} (x y : option A) :
  Re.orelse x y = None <-> x = None /\ y = None.
Proof. destruct x; cbn; split; try tauto; try discriminate; intros [H _]; discriminate. Qed.

(** Whether a run fails depends on the continuation only through the
    inputs on which the continuation fails. *)
Lemma run_fail_alike {A B} (r : Re.regex) :
  forall (s : str) (cs : Re.caps) (k1 : str -> Re.caps -> option A)
         (k2 : str -> Re.caps -> option B),
    fail_alike k1 k2 ->
    (Re.run r s cs k1 = None <-> Re.run r s cs k2 = None).
Proof.
  induction r as [| c | p | a IHa b IHb | a IHa b IHb | greedy a IHa
                  | n a IHa | ]; intros s cs k1 k2 Hk; cbn [Re.run].
  - apply Hk.
  - destruct s as [|y s']; [tauto|]. destruct (y =? c); [apply Hk|tauto].
  - destruct s as [|y s']; [tauto|]. destruct (p y); [apply Hk|tauto].
  - apply IHa. intros s' cs'. now apply IHb.
  - rewrite !orelse_none. rewrite (IHa s cs k1 k2 Hk), (IHb s cs k1 k2 Hk).
    tauto.
  - generalize (length s) as fuel. intros fuel. revert s cs.
    induction fuel as [|fuel IH]; intros s cs; [apply Hk|].
    assert (Hround :
              Re.run a s cs
                (fun s' cs' =>
                   if (length s' <? length s)%nat
                   then (fix rounds (n : nat) (s : str) (cs : Re.caps)
                             {struct n} : option A :=
                           match n with
                           | O => k1 s cs
                           | S n' =>
                             if greedy
                             then Re.orelse
                                    (Re.run a s cs
                                       (fun s' cs' =>
                                          if (length s' <? length s)%nat
                                          then rounds n' s' cs' else None))
                                    (k1 s cs)
                             else Re.orelse
                                    (k1 s cs)
                                    (Re.run a s cs
                                       (fun s' cs' =>
                                          if (length s' <? length s)%nat
                                          then rounds n' s' cs' else None))
                           end) fuel s' cs'
                   else None) = None
              <->
              Re.run a s cs
                (fun s' cs' =>
                   if (length s' <? length s)%nat
                   then (fix rounds (n : nat) (s : str) (cs : Re.caps)
                             {struct n} : option B :=
                           match n with
                           | O => k2 s cs
                           | S n' =>
                             if greedy
                             then Re.orelse
                                    (Re.run a s cs
                                       (fun s' cs' =>
                                          if (length s' <? length s)%nat
                                          then rounds n' s' cs' else None))
                                    (k2 s cs)
                             else Re.orelse
                                    (k2 s cs)
                                    (Re.run a s cs
                                       (fun s' cs' =>
                                          if (length s' <? length s)%nat
                                          then rounds n' s' cs' else None))
                           end) fuel s' cs'
                   else None) = None).
    { apply IHa. intros s' cs'.
      destruct (length s' <? length s)%nat; [apply IH|tauto]. }
    destruct greedy; rewrite !orelse_none; rewrite Hround, (Hk s cs); tauto.
  - apply IHa. intros s' cs'. apply Hk.
  - destruct s as [|c [|c' s']]; try tauto; [apply Hk|].
    destruct (c =? 10); [apply Hk|tauto].
Qed.

(** Whether a pattern matches at the front of a text does not depend on
    the position the match is recorded with. *)
Lemma match_at_none (r : Re.regex) (p q : nat) (s : str) :
  Re.match_at r p s = None -> Re.match_at r q s = None.
Proof.
  unfold Re.match_at. apply run_fail_alike.
  intros s' cs'. split; discriminate.
Qed.

Lemma rest_of_inv (c : char) (s s1 : str) :
  rest_of (c :: s) s1 -> s1 = c :: s \/ rest_of s s1.
Proof.
  intros [[|x front] E]; cbn [app] in E.
  - now left.
  - right. injection E as _ ->. now exists front.
Qed.

Lemma search_none (r : Re.regex) (s : str) :
  forall pos : nat,
    Re.search_from r pos s = None ->
    forall s1, rest_of s s1 -> Re.match_at r 0 s1 = None.
Proof.
  induction s as [|c s IH]; intros pos; cbn [Re.search_from].
  - destruct (Re.match_at r pos []) eqn:E; [discriminate|].
    intros _ s1 [front Hs]. symmetry in Hs.
    apply app_eq_nil in Hs as [_ ->]. now apply match_at_none with pos.
  - destruct (Re.match_at r pos (c :: s)) eqn:E; [discriminate|].
    intros H s1 [->|R]%rest_of_inv.
    + now apply match_at_none with pos.
    + now apply (IH (S pos)).
Qed.

(** A text without a match is one piece. *)
Lemma split_no_match (r : Re.regex) (s : str) :
  forall piece : str,
    (forall s1, rest_of s s1 -> Re.match_at r 0 s1 = None) ->
    Re.split_from r 0 piece s = [rev piece ++ s].
Proof.
  induction s as [|c s IH]; intros piece H; cbn [Re.split_from].
  - now rewrite app_nil_r.
  - rewrite (H (c :: s) (rest_of_refl _)).
    rewrite IH by (intros s1 R; apply H; now apply rest_of_cons).
    cbn [rev]. now rewrite <- app_assoc.
Qed.

Section MarkerOnly.

Variable rt : runtime.

(** X10.  A response that has the marker of several companies but no company
    header is taken as a response about several companies, and gives none:
    the result has its flag set, an empty list and the count 0. *)
Theorem marker_without_headers (response_text original_query : str) :
  OpenAI.found (Re.search (OpenAI.found_marker_re rt) response_text) = true ->
  Re.search (OpenAI.header_re rt) response_text = None ->
  OpenAI._parse_ai_response rt response_text original_query
  = OpenAI.Several {| OpenAI.multiple_companies := true;
                      OpenAI.companies := [];
                      OpenAI.count := 0 |}.
Proof.
  intros Hmarker Hnone.
  unfold OpenAI._parse_ai_response, OpenAI.is_multiple_response.
  rewrite Hmarker. cbn [orb].
  unfold OpenAI._parse_multiple_companies, Re.split.
  rewrite split_no_match by (now apply search_none with 0%nat).
  reflexivity.
Qed.

End MarkerOnly.

Lemma marker_without_headers_witness :
  OpenAI._parse_ai_response ascii_runtime (u "【发现 2 家匹配公司】") []
  = OpenAI.Several {| OpenAI.multiple_companies := true;
                      OpenAI.companies := [];
                      OpenAI.count := 0 |}.
Proof.
  apply (marker_without_headers ascii_runtime); reflexivity.
Defined.

(* ----------------------------------------------------------------- *)
(** ** [AgentConfigManager]: schemas stored, looked up and deleted *)

Lemma str_eqb_refl (a : str) : str_eqb a a = true.
Proof. unfold str_eqb. now destruct (list_eq_dec N.eq_dec a a). Qed.

Lemma str_eqb_neq (a b : str) : a <> b -> str_eqb a b = false.
Proof.
  intros H. unfold str_eqb. now destruct (list_eq_dec N.eq_dec a b).
Qed.

Lemma str_eqb_spec (a b : str) : reflect (a = b) (str_eqb a b).
Proof.
  unfold str_eqb. destruct (list_eq_dec N.eq_dec a b); now constructor.
Qed.

Lemma dict_get_set_same (k : str) (v : json) (d : dict) :
  dict_get k (dict_set k v d) = Some v.
Proof.
  induction d as [|[k' v'] d IH]; cbn [dict_set dict_get].
  - now rewrite str_eqb_refl.
  - destruct (str_eqb k' k) eqn:E; cbn [dict_get]; now rewrite E.
Qed.

Lemma dict_get_set_other (k k' : str) (v : json) (d : dict) :
  k <> k' -> dict_get k' (dict_set k v d) = dict_get k' d.
Proof.
  intros Hne. induction d as [|[k0 v0] d IH]; cbn [dict_set dict_get].
  - rewrite str_eqb_neq by assumption. reflexivity.
  - destruct (str_eqb_spec k0 k) as [->|H0]; cbn [dict_get].
    + now rewrite (str_eqb_neq k k') by assumption.
    + now rewrite IH.
Qed.

Lemma dict_get_del_same (k : str) (d : dict) :
  dict_get k (Config.dict_del k d) = None.
Proof.
  unfold Config.dict_del.
  induction d as [|[k' v'] d IH]; [reflexivity|]. cbn [filter fst].
  destruct (str_eqb k' k) eqn:E; cbn [negb]; [exact IH|].
  cbn [dict_get]. now rewrite E.
Qed.

Lemma dict_get_del_other (k k' : str) (d : dict) :
  k <> k' -> dict_get k' (Config.dict_del k d) = dict_get k' d.
Proof.
  intros Hne. unfold Config.dict_del.
  induction d as [|[k0 v0] d IH]; [reflexivity|]. cbn [filter fst].
  destruct (str_eqb_spec k0 k) as [->|H0]; cbn [negb dict_get].
  - now rewrite (str_eqb_neq k k') by assumption.
  - now rewrite IH.
Qed.

Lemma dict_has_set (k : str) (v : json) (d : dict) :
  dict_has k (dict_set k v d) = true.
Proof. unfold dict_has. now rewrite dict_get_set_same. Qed.

Lemma dict_has_del (k : str) (d : dict) :
  dict_has k (Config.dict_del k d) = false.
Proof. unfold dict_has. now rewrite dict_get_del_same. Qed.

Lemma dict_has_In (k : str) (d : dict) :
  dict_has k d = true <-> In k (map fst d).
Proof.
  unfold dict_has. induction d as [|[k' v'] d IH]; cbn [dict_get map fst In].
  - split; [discriminate|tauto].
  - destruct (str_eqb_spec k' k) as [->|Hne].
    + split; auto.
    + rewrite IH. split; [auto|]. intros [H|H]; [contradiction|exact H].
Qed.

Section ConfigFacts.

Context {World : Type} (sys : Config.files World).

(** What the manager reads from a configuration that has the right
    shape. *)
Lemma shaped_config (c : json) :
  Config.shaped c = true ->
  exists d, c = JObj d
            /\ Mcp.py_get c (u "schemas") (JObj []) = Ok (JObj (Config.schemas_of c)).
Proof.
  destruct c as [| | | | | |d]; try discriminate.
  cbn [Config.shaped Config.schemas_of Mcp.py_get]. intros H. exists d.
  split; [reflexivity|].
  destruct (dict_get (u "schemas") d) as [[| | | | | |s]|];
    try discriminate; reflexivity.
Qed.

Lemma schemas_of_set (d : dict) (s : dict) :
  Config.schemas_of (JObj (dict_set (u "schemas") (JObj s) d)) = s.
Proof. cbn [Config.schemas_of]. now rewrite dict_get_set_same. Qed.

Lemma shaped_set (d : dict) (s : dict) :
  Config.shaped (JObj (dict_set (u "schemas") (JObj s) d)) = true.
Proof. cbn [Config.shaped]. now rewrite dict_get_set_same. Qed.

(** The configuration after [add_schema]. *)
Lemma add_schema_config (m : Config.AgentConfigManager) (name : str)
      (schema : json) (w : World) :
  Config.shaped (Config.config m) = true ->
  exists d' w',
    Config.add_schema sys m name schema w
    = (Ok {| Config.config_file := Config.config_file m;
             Config.config :=
               JObj (dict_set (u "schemas")
                              (JObj (dict_set name schema
                                              (Config.schemas_of (Config.config m))))
                              d') |}, w')
    /\ (forall k, k <> u "schemas" ->
                  match Config.config m with
                  | JObj d => dict_get k d' = dict_get k d
                  | _ => False
                  end).
Proof.
  intros Hs. destruct (Config.config m) as [| | | | | |d] eqn:Hc;
    try discriminate.
  unfold Config.add_schema. rewrite Hc.
  cbn [Config.shaped] in Hs. cbn [Mcp.py_in bind Config.schemas_of].
  unfold dict_has.
  destruct (dict_get (u "schemas") d) as [[| | | | | |s]|] eqn:Hd;
    try discriminate.
  - cbn [bind Config.py_item Config.py_setitem]. unfold dict_item.
    rewrite Hd. cbn [bind Config.py_setitem].
    destruct (Config.save_config sys _ w) as [saved w'].
    exists d, w'. split; [reflexivity|auto].
  - cbn [bind Config.py_item Config.py_setitem]. unfold dict_item.
    rewrite dict_get_set_same. cbn [bind Config.py_setitem].
    destruct (Config.save_config sys _ w) as [saved w'].
    exists (dict_set (u "schemas") (JObj []) d), w'.
    split; [reflexivity|]. intros k Hk.
    apply dict_get_set_other. congruence.
Qed.

(** X11.  After [add_schema(name, schema)] on a configuration of the right
    shape the schema is stored under the name, in the place of the schema
    that had the name before if there was one; [set_active_schema(name)]
    then returns true and [get_active_schema()] gives the schema.  The
    manager keeps the schema whether or not the file could be written. *)
Theorem add_schema_then_activate (m : Config.AgentConfigManager) (name : str)
        (schema : json) (w : World) :
  Config.shaped (Config.config m) = true ->
  exists m' w',
    Config.add_schema sys m name schema w = (Ok m', w')
    /\ Config.schemas_of (Config.config m')
       = dict_set name schema (Config.schemas_of (Config.config m))
    /\ Config.list_schemas m'
       = Ok (map fst (dict_set name schema
                               (Config.schemas_of (Config.config m))))
    /\ forall w1, exists m'' w2,
         Config.set_active_schema sys m' name w1 = (Ok (true, m''), w2)
         /\ Config.get_active_schema m'' = Ok schema.
Proof.
  intros Hs.
  destruct (add_schema_config m name schema w Hs) as (d' & w' & -> & _).
  eexists _, w'. split; [reflexivity|]. cbn [Config.config].
  split; [apply schemas_of_set|].
  split.
  - unfold Config.list_schemas. cbn [Config.config Mcp.py_get].
    now rewrite dict_get_set_same.
  - intros w1. unfold Config.set_active_schema.
    cbn [Config.config Mcp.py_get bind Config.config_file].
    rewrite dict_get_set_same. cbn [Mcp.py_in bind].
    rewrite dict_has_set. cbn [Config.py_setitem].
    destruct (Config.save_config sys _ w1) as [saved w2].
    eexists _, w2. split; [reflexivity|].
    unfold Config.get_active_schema. cbn [Config.config Mcp.py_get bind].
    rewrite dict_get_set_same. cbn [bind].
    rewrite dict_get_set_other by discriminate.
    rewrite dict_get_set_same. cbn [bind Config.get_by].
    now rewrite dict_get_set_same.
Qed.

(** X12.  Deleting a schema that is there returns true and removes it: the name
    is no longer listed, [set_active_schema] and a second [delete_schema]
    with the name return false and neither change the manager nor write
    the file.  The entry [active_schema] is left as it was, so after the
    active schema has been deleted [get_active_schema()] gives an empty
    mapping. *)
Theorem delete_schema_removes (m : Config.AgentConfigManager) (name : str)
        (w : World) :
  Config.shaped (Config.config m) = true ->
  dict_has name (Config.schemas_of (Config.config m)) = true ->
  exists m' w',
    Config.delete_schema sys m name w = (Ok (true, m'), w')
    /\ Config.schemas_of (Config.config m')
       = Config.dict_del name (Config.schemas_of (Config.config m))
    /\ (exists names, Config.list_schemas m' = Ok names /\ ~ In name names)
    /\ (forall w1, Config.set_active_schema sys m' name w1 = (Ok (false, m'), w1))
    /\ (forall w1, Config.delete_schema sys m' name w1 = (Ok (false, m'), w1))
    /\ (Mcp.py_get (Config.config m) (u "active_schema")
                   (JStr (u "company_enrichment")) = Ok (JStr name) ->
        Config.get_active_schema m' = Ok (JObj [])).
Proof.
  intros Hs Hhas.
  destruct (shaped_config _ Hs) as (d & Hc & Hget).
  unfold Config.delete_schema. rewrite Hget. cbn [bind Mcp.py_in].
  rewrite Hhas. rewrite Hc in *.
  cbn [Config.schemas_of] in *. unfold dict_has in Hhas.
  cbn [Config.py_item bind]. unfold dict_item.
  destruct (dict_get (u "schemas") d) as [[| | | | | |s]|] eqn:Hd;
    try discriminate.
  cbn [bind Config.py_delitem Config.py_setitem].
  destruct (Config.save_config sys _ w) as [saved w'].
  eexists _, w'. split; [reflexivity|]. cbn [Config.config].
  assert (Hafter :
            Mcp.py_get (JObj (dict_set (u "schemas")
                                       (JObj (Config.dict_del name s)) d))
                       (u "schemas") (JObj [])
            = Ok (JObj (Config.dict_del name s)))
    by (cbn [Mcp.py_get]; now rewrite dict_get_set_same).
  split; [apply schemas_of_set|]. split; [|split; [|split]].
  - exists (map fst (Config.dict_del name s)).
    unfold Config.list_schemas. cbn [Config.config]. rewrite Hafter.
    split; [reflexivity|].
    intros Hin%dict_has_In. now rewrite dict_has_del in Hin.
  - intros w1. unfold Config.set_active_schema. cbn [Config.config].
    rewrite Hafter. cbn [bind Mcp.py_in]. now rewrite dict_has_del.
  - intros w1. unfold Config.delete_schema. cbn [Config.config].
    rewrite Hafter. cbn [bind Mcp.py_in]. now rewrite dict_has_del.
  - intros Hactive. unfold Config.get_active_schema. cbn [Config.config].
    rewrite Hafter.
    cbn [Mcp.py_get] in Hactive |- *.
    rewrite dict_get_set_other by discriminate.
    destruct (dict_get (u "active_schema") d) as [active|];
      [injection Hactive as ->|injection Hactive as <-];
      cbn [bind Config.get_by]; now rewrite dict_get_del_same.
Qed.

End ConfigFacts.

Lemma add_schema_then_activate_witness :
  exists m' w',
    Config.add_schema Demo2.read_only_files Demo2.default_manager
                      (u "people") Demo2.people_schema []
    = (Ok m', w')
    /\ Config.schemas_of (Config.config m')
       = dict_set (u "people") Demo2.people_schema
                  (Config.schemas_of (Config.config Demo2.default_manager))
    /\ Config.list_schemas m'
       = Ok (map fst (dict_set (u "people") Demo2.people_schema
                               (Config.schemas_of
                                  (Config.config Demo2.default_manager))))
    /\ forall w1, exists m'' w2,
         Config.set_active_schema Demo2.read_only_files m' (u "people") w1
         = (Ok (true, m''), w2)
         /\ Config.get_active_schema m'' = Ok Demo2.people_schema.
Proof.
  apply (add_schema_then_activate Demo2.read_only_files Demo2.default_manager).
  reflexivity.
Defined.

Lemma delete_schema_removes_witness :
  exists m' w',
    Config.delete_schema Demo2.memory_files Demo2.people_manager (u "people") []
    = (Ok (true, m'), w')
    /\ Config.schemas_of (Config.config m')
       = Config.dict_del (u "people")
                         (Config.schemas_of (Config.config Demo2.people_manager))
    /\ (exists names, Config.list_schemas m' = Ok names /\ ~ In (u "people") names)
    /\ (forall w1, Config.set_active_schema Demo2.memory_files m' (u "people") w1
                   = (Ok (false, m'), w1))
    /\ (forall w1, Config.delete_schema Demo2.memory_files m' (u "people") w1
                   = (Ok (false, m'), w1))
    /\ (Mcp.py_get (Config.config Demo2.people_manager) (u "active_schema")
                   (JStr (u "company_enrichment")) = Ok (JStr (u "people")) ->
        Config.get_active_schema m' = Ok (JObj [])).
Proof.
  apply (delete_schema_removes Demo2.memory_files Demo2.people_manager);
    reflexivity.
Defined.

Example delete_active_schema :
  match Config.delete_schema Demo2.memory_files Demo2.people_manager
                             (u "people") [] with
  | (Ok (true, m'), _) => Config.get_active_schema m' = Ok (JObj [])
  | _ => False
  end.
Proof. reflexivity. Qed.

(* ----------------------------------------------------------------- *)
(** ** Templates: literal text and plain fields *)

Section TemplateFacts.

Variable rt : runtime.

Lemma bind_ok {A} (x : result A) : bind x (fun t => Ok t) = x.
Proof. now destruct x. Qed.

(** Text without braces is copied. *)
Lemma format_literal (kwargs : list (str * json)) (a s : str) :
  Agent2.brace_free a = true ->
  format_from rt kwargs None (a ++ s)
  = bind (format_from rt kwargs None s) (fun t => Ok (a ++ t)).
Proof.
  induction a as [|c a IH]; intros Ha.
  - cbn [app]. now rewrite bind_ok.
  - cbn [Agent2.brace_free forallb] in Ha.
    apply andb_true_iff in Ha as [Hc Ha].
    apply andb_true_iff in Hc as [H1 H2].
    apply negb_true_iff in H1, H2.
    cbn [app format_from]. rewrite H1, H2, (IH Ha).
    now destruct (format_from rt kwargs None s).
Qed.

Lemma starts_not_decimal (front : str) (c c0 : char) (more rest : str) :
  front ++ c :: more = c0 :: rest -> isdecimal rt c0 = false ->
  forallb (isdecimal rt) (front ++ [c]) = false.
Proof.
  intros E H. destruct front as [|x front]; cbn [app] in E |- *;
    injection E as -> _; cbn [forallb]; now rewrite H.
Qed.

(** A plain field name is read up to its closing brace and looked up. *)
Lemma format_field (kwargs : list (str * json)) (name : str) :
  forall (acc s1 : str) (c0 : char) (rest : str),
    forallb (fun c => negb (c =? 123) && negb (c =? 125)
                      && negb (field_special c)) name = true ->
    rev acc ++ name = c0 :: rest -> isdecimal rt c0 = false ->
    format_from rt kwargs (Some acc) (name ++ 125 :: s1)
    = bind (get_field rt kwargs (rev acc ++ name))
           (fun v => bind (format_from rt kwargs None s1)
                          (fun t => Ok (v ++ t))).
Proof.
  induction name as [|c name IH]; intros acc s1 c0 rest Hname Hfirst Hc0.
  - cbn [app format_from]. change (125 =? 125) with true. cbv iota.
    now rewrite app_nil_r.
  - cbn [forallb] in Hname. apply andb_true_iff in Hname as [Hc Hname].
    apply andb_true_iff in Hc as [Hc H3].
    apply andb_true_iff in Hc as [H1 H2].
    apply negb_true_iff in H1, H2, H3.
    cbn [app format_from]. rewrite H1, H2, H3. cbn [rev orb].
    rewrite (starts_not_decimal _ _ _ _ _ Hfirst Hc0).
    pose proof (IH (c :: acc) s1 c0 rest Hname) as E.
    cbn [rev] in E. rewrite <- app_assoc in E.
    exact (E Hfirst Hc0).
Qed.

Lemma format_open (kwargs : list (str * json)) (name b : str) :
  Agent2.plain_name rt name = true ->
  format_from rt kwargs None (123 :: name ++ 125 :: b)
  = bind (get_field rt kwargs name)
         (fun v => bind (format_from rt kwargs None b)
                        (fun t => Ok (v ++ t))).
Proof.
  intros Hn. destruct name as [|c name]; [discriminate|].
  cbn [Agent2.plain_name] in Hn. apply andb_true_iff in Hn as [Hd Hn].
  apply negb_true_iff in Hd.
  pose proof Hn as Hc. cbn [forallb] in Hc.
  apply andb_true_iff in Hc as [Hc _].
  apply andb_true_iff in Hc as [Hc _].
  apply andb_true_iff in Hc as [H1 _]. apply negb_true_iff in H1.
  transitivity (format_from rt kwargs (Some []) ((c :: name) ++ 125 :: b)).
  - cbn [format_from app]. change (123 =? 123) with true. cbv iota.
    now rewrite H1.
  - exact (format_field kwargs (c :: name) [] b c name Hn eq_refl Hd).
Qed.

(** A template whose first replacement field is a plain name: the text
    before it is copied and the name is looked up. *)
Lemma format_first_field (kwargs : list (str * json)) (a name b : str) :
  Agent2.brace_free a = true -> Agent2.plain_name rt name = true ->
  format rt (a ++ 123 :: name ++ 125 :: b) kwargs
  = bind (get_field rt kwargs name)
         (fun v => bind (format_from rt kwargs None b)
                        (fun t => Ok (a ++ v ++ t))).
Proof.
  intros Ha Hn. unfold format.
  rewrite (format_literal _ _ _ Ha), (format_open _ _ _ Hn).
  destruct (get_field rt kwargs name) as [v|e]; [|reflexivity].
  cbn [bind]. now destruct (format_from rt kwargs None b).
Qed.

Lemma get_field_missing (kwargs : list (str * json)) (name : str) :
  Agent2.plain_name rt name = true -> kw_get name kwargs = None ->
  get_field rt kwargs name = Raise (KeyError name).
Proof.
  intros Hn Hk. unfold get_field. rewrite Hk. now destruct name.
Qed.

Lemma kw_get_dict_get (name : str) (d : dict) : kw_get name d = dict_get name d.
Proof.
  induction d as [|[k v] d IH]; [reflexivity|]. cbn [kw_get dict_get].
  now rewrite IH.
Qed.

(** X13.  In batch mode a template whose first replacement field is a plain
    name other than [batch_data], [companies_list] and
    [output_fields_description] gives the default prompt, whatever the
    records are: the [KeyError] of [str.format] is caught. *)
Theorem generate_prompt_batch_fallback (sc : schema) (records : list dict)
        (fields_desc a name b : str) :
  output_fields_description rt sc = Ok fields_desc ->
  batch_prompt_template sc = a ++ 123 :: name ++ 125 :: b ->
  Agent2.brace_free a = true -> Agent2.plain_name rt name = true ->
  existsb (str_eqb name)
          [u "batch_data"; u "companies_list"; u "output_fields_description"]
  = false ->
  generate_prompt rt sc (Batch records) true
  = Ok (default_prompt (dumps_pretty (input_value (Batch records))) fields_desc).
Proof.
  intros Hdesc Htemplate Ha Hn Hother.
  unfold generate_prompt. rewrite Hdesc. cbn [bind]. rewrite Htemplate.
  rewrite (format_first_field _ _ _ _ Ha Hn).
  rewrite get_field_missing; [reflexivity|assumption|].
  cbn [existsb] in Hother.
  apply orb_false_iff in Hother as [H1 Hother].
  apply orb_false_iff in Hother as [H2 Hother].
  apply orb_false_iff in Hother as [H3 _].
  cbn [kw_get].
  assert (Hsym : forall x, str_eqb name x = false -> str_eqb x name = false).
  { intros x Hx. destruct (str_eqb_spec x name) as [->|]; [|reflexivity].
    now rewrite str_eqb_refl in Hx. }
  now rewrite (Hsym _ H1), (Hsym _ H2), (Hsym _ H3).
Qed.

End TemplateFacts.

Lemma generate_prompt_batch_fallback_witness :
  generate_prompt ascii_runtime Demo.unresolved_schema
                  (Batch Demo.five_records) true
  = Ok (default_prompt
          (dumps_pretty (input_value (Batch Demo.five_records))) []).
Proof.
  apply (generate_prompt_batch_fallback
           ascii_runtime Demo.unresolved_schema Demo.five_records
           [] (u "Describe ") (u "missing") []); reflexivity.
Defined.

(* ----------------------------------------------------------------- *)
(** ** [query_single] *)

Section QuerySingle.

Variable rt : runtime.
Context {World Proc : Type} (sys : Mcp.os World Proc).

(** X14.  When the template of the schema names, as its first replacement
    field, a plain name that is neither [input_data] nor
    [output_fields_description] nor a field of the record, [query_single]
    returns the error mapping with the text of the [KeyError] and does not
    call the transport: the outside world is as it was. *)
Theorem query_single_unresolved_placeholder
        (e : Agent2.engine World Proc) (chat : chat_fn World) (w : World)
        (record : dict) (context fields_desc a name b : str) :
  ai_client (Agent2.core e) = Some chat ->
  output_fields_description rt (active_schema (Agent2.core e)) = Ok fields_desc ->
  prompt_template (active_schema (Agent2.core e)) = a ++ 123 :: name ++ 125 :: b ->
  Agent2.brace_free a = true -> Agent2.plain_name rt name = true ->
  existsb (str_eqb name) [u "input_data"; u "output_fields_description"] = false ->
  dict_has (u "input_data") record = false ->
  dict_has (u "output_fields_description") record = false ->
  dict_has name record = false ->
  Agent2.query_single rt sys e w record context
  = (error_result (exn_text rt (KeyError name)), w).
Proof.
  intros Hchat Hdesc Htemplate Ha Hn Hother Hr1 Hr2 Hrec.
  unfold Agent2.query_single, generate_prompt.
  rewrite Hchat, Hdesc. cbn [bind]. rewrite Hr1, Hr2. cbn [orb].
  rewrite Htemplate, (format_first_field rt _ _ _ _ Ha Hn).
  rewrite get_field_missing; [reflexivity|assumption|].
  cbn [existsb] in Hother.
  apply orb_false_iff in Hother as [H1 Hother].
  apply orb_false_iff in Hother as [H2 _].
  cbn [kw_get].
  assert (Hsym : forall x, str_eqb name x = false -> str_eqb x name = false).
  { intros x Hx. destruct (str_eqb_spec x name) as [->|]; [|reflexivity].
    now rewrite str_eqb_refl in Hx. }
  rewrite (Hsym _ H1), (Hsym _ H2), kw_get_dict_get.
  unfold dict_has in Hrec. now destruct (dict_get name record).
Qed.

Lemma dumps_not_empty (v : json) :
  well_formed v = true -> exists c t, dumps v = c :: t.
Proof.
  intros H. pose proof (JsonFacts.encode_headed O v H) as Hh.
  unfold dumps. destruct (encode true None 0 v) as [|c t]; [contradiction|].
  eauto.
Qed.

Lemma single_response_text (reply : json) (t : str) :
  t <> [] ->
  reply = JStr t
  \/ (exists d, reply = JObj d /\ dict_get (u "content") d = Some (JStr t)) ->
  Agent2.single_response rt reply = JStr t.
Proof.
  intros Ht [->|(d & -> & Hd)]; unfold Agent2.single_response.
  - destruct t as [|c t]; [contradiction|]. reflexivity.
  - rewrite Hd. destruct d as [|kv d]; [discriminate|].
    destruct t as [|c t]; [contradiction|]. reflexivity.
Qed.

(** X15.  When the prompt can be built and the transport answers with the JSON
    text of a well-formed record, as a string or as the [content] of a
    mapping, [query_single] returns the record. *)
Theorem query_single_round_trip
        (e : Agent2.engine World Proc) (chat : chat_fn World) (w : World)
        (record : dict) (context prompt : str) (reply : json) (x : dict) :
  ai_client (Agent2.core e) = Some chat ->
  generate_prompt rt (active_schema (Agent2.core e)) (Single record) false
  = Ok prompt ->
  (forall w' p', fst (chat w' p') = Ok reply) ->
  reply = JStr (dumps (JObj x))
  \/ (exists d, reply = JObj d
                /\ dict_get (u "content") d = Some (JStr (dumps (JObj x)))) ->
  well_formed_record x = true ->
  fst (Agent2.query_single rt sys e w record context) = JObj x.
Proof.
  intros Hchat Hprompt Hreply Hshape Hwf.
  unfold Agent2.query_single. rewrite Hchat, Hprompt.
  match goal with
  | |- context [let '(p, w1) := ?enh in _] => destruct enh as [p' w1]
  end.
  pose proof (Hreply w1 p') as Hr.
  destruct (chat w1 p') as [r w2]. cbn [fst] in Hr. subst r.
  destruct (dumps_not_empty (JObj x) Hwf) as (c & t & Ht).
  rewrite (single_response_text reply (dumps (JObj x)));
    [|rewrite Ht; discriminate|exact Hshape].
  unfold parse_json_response, try_except, loads.
  now rewrite (JsonFacts.decode_dumps (JObj x) Hwf).
Qed.

End QuerySingle.

Lemma query_single_unresolved_placeholder_witness :
  Agent2.query_single ascii_runtime Demo.eof_os Demo3.unresolved_engine
                      0%Z (Demo.record_of "A") []
  = (error_result (exn_text ascii_runtime (KeyError (u "missing"))), 0%Z).
Proof.
  apply (query_single_unresolved_placeholder
           ascii_runtime Demo.eof_os Demo3.unresolved_engine
           Demo3.sample_chat 0%Z (Demo.record_of "A") [] []
           (u "Describe ") (u "missing") []); reflexivity.
Defined.

Lemma query_single_round_trip_witness :
  fst (Agent2.query_single ascii_runtime Demo.eof_os Demo3.sample_engine
                           0%Z (Demo.record_of "A") [])
  = JObj Demo.sample_record.
Proof.
  apply (query_single_round_trip
           ascii_runtime Demo.eof_os Demo3.sample_engine Demo3.sample_chat
           0%Z (Demo.record_of "A") []
           (u "Look up A: - revenue (number): annual revenue")
           (JStr (dumps (JObj Demo.sample_record))) Demo.sample_record).
  - reflexivity.
  - reflexivity.
  - intros w' p'. reflexivity.
  - left. reflexivity.
  - reflexivity.
Defined.

(* ----------------------------------------------------------------- *)
(** ** [query_batch]: lists processed one after the other *)

Section QueryBatchConcat.

Variable rt : runtime.
Variable World : Type.

(** X16.  When the first of two lists fills a whole number of chunks,
    [query_batch] on the two lists joined gives the results for the first
    list followed by the results for the second, the second being
    processed in the world the first has left. *)
Theorem query_batch_concat (a : agent World) (chat : chat_fn World)
        (w : World) (l1 l2 : list dict) (context : str) (batch_size : Z)
        (k : nat) :
  ai_client a = Some chat ->
  (0 < batch_size)%Z ->
  length l1 = (k * Z.to_nat batch_size)%nat ->
  exists r1 w1 r2 w2,
    Agent.query_batch rt World a w l1 context batch_size = (Ok r1, w1)
    /\ Agent.query_batch rt World a w1 l2 context batch_size = (Ok r2, w2)
    /\ Agent.query_batch rt World a w (l1 ++ l2) context batch_size
       = (Ok (r1 ++ r2), w2).
Proof.
  intros Hc Hb Hl.
  pose proof (query_batch_blocks rt World a chat w l1 context batch_size Hc Hb)
    as E1.
  destruct (Views.blocks_of rt World (active_schema a) chat context
              (chunks_of (Z.to_nat batch_size) l1) w) as [b1 w1].
  pose proof (query_batch_blocks rt World a chat w1 l2 context batch_size Hc Hb)
    as E2.
  destruct (Views.blocks_of rt World (active_schema a) chat context
              (chunks_of (Z.to_nat batch_size) l2) w1) as [b2 w2].
  exists (concat b1), w1, (concat b2), w2.
  split; [exact E1|]. split; [exact E2|].
  exact (query_batch_app rt World a chat w l1 l2 context batch_size k
                         _ _ _ _ Hc Hb Hl E1 E2).
Qed.

End QueryBatchConcat.

Lemma query_batch_concat_witness :
  exists r1 w1 r2 w2,
    Agent.query_batch ascii_runtime nat Demo.flaky_agent 0%nat
                      (firstn 4 Demo.five_records) [] 2 = (Ok r1, w1)
    /\ Agent.query_batch ascii_runtime nat Demo.flaky_agent w1
                         (skipn 4 Demo.five_records) [] 2 = (Ok r2, w2)
    /\ Agent.query_batch ascii_runtime nat Demo.flaky_agent 0%nat
                         (firstn 4 Demo.five_records
                          ++ skipn 4 Demo.five_records) [] 2
       = (Ok (r1 ++ r2), w2).
Proof.
  apply (query_batch_concat ascii_runtime nat Demo.flaky_agent Demo.flaky_chat
                            0%nat (firstn 4 Demo.five_records)
                            (skipn 4 Demo.five_records) [] 2 2);
    [reflexivity|lia|reflexivity].
Defined.

(* ----------------------------------------------------------------- *)
(** ** [json]: the indented encoding read back *)

Module PrettyFacts.

Lemma ends_value_cases (rest : str) :
  ends_value rest ->
  rest = [] \/ exists c t, rest = c :: t /\ (c = 44 \/ c = 93 \/ c = 125 \/ c = 10).
Proof. destruct rest as [|c t]; [now left|]. intros H. right. eauto. Qed.

Lemma span_digits_end (rest : str) :
  ends_value rest -> span_digits rest = ([], rest).
Proof.
  intros [->|(c & t & -> & [->|[->|[->| ->]]])]%ends_value_cases; reflexivity.
Qed.

Lemma span_digits_more (s rest : str) :
  ends_value rest ->
  span_digits (s ++ rest) = (fst (span_digits s), snd (span_digits s) ++ rest).
Proof.
  intros Hf. induction s as [|c s IH].
  - exact (span_digits_end rest Hf).
  - cbn [span_digits app]. destruct (ascii_digit c); [|reflexivity].
    rewrite IH. destruct (span_digits s). reflexivity.
Qed.

Lemma scan_int_part_more (s rest ds r : str) :
  ends_value rest -> scan_int_part s = Some (ds, r) ->
  scan_int_part (s ++ rest) = Some (ds, r ++ rest).
Proof.
  intros Hf. destruct s as [|c s]; [discriminate|].
  change ((c :: s) ++ rest) with (c :: (s ++ rest)). unfold scan_int_part.
  destruct (c =? 48); [intros [= <- <-]; reflexivity|].
  destruct (ascii_digit c); [|discriminate].
  change (c :: (s ++ rest)) with ((c :: s) ++ rest).
  rewrite (span_digits_more (c :: s) rest Hf).
  destruct (span_digits (c :: s)). intros [= <- <-]. reflexivity.
Qed.

Lemma scan_frac_more (s rest : str) :
  ends_value rest ->
  scan_frac (s ++ rest) = (fst (scan_frac s), snd (scan_frac s) ++ rest).
Proof.
  intros Hf. destruct s as [|p [|d s]].
  - apply ends_value_cases in Hf
      as [->|(c & t & -> & [->|[->|[->| ->]]])]; try reflexivity;
      destruct t; reflexivity.
  - apply ends_value_cases in Hf
      as [->|(c & t & -> & [->|[->|[->| ->]]])]; try reflexivity;
      cbn; now rewrite andb_false_r.
  - change ((p :: d :: s) ++ rest) with (p :: (d :: s) ++ rest).
    change ((d :: s) ++ rest) with (d :: (s ++ rest)). unfold scan_frac.
    destruct ((p =? 46) && ascii_digit d); [|reflexivity].
    change (d :: (s ++ rest)) with ((d :: s) ++ rest).
    rewrite (span_digits_more (d :: s) rest Hf).
    destruct (span_digits (d :: s)). reflexivity.
Qed.

Lemma scan_exp_more (s rest : str) :
  ends_value rest ->
  scan_exp (s ++ rest) = (fst (scan_exp s), snd (scan_exp s) ++ rest).
Proof.
  intros Hf. destruct s as [|e [|sg s2]].
  - apply ends_value_cases in Hf
      as [->|(c & t & -> & [->|[->|[->| ->]]])]; reflexivity.
  - apply ends_value_cases in Hf
      as [->|(c & t & -> & [->|[->|[->| ->]]])]; cbn;
      destruct ((e =? 101) || (e =? 69)); reflexivity.
  - change ((e :: sg :: s2) ++ rest) with (e :: sg :: (s2 ++ rest)).
    unfold scan_exp.
    destruct ((e =? 101) || (e =? 69)); [|reflexivity].
    destruct ((sg =? 45) || (sg =? 43)).
    + rewrite (span_digits_more s2 rest Hf).
      destruct (span_digits s2) as [[|x ds] r]; reflexivity.
    + change (sg :: (s2 ++ rest)) with ((sg :: s2) ++ rest).
      rewrite (span_digits_more (sg :: s2) rest Hf).
      destruct (span_digits (sg :: s2)) as [[|x ds] r]; reflexivity.
Qed.

(** What the number scanner reads is not changed by what follows the
    term. *)
Lemma scan_number_more (l rest : str) (v : json) (r : str) :
  ends_value rest -> scan_number l = Some (v, r) ->
  scan_number (l ++ rest) = Some (v, r ++ rest).
Proof.
  intros Hf. destruct l as [|c l]; [discriminate|].
  unfold scan_number.
  assert (Hs : scan_sign ((c :: l) ++ rest)
               = (fst (scan_sign (c :: l)), snd (scan_sign (c :: l)) ++ rest))
    by (cbn; destruct (c =? 45); reflexivity).
  rewrite Hs. destruct (scan_sign (c :: l)) as [negative s0]. cbn [fst snd].
  destruct (scan_int_part s0) as [[ds s1]|] eqn:E; [|discriminate].
  rewrite (scan_int_part_more _ _ _ _ Hf E), (scan_frac_more _ _ Hf).
  destruct (scan_frac s1) as [frac s2]. cbn [fst snd].
  rewrite (scan_exp_more _ _ Hf).
  destruct (scan_exp s2) as [ex s3]. cbn [fst snd].
  destruct frac, ex; intros [= <- <-]; reflexivity.
Qed.

Lemma scan_once_number_text (l : str) (v : json) (depth : nat) (rest : str) :
  scan_number l = Some (v, []) -> ends_value rest ->
  scan_once (S depth) (l ++ rest) = Ok (v, rest).
Proof.
  intros E Hf.
  rewrite JsonFacts.scan_once_number
    by (eapply JsonFacts.head_app, JsonFacts.scan_number_head, E).
  now rewrite (scan_number_more _ _ _ _ Hf E).
Qed.

Lemma scan_number_int_text (z : Z) :
  scan_number (str_of_int z) = Some (JInt z, []).
Proof.
  pose proof (JsonFacts.scan_number_int z [] I) as H.
  now rewrite app_nil_r in H.
Qed.

(** Strings, with and without [ensure_ascii]. *)
Lemma scan_escape_any (ea : bool) (c : char) (s : str) :
  scalar_value c = true ->
  scan_string (escape_char ea c ++ s) = consed c (scan_string s).
Proof.
  destruct ea; [apply JsonFacts.scan_escape_char|].
  intros _. unfold escape_char.
  destruct (N.eqb_spec c 34) as [->|N34]; [reflexivity|].
  destruct (N.eqb_spec c 92) as [->|N92]; [reflexivity|].
  destruct (N.eqb_spec c 10) as [->|N10]; [reflexivity|].
  destruct (N.eqb_spec c 13) as [->|N13]; [reflexivity|].
  destruct (N.eqb_spec c 9) as [->|N9]; [reflexivity|].
  destruct (N.eqb_spec c 12) as [->|N12]; [reflexivity|].
  destruct (N.eqb_spec c 8) as [->|N8]; [reflexivity|].
  destruct (N.ltb_spec c 32) as [L32|L32].
  { apply JsonFacts.scan_u_lone; [lia|].
    unfold is_high_surrogate. apply andb_false_iff. left. apply N.leb_gt. lia. }
  apply JsonFacts.scan_plain; assumption.
Qed.

Lemma scan_string_encoded_any (ea : bool) (s rest : str) :
  well_formed_str s = true ->
  scan_string (flat_map (escape_char ea) s ++ 34 :: rest) = Some (s, rest).
Proof.
  induction s as [|c s IH]; intros Hwf; [reflexivity|].
  simpl in Hwf. apply andb_true_iff in Hwf as [Hc Hs].
  simpl. rewrite <- app_assoc, scan_escape_any, IH by assumption.
  reflexivity.
Qed.

Lemma encode_str_more (ea : bool) (s r : str) :
  encode_str ea s ++ r = 34 :: flat_map (escape_char ea) s ++ 34 :: r.
Proof. unfold encode_str. cbn [app]. now rewrite <- app_assoc. Qed.

(** White space. *)
Lemma skip_ws_spaces (n : nat) (s : str) : skip_ws (repeat 32 n ++ s) = skip_ws s.
Proof. induction n as [|n IH]; [reflexivity|exact IH]. Qed.

Lemma skip_ws_indent (indent : option nat) (level : nat) (s : str) :
  skip_ws (newline_indent indent level ++ s) = skip_ws s.
Proof.
  destruct indent as [w|]; [|reflexivity].
  cbn [newline_indent app skip_ws]. change (is_ws 10) with true. cbv iota.
  apply skip_ws_spaces.
Qed.

Lemma skip_ws_gap (indent : option nat) (level : nat) (s : str) :
  skip_ws (gap indent level ++ s) = skip_ws s.
Proof.
  destruct indent as [w|]; [apply skip_ws_indent|reflexivity].
Qed.

Lemma separator_gap (indent : option nat) (level : nat) (s : str) :
  item_separator indent ++ newline_indent indent level ++ s
  = 44 :: gap indent level ++ s.
Proof. destruct indent; reflexivity. Qed.

Lemma ends_value_indent (indent : option nat) (level : nat) (c : char)
      (s : str) :
  c = 93 \/ c = 125 -> ends_value (newline_indent indent level ++ c :: s).
Proof.
  intros Hc. destruct indent as [w|]; cbn [newline_indent app ends_value].
  - tauto.
  - tauto.
Qed.

Lemma ends_value_comma (s : str) : ends_value (44 :: s).
Proof. now left. Qed.

(** The first character of a term. *)
Lemma encode_headed_any (ea : bool) (indent : option nat) (level : nat)
      (v : json) :
  well_formed v = true -> headed (encode ea indent level v).
Proof.
  assert (Hnum : forall text : str,
             (exists c t, text = c :: t /\ ascii_digit c = true) \/
             (exists c t, text = 45 :: c :: t /\ ascii_digit c = true) ->
             headed text).
  { intros text [(c & t & -> & Hc) | (c & t & -> & Hc)].
    - apply JsonFacts.digit_range in Hc. apply JsonFacts.headed_char; lia.
    - apply JsonFacts.headed_char; discriminate. }
  destruct v as [|[|]|z|literal|s|[|x l]|[|kx l]]; intros Hwf;
    try rewrite JsonFacts.encode_array; try rewrite JsonFacts.encode_object;
    try (apply JsonFacts.headed_char; discriminate).
  - apply Hnum, JsonFacts.str_of_int_shape.
  - apply JsonFacts.finite_float_scan in Hwf.
    eapply Hnum, JsonFacts.scan_number_head, Hwf.
Qed.

Lemma encode_items_headed_any (ea : bool) (indent : option nat) (level : nat)
      (x : json) (l : list json) :
  forallb well_formed (x :: l) = true ->
  headed (encode_items ea indent level (x :: l)).
Proof.
  cbn [forallb]. intros [Hx _]%andb_true_iff.
  destruct l as [|y l]; [now apply encode_headed_any|].
  cbn [encode_items]. now apply JsonFacts.headed_app, encode_headed_any.
Qed.

Lemma encode_items_next (ea : bool) (indent : option nat) (level : nat)
      (x y : json) (l : list json) (r : str) :
  encode_items ea indent level (x :: y :: l) ++ r
  = encode ea indent level x
    ++ 44 :: gap indent level ++ (encode_items ea indent level (y :: l) ++ r).
Proof.
  change (encode_items ea indent level (x :: y :: l))
    with (encode ea indent level x
          ++ item_separator indent ++ newline_indent indent level
          ++ encode_items ea indent level (y :: l)).
  rewrite <- !app_assoc. now rewrite separator_gap.
Qed.

Lemma encode_member_single (ea : bool) (indent : option nat) (level : nat)
      (k : str) (x : json) (r : str) :
  encode_members ea indent level [(k, x)] ++ r
  = 34 :: flat_map (escape_char ea) k
       ++ 34 :: 58 :: 32 :: (encode ea indent level x ++ r).
Proof.
  cbn [encode_members]. rewrite <- !app_assoc, encode_str_more. reflexivity.
Qed.

Lemma encode_members_next (ea : bool) (indent : option nat) (level : nat)
      (k : str) (x : json) (ky : str * json) (l : list (str * json))
      (r : str) :
  encode_members ea indent level ((k, x) :: ky :: l) ++ r
  = 34 :: flat_map (escape_char ea) k
       ++ 34 :: 58 :: 32
       :: (encode ea indent level x
           ++ 44 :: gap indent level
           ++ (encode_members ea indent level (ky :: l) ++ r)).
Proof.
  change (encode_members ea indent level ((k, x) :: ky :: l))
    with (encode_str ea k
          ++ [58; 32] ++ encode ea indent level x
          ++ item_separator indent ++ newline_indent indent level
          ++ encode_members ea indent level (ky :: l)).
  rewrite <- !app_assoc, separator_gap, encode_str_more. reflexivity.
Qed.

Lemma encode_members_opens (ea : bool) (indent : option nat) (level : nat)
      (kx : str * json) (l : list (str * json)) (r : str) :
  exists t, encode_members ea indent level (kx :: l) ++ r = 34 :: t.
Proof.
  destruct kx as [k x]. destruct l as [|ky l].
  - rewrite encode_member_single. eexists. reflexivity.
  - rewrite encode_members_next. eexists. reflexivity.
Qed.

Lemma encode_array_more (ea : bool) (indent : option nat) (level : nat)
      (x : json) (l : list json) (r : str) :
  encode ea indent level (JArr (x :: l)) ++ r
  = 91 :: newline_indent indent (S level)
       ++ (encode_items ea indent (S level) (x :: l)
           ++ newline_indent indent level ++ 93 :: r).
Proof.
  rewrite JsonFacts.encode_array. cbn [app].
  now rewrite <- !app_assoc.
Qed.

Lemma encode_object_more (ea : bool) (indent : option nat) (level : nat)
      (kx : str * json) (l : list (str * json)) (r : str) :
  encode ea indent level (JObj (kx :: l)) ++ r
  = 123 :: newline_indent indent (S level)
        ++ (encode_members ea indent (S level) (kx :: l)
            ++ newline_indent indent level ++ 125 :: r).
Proof.
  rewrite JsonFacts.encode_object. cbn [app].
  now rewrite <- !app_assoc.
Qed.

Section Encoder.

Variable ea : bool.
Variable indent : option nat.

Lemma skip_to_bracket (level : nat) (c : N) (rest : str) :
  is_ws c = false ->
  skip_ws (newline_indent indent level ++ c :: rest) = c :: rest.
Proof.
  intros Hc. rewrite skip_ws_indent. cbn [skip_ws]. now rewrite Hc.
Qed.

Lemma scan_items_encoded_any (items : list json) :
  Forall (reads_back_as ea indent) items -> forallb well_formed items = true ->
  items <> [] ->
  forall (level outer depth : nat) (rest : str),
    (depth_of_items items <= depth)%nat ->
    scan_items depth (encode_items ea indent level items
                      ++ newline_indent indent outer ++ 93 :: rest)
    = Ok (items, rest).
Proof.
  induction items as [|x l IH]; intros HP Hwf Hne level outer depth rest Hd;
    [contradiction|].
  inversion HP as [|? ? Hx Hl]; subst.
  pose proof Hwf as Hwf'.
  cbn [forallb] in Hwf. apply andb_true_iff in Hwf as [Hwx Hwl].
  rewrite JsonFacts.depth_of_items_cons in Hd.
  destruct depth as [|d]; [lia|].
  destruct l as [|y l'].
  - cbn [scan_items encode_items].
    rewrite (Hx Hwx level d) by (lia || apply ends_value_indent; now left).
    rewrite (skip_to_bracket outer 93 rest eq_refl). reflexivity.
  - rewrite encode_items_next. cbn [scan_items].
    rewrite (Hx Hwx level d) by (lia || apply ends_value_comma).
    remember (encode_items ea indent level (y :: l')
              ++ newline_indent indent outer ++ 93 :: rest) as R eqn:ER.
    assert (HR : skip_ws (gap indent level ++ R) = R).
    { rewrite skip_ws_gap. subst R.
      now apply JsonFacts.skip_ws_headed, JsonFacts.headed_app,
        encode_items_headed_any. }
    replace (skip_ws (44 :: gap indent level ++ R))
      with (44 :: gap indent level ++ R) by reflexivity.
    replace (44 =? 93) with false by reflexivity.
    replace (44 =? 44) with true by reflexivity.
    rewrite HR, ER, IH; try assumption; [reflexivity|discriminate|lia].
Qed.

Lemma scan_members_encoded_any (fields : list (str * json)) :
  Forall (fun kx => reads_back_as ea indent (snd kx)) fields ->
  Forall (fun kx => well_formed_str (fst kx) = true
                    /\ well_formed (snd kx) = true) fields ->
  fields <> [] ->
  forall (level outer depth : nat) (rest : str),
    (depth_of_members fields <= depth)%nat ->
    scan_members depth (encode_members ea indent level fields
                        ++ newline_indent indent outer ++ 125 :: rest)
    = Ok (fields, rest).
Proof.
  induction fields as [|[k x] l IH];
    intros HP Hwf Hne level outer depth rest Hd; [contradiction|].
  inversion HP as [|? ? Hx Hl]; subst. cbn [snd] in Hx.
  apply JsonFacts.well_formed_members in Hwf as (Hk & Hwx & Hwl).
  rewrite JsonFacts.depth_of_members_cons in Hd. cbn [snd] in Hd.
  destruct depth as [|d]; [lia|].
  destruct l as [|ky l'].
  - rewrite encode_member_single. cbn [scan_members].
    replace (34 =? 34) with true by reflexivity.
    rewrite scan_string_encoded_any by assumption.
    remember (encode ea indent level x
              ++ newline_indent indent outer ++ 125 :: rest) as R eqn:ER.
    assert (HR : skip_ws R = R)
      by (subst R; now apply JsonFacts.skip_ws_headed, JsonFacts.headed_app,
                     encode_headed_any).
    replace (skip_ws (58 :: 32 :: R)) with (58 :: 32 :: R) by reflexivity.
    replace (58 =? 58) with true by reflexivity.
    replace (skip_ws (32 :: R)) with (skip_ws R) by reflexivity.
    rewrite HR, ER.
    rewrite (Hx Hwx level d) by (lia || apply ends_value_indent; now right).
    rewrite (skip_to_bracket outer 125 rest eq_refl). reflexivity.
  - rewrite encode_members_next. cbn [scan_members].
    replace (34 =? 34) with true by reflexivity.
    rewrite scan_string_encoded_any by assumption.
    remember (encode_members ea indent level (ky :: l')
              ++ newline_indent indent outer ++ 125 :: rest) as T eqn:ET.
    remember (encode ea indent level x ++ 44 :: gap indent level ++ T)
      as R eqn:ER.
    assert (HR : skip_ws R = R)
      by (subst R; now apply JsonFacts.skip_ws_headed, JsonFacts.headed_app,
                     encode_headed_any).
    assert (HT : skip_ws (gap indent level ++ T) = T).
    { rewrite skip_ws_gap. subst T.
      destruct (encode_members_opens ea indent level ky l'
                  (newline_indent indent outer ++ 125 :: rest)) as [t ->].
      reflexivity. }
    replace (skip_ws (58 :: 32 :: R)) with (58 :: 32 :: R) by reflexivity.
    replace (58 =? 58) with true by reflexivity.
    replace (skip_ws (32 :: R)) with (skip_ws R) by reflexivity.
    rewrite HR, ER.
    rewrite (Hx Hwx level d) by (lia || apply ends_value_comma).
    replace (skip_ws (44 :: gap indent level ++ T))
      with (44 :: gap indent level ++ T) by reflexivity.
    replace (44 =? 125) with false by reflexivity.
    replace (44 =? 44) with true by reflexivity.
    rewrite HT, ET, IH; try assumption; [reflexivity|discriminate|lia].
Qed.

Lemma scan_once_encoded_any (v : json) : reads_back_as ea indent v.
Proof.
  induction v as [|b|z|literal|s|items IH|fields IH]
    using json_induction; intros Hwf level depth rest Hd Hf.
  - destruct depth; [cbn in Hd; lia|].
    apply ends_value_cases in Hf
      as [->|(c & t & -> & [->|[->|[->| ->]]])]; reflexivity.
  - destruct depth; [cbn in Hd; lia|].
    destruct b;
      apply ends_value_cases in Hf
        as [->|(c & t & -> & [->|[->|[->| ->]]])]; reflexivity.
  - destruct depth; [cbn in Hd; lia|].
    apply scan_once_number_text; [apply scan_number_int_text|exact Hf].
  - destruct depth; [cbn in Hd; lia|].
    apply scan_once_number_text;
      [now apply JsonFacts.finite_float_scan|exact Hf].
  - destruct depth; [cbn in Hd; lia|].
    cbn [encode]. rewrite encode_str_more. cbn [scan_once].
    replace (34 =? 34) with true by reflexivity.
    now rewrite scan_string_encoded_any.
  - rewrite JsonFacts.depth_of_array in Hd.
    destruct depth as [|d]; [lia|].
    destruct items as [|x l]; [reflexivity|].
    cbn [well_formed] in Hwf.
    pose proof (scan_items_encoded_any (x :: l) IH Hwf ltac:(discriminate)
                  (S level) level d rest ltac:(lia)) as E.
    assert (Hh : headed (encode_items ea indent (S level) (x :: l)
                         ++ newline_indent indent level ++ 93 :: rest))
      by now apply JsonFacts.headed_app, encode_items_headed_any.
    rewrite encode_array_more.
    remember (encode_items ea indent (S level) (x :: l)
              ++ newline_indent indent level ++ 93 :: rest) as R eqn:ER.
    cbn [scan_once].
    replace (91 =? 34) with false by reflexivity.
    replace (91 =? 123) with false by reflexivity.
    replace (91 =? 91) with true by reflexivity.
    rewrite skip_ws_indent, (JsonFacts.skip_ws_headed _ Hh).
    destruct (JsonFacts.headed_cons _ Hh) as (c & t & Ec & Hc & _).
    rewrite Ec in *. rewrite Hc, E. reflexivity.
  - rewrite JsonFacts.depth_of_object in Hd.
    destruct depth as [|d]; [lia|].
    destruct fields as [|kx l]; [reflexivity|].
    apply JsonFacts.well_formed_object in Hwf as [Hdist Hwf].
    pose proof (scan_members_encoded_any (kx :: l) IH Hwf ltac:(discriminate)
                  (S level) level d rest ltac:(lia)) as E.
    rewrite encode_object_more.
    destruct (encode_members_opens ea indent (S level) kx l
                (newline_indent indent level ++ 125 :: rest)) as [t Et].
    rewrite Et in *.
    cbn [scan_once].
    replace (123 =? 34) with false by reflexivity.
    replace (123 =? 123) with true by reflexivity.
    rewrite skip_ws_indent.
    replace (skip_ws (34 :: t)) with (34 :: t) by reflexivity.
    replace (34 =? 125) with false by reflexivity.
    enough (Hs : forall X,
               X = Ok (kx :: l, rest) ->
               match X with
               | Ok (ps, r) => Ok (JObj (dict_of_pairs ps), r)
               | Raise e => Raise e
               end = Ok (JObj (kx :: l), rest))
      by (apply Hs; exact E).
    intros X ->. now rewrite JsonFacts.dict_of_pairs_distinct.
Qed.

Lemma separator_length (level : nat) (s : str) :
  (S (length s)
   <= length (item_separator indent ++ newline_indent indent level ++ s))%nat.
Proof.
  rewrite !length_app. destruct indent; cbn [item_separator length]; lia.
Qed.

Lemma items_fit_any (items : list json) :
  Forall (fits_as ea indent) items -> forallb well_formed items = true ->
  forall level : nat,
    (depth_of_items items
     <= length (encode_items ea indent level items) + 1)%nat.
Proof.
  induction items as [|x l IH]; intros HP Hwf level; [cbn; lia|].
  inversion HP as [|? ? Hx Hl]; subst.
  cbn [forallb] in Hwf. apply andb_true_iff in Hwf as [Hwx Hwl].
  rewrite JsonFacts.depth_of_items_cons.
  specialize (Hx Hwx level). specialize (IH Hl Hwl level).
  destruct l as [|y l'].
  - cbn [encode_items]. change (depth_of_items []) with O. lia.
  - change (encode_items ea indent level (x :: y :: l'))
      with (encode ea indent level x
            ++ item_separator indent ++ newline_indent indent level
            ++ encode_items ea indent level (y :: l')).
    rewrite length_app.
    pose proof (separator_length level (encode_items ea indent level (y :: l'))).
    lia.
Qed.

Lemma members_fit_any (fields : list (str * json)) :
  Forall (fun kx => fits_as ea indent (snd kx)) fields ->
  Forall (fun kx => well_formed_str (fst kx) = true
                    /\ well_formed (snd kx) = true) fields ->
  forall level : nat,
    (depth_of_members fields
     <= length (encode_members ea indent level fields) + 1)%nat.
Proof.
  induction fields as [|[k x] l IH]; intros HP Hwf level; [cbn; lia|].
  inversion HP as [|? ? Hx Hl]; subst. cbn [snd] in Hx.
  apply JsonFacts.well_formed_members in Hwf as (Hk & Hwx & Hwl).
  rewrite JsonFacts.depth_of_members_cons. cbn [snd].
  specialize (Hx Hwx level). specialize (IH Hl Hwl level).
  destruct l as [|ky l'].
  - cbn [encode_members]. rewrite !length_app.
    change (depth_of_members []) with O. lia.
  - change (encode_members ea indent level ((k, x) :: ky :: l'))
      with (encode_str ea k
            ++ key_separator ++ encode ea indent level x
            ++ item_separator indent ++ newline_indent indent level
            ++ encode_members ea indent level (ky :: l')).
    rewrite !length_app.
    pose proof (separator_length level
                  (encode_members ea indent level (ky :: l'))) as Hsep.
    rewrite !length_app in Hsep. lia.
Qed.

Lemma depth_fits_any (v : json) : fits_as ea indent v.
Proof.
  induction v as [|b|z|literal|s|items IH|fields IH]
    using json_induction; intros Hwf level.
  - cbn. lia.
  - destruct b; cbn; lia.
  - cbn [encode depth_of].
    destruct (JsonFacts.str_of_int_shape z)
      as [(c & t & -> & _) | (c & t & -> & _)]; cbn [length]; lia.
  - apply JsonFacts.finite_float_scan, JsonFacts.scan_number_head in Hwf.
    cbn [encode depth_of].
    destruct Hwf as [(c & t & -> & _) | (c & t & -> & _)]; cbn [length]; lia.
  - cbn [encode depth_of]. unfold encode_str. cbn [length]. lia.
  - rewrite JsonFacts.depth_of_array. destruct items as [|x l]; [cbn; lia|].
    rewrite JsonFacts.encode_array. cbn [length]. rewrite !length_app.
    cbn [well_formed] in Hwf.
    pose proof (items_fit_any (x :: l) IH Hwf (S level)).
    rewrite ?length_app. cbn [length]. lia.
  - rewrite JsonFacts.depth_of_object. destruct fields as [|kx l]; [cbn; lia|].
    rewrite JsonFacts.encode_object. cbn [length]. rewrite !length_app.
    apply JsonFacts.well_formed_object in Hwf as [_ Hwf].
    pose proof (members_fit_any (kx :: l) IH Hwf (S level)).
    rewrite ?length_app. cbn [length]. lia.
Qed.

(** [json.loads] of the text an encoder writes for a well-formed value
    gives the value, whatever [ensure_ascii] and [indent] are. *)
Lemma decode_encode (v : json) :
  well_formed v = true -> decode (encode ea indent O v) = Ok v.
Proof.
  intros Hwf. unfold decode.
  rewrite (JsonFacts.skip_ws_headed _ (encode_headed_any ea indent O v Hwf)).
  pose proof (scan_once_encoded_any v Hwf O
                (S (length (encode ea indent O v))) []) as E.
  rewrite app_nil_r in E. rewrite E; [reflexivity| |exact I].
  pose proof (depth_fits_any v Hwf O). lia.
Qed.

End Encoder.

End PrettyFacts.

(* ----------------------------------------------------------------- *)
(** ** [save_config] and [load_config] *)

Section ConfigFiles.

Context {World : Type} (sys : Config.files World).

(** X17.  A configuration that [save_config] has written is the configuration
    [load_config] reads: when the files give back what was written to
    them and the configuration is well formed, a manager made for the same
    file after a successful save is the manager that was saved. *)
Theorem save_config_then_load (m : Config.AgentConfigManager) (w : World) :
  keeps_writes sys ->
  well_formed (Config.config m) = true ->
  fst (Config.save_config sys m w) = true ->
  fst (Config.load_config sys (Config.config_file m)
                          (snd (Config.save_config sys m w)))
  = Config.config m
  /\ fst (Config.new_manager sys (Config.config_file m)
                             (snd (Config.save_config sys m w)))
     = m.
Proof.
  intros Hfiles Hwf Hsaved.
  assert (Hload : fst (Config.load_config sys (Config.config_file m)
                         (snd (Config.save_config sys m w)))
                  = Config.config m).
  { unfold Config.save_config in *.
    destruct (Config.write_text sys (Config.config_file m)
                (dumps_pretty (Config.config m)) w) as [[[]|e] w'] eqn:Hw;
      [|discriminate].
    destruct (Hfiles _ _ _ _ Hw) as (Hexists & w'' & Hread).
    cbn [snd]. unfold Config.load_config. rewrite Hexists, Hread.
    unfold dumps_pretty.
    now rewrite (PrettyFacts.decode_encode false (Some 2%nat) _ Hwf). }
  split; [exact Hload|].
  unfold Config.new_manager.
  destruct (Config.load_config sys (Config.config_file m)
              (snd (Config.save_config sys m w))) as [loaded w1].
  cbn [fst] in *. subst loaded. now destruct m.
Qed.

End ConfigFiles.

Lemma save_config_then_load_witness :
  fst (Config.load_config Demo2.memory_files
         (Config.config_file Demo2.default_manager)
         (snd (Config.save_config Demo2.memory_files Demo2.default_manager [])))
  = Config.config Demo2.default_manager
  /\ fst (Config.new_manager Demo2.memory_files
            (Config.config_file Demo2.default_manager)
            (snd (Config.save_config Demo2.memory_files
                                     Demo2.default_manager [])))
     = Demo2.default_manager.
Proof.
  apply (save_config_then_load Demo2.memory_files Demo2.default_manager []).
  - intros path text w w' H. cbn in H. injection H as <-.
    cbn. rewrite str_eqb_refl. split; [reflexivity|].
    eexists. reflexivity.
  - reflexivity.
  - reflexivity.
Defined.

Example default_config_text :
  firstn 42 (dumps_pretty Config.get_default_config)
  = u "{" ++ NL ++ jq "  'active_schema': 'company_enrichment',".
Proof. reflexivity. Qed.
